(** * The worker process manager of the horde image worker

    A shallow embedding of
    [horde_worker_regen/process_management/process_manager.py]:
    the process registry ([ProcessMap]), the model residency map
    ([HordeModelMap]), the job pipeline owned by
    [HordeWorkerProcessManager], its message dispatcher, its scheduler
    and its API operations, followed by the properties of the
    orchestrator that are established (or refuted) on that embedding.

    Conventions.
    - Python [int] is [Z]; [str] is [string]; [x | None] is [option].
    - [time.time()] and the pop intervals are rationals ([Q]); every clock
      read is an explicit input of the operation that performs it.
    - A [dict] whose iteration order is observed ([ProcessMap]) is an
      association list in insertion order; the model map is a [gmap].
    - The manager object is the record [Manager]; a method is a
      computation in the monad [M], which threads the manager, records the
      externally visible effects (pipe sends, HTTP requests, sleeps, lock
      operations, the error, warning and critical logs; debug and info
      logs are left out) and may end in a Python exception.  The state
      reached when an exception is raised is kept: Python does not roll
      back.
    - What the outside world answers (HTTP status, API response, image
      transcoding) is an explicit input of the operation. *)

From Stdlib Require Import QArith Lqa.
From stdpp Require Import base option list strings gmap.

Open Scope Z_scope.

(** ** Enumerations *)

Inductive HordeProcessKind := INFERENCE | SAFETY | DOWNLOAD.

(** Modelled from the spec: the [HordeProcessState] enumeration of
    [messages.py] (section 4.1 lists the states). *)
Inductive HordeProcessState :=
| PROCESS_STARTING
| WAITING_FOR_JOB
| PRELOADING_MODEL
| PRELOADED_MODEL
| INFERENCE_STARTING
| INFERENCE_RUNNING
| INFERENCE_COMPLETE
| EVALUATING_SAFETY
| UNLOADING
| PROCESS_ENDING
| PROCESS_ENDED.

(** Modelled from the spec: [HordeProcessState.can_accept_job] of
    [messages.py]: true only in WAITING_FOR_JOB or PRELOADED. *)
Definition state_can_accept_job (st : HordeProcessState) : bool :=
  match st with
  | WAITING_FOR_JOB | PRELOADED_MODEL => true
  | _ => false
  end.

Inductive ModelLoadState := ON_DISK | LOADING | LOADED_IN_RAM | LOADED_IN_VRAM.

(** Modelled from the spec: [ModelLoadState.is_loaded] of [messages.py]:
    the model is resident in RAM or in VRAM. *)
Definition is_loaded (st : ModelLoadState) : bool :=
  match st with
  | LOADED_IN_RAM | LOADED_IN_VRAM => true
  | _ => false
  end.

Inductive GENERATION_STATE := gs_ok | gs_censored | gs_csam | gs_faulted.

Inductive PyExn :=
| ValueError | KeyError | IndexError | NotImplementedError | ClientError | OtherException.

Inductive LogLevel := ERROR | WARNING | CRITICAL.

Inductive LockName := job_deque_lock | jobs_safety_check_lock | completed_jobs_lock.

#[global] Instance HordeProcessKind_eq_dec : EqDecision HordeProcessKind.
Proof. solve_decision. Defined.
#[global] Instance HordeProcessState_eq_dec : EqDecision HordeProcessState.
Proof. solve_decision. Defined.
#[global] Instance ModelLoadState_eq_dec : EqDecision ModelLoadState.
Proof. solve_decision. Defined.
#[global] Instance GENERATION_STATE_eq_dec : EqDecision GENERATION_STATE.
Proof. solve_decision. Defined.

(** ** Jobs and records *)

(** The part of [ImageGenerateJobPopResponse] (horde_sdk) that the manager
    reads. *)
Record JobPayload := {
  prompt : option string;
  seed : option string;
  loras : option (list string);
  tiling : option bool;
  use_nsfw_censor : bool;
}.

Record ImageGenerateJobPopResponse := {
  id_ : option string;
  model : option string;
  payload : JobPayload;
  r2_upload : option string;
}.

#[global] Instance JobPayload_eq_dec : EqDecision JobPayload.
Proof. solve_decision. Defined.
#[global] Instance ImageGenerateJobPopResponse_eq_dec :
  EqDecision ImageGenerateJobPopResponse.
Proof. solve_decision. Defined.

Record CompletedJobInfo := {
  job_info : ImageGenerateJobPopResponse;
  job_result_images_base64 : option (list string);
  state : GENERATION_STATE;
  censored : option bool;
}.

#[global] Instance CompletedJobInfo_eq_dec : EqDecision CompletedJobInfo.
Proof. solve_decision. Defined.

Definition is_job_checked_for_safety (c : CompletedJobInfo) : bool :=
  bool_decide (censored c ≠ None).

(** ** The process registry *)

Record HordeProcessInfo := {
  process_id : Z;
  process_type : HordeProcessKind;
  last_process_state : HordeProcessState;
  loaded_horde_model_name : option string;
  ram_usage_bytes : Z;
  vram_usage_bytes : Z;
  total_vram_bytes : Z;
}.

Definition new_HordeProcessInfo (pid : Z) (k : HordeProcessKind)
    (st : HordeProcessState) : HordeProcessInfo :=
  {| process_id := pid; process_type := k; last_process_state := st;
     loaded_horde_model_name := None;
     ram_usage_bytes := 0; vram_usage_bytes := 0; total_vram_bytes := 0 |}.

Definition is_process_busy (p : HordeProcessInfo) : bool :=
  negb (state_can_accept_job (last_process_state p)).

Definition can_accept_job (p : HordeProcessInfo) : bool :=
  state_can_accept_job (last_process_state p).

(** [ProcessMap] is a [dict[int, HordeProcessInfo]]; its [values()] are
    iterated in insertion order. *)
Definition ProcessMap := list (Z * HordeProcessInfo).

Definition pm_values (m : ProcessMap) : list HordeProcessInfo := m.*2.

Fixpoint pm_get (pid : Z) (m : ProcessMap) : option HordeProcessInfo :=
  match m with
  | [] => None
  | (k, v) :: rest => if bool_decide (k = pid) then Some v else pm_get pid rest
  end.

Definition pm_contains (pid : Z) (m : ProcessMap) : bool :=
  bool_decide (is_Some (pm_get pid m)).

(** [m[pid] = v]: replaces in place, or appends a new key. *)
Fixpoint pm_set (pid : Z) (v : HordeProcessInfo) (m : ProcessMap) : ProcessMap :=
  match m with
  | [] => [(pid, v)]
  | (k, w) :: rest =>
      if bool_decide (k = pid) then (k, v) :: rest else (k, w) :: pm_set pid v rest
  end.

Definition num_inference_processes (m : ProcessMap) : Z :=
  Z.of_nat (length (filter (λ p, process_type p = INFERENCE) (pm_values m))).

Definition num_available_inference_processes (m : ProcessMap) : Z :=
  Z.of_nat (length (filter
    (λ p, process_type p = INFERENCE ∧ is_process_busy p = false) (pm_values m))).

Definition get_first_available_inference_process (m : ProcessMap)
    : option HordeProcessInfo :=
  head (filter (λ p, process_type p = INFERENCE ∧ can_accept_job p = true)
          (pm_values m)).

Definition get_safety_process (m : ProcessMap) : option HordeProcessInfo :=
  head (filter (λ p, process_type p = SAFETY) (pm_values m)).

Definition num_safety_processes (m : ProcessMap) : Z :=
  Z.of_nat (length (filter (λ p, process_type p = SAFETY) (pm_values m))).

Definition get_first_available_safety_process (m : ProcessMap)
    : option HordeProcessInfo :=
  head (filter (λ p, process_type p = SAFETY ∧ can_accept_job p = true)
          (pm_values m)).

Definition get_process_by_horde_model_name (name : string) (m : ProcessMap)
    : option HordeProcessInfo :=
  head (filter (λ p, loaded_horde_model_name p = Some name) (pm_values m)).

(** ** The model residency map *)

Module ModelInfo.
Record t := {
  horde_model_name : string;
  horde_model_load_state : ModelLoadState;
  process_id : Z;
}.
End ModelInfo.

Definition is_model_loaded (name : string) (root : gmap string ModelInfo.t) : bool :=
  match root !! name with
  | None => false
  | Some mi => is_loaded (ModelInfo.horde_model_load_state mi)
  end.

Definition is_model_loading (name : string) (root : gmap string ModelInfo.t) : bool :=
  match root !! name with
  | None => false
  | Some mi => bool_decide (ModelInfo.horde_model_load_state mi = LOADING)
  end.

(** ** Messages *)

Record HordeSafetyEvaluation := {
  is_nsfw : bool;
  is_csam : bool;
  replacement_image_base64 : option string;
}.

(** Reports of the child processes ([HordeProcessMessage] and its
    subclasses), as the tagged union that the dispatcher's [isinstance]
    chain distinguishes.  The first argument is always [process_id]. *)
Inductive HordeProcessMessage :=
| HordeProcessStateChangeMessage
    (process_id : Z) (process_state : HordeProcessState) (info : string)
| HordeModelStateChangeMessage
    (process_id : Z) (horde_model_name : string) (horde_model_state : ModelLoadState)
| HordeProcessMemoryMessage
    (process_id : Z) (ram_usage_bytes vram_usage_bytes vram_total_bytes : Z)
| HordeInferenceResultMessage
    (process_id : Z) (job_info : ImageGenerateJobPopResponse)
    (job_result_images_base64 : option (list string)) (state : GENERATION_STATE)
| HordeSafetyResultMessage
    (process_id : Z) (job_id : string) (safety_evaluations : list HordeSafetyEvaluation).

Definition message_process_id (m : HordeProcessMessage) : Z :=
  match m with
  | HordeProcessStateChangeMessage pid _ _ => pid
  | HordeModelStateChangeMessage pid _ _ => pid
  | HordeProcessMemoryMessage pid _ _ _ => pid
  | HordeInferenceResultMessage pid _ _ _ => pid
  | HordeSafetyResultMessage pid _ _ => pid
  end.

(** An entry of the model reference catalogue. *)
Record StableDiffusion_ModelRecord := { baseline : string }.

Inductive HordeControlFlag :=
| PRELOAD_MODEL | START_INFERENCE | EVALUATE_SAFETY
| UNLOAD_MODELS_FROM_VRAM | UNLOAD_MODELS_FROM_RAM | END_PROCESS.

(** Control messages written to a child's pipe. *)
Inductive ControlMessage :=
| HordeControlMessage (control_flag : HordeControlFlag)
| HordePreloadInferenceModelMessage
    (control_flag : HordeControlFlag) (horde_model_name : string)
    (will_load_loras seamless_tiling_enabled : bool)
| HordeControlModelMessage (control_flag : HordeControlFlag) (horde_model_name : string)
| HordeInferenceControlMessage
    (control_flag : HordeControlFlag) (horde_model_name : string)
    (job_info : ImageGenerateJobPopResponse)
| HordeSafetyControlMessage
    (control_flag : HordeControlFlag) (job_id : string) (images_base64 : list string)
    (prompt : string) (censor_nsfw sfw_worker : bool)
    (horde_model_info : StableDiffusion_ModelRecord).

(** ** Configuration and API payloads *)

Record reGenBridgeData := {
  api_key : string;
  dreamer_worker_name : string;
  queue_size : Z;
  image_models_to_load : list string;
  nsfw : bool;
  max_power : Z;
  require_upfront_kudos : bool;
  allow_img2img : bool;
  allow_inpainting : bool;
  allow_unsafe_ip : bool;
  allow_post_processing : bool;
  allow_controlnet : bool;
}.

Module JobPopRequest.
Record t := {
  apikey : string;
  name : string;
  bridge_agent : string;
  bridge_version : Z;
  models : list string;
  nsfw : bool;
  threads : Z;
  max_pixels : Z;
  require_upfront_kudos : bool;
  allow_img2img : bool;
  allow_painting : bool;
  allow_unsafe_ipaddr : bool;
  allow_post_processing : bool;
  allow_controlnet : bool;
  allow_lora : bool;
}.
End JobPopRequest.

Module JobSubmitRequest.
Record t := {
  apikey : string;
  id : string;
  seed : Z;
  generation : string;
  state : GENERATION_STATE;
  censored : bool;
}.
End JobSubmitRequest.

Record FindUserResponse := { kudos_details : option Z }.

Inductive ApiRequest :=
| ImageGenerateJobPopRequest (r : JobPopRequest.t)
| JobSubmitRequest (r : JobSubmitRequest.t)
| FindUserRequest (apikey : string).

(** ** Effects

    What a method does to the outside world, in the order in which it
    does it.  The acquisitions and releases of the locks and the writes to
    the job deque are part of the trace. *)

Inductive Event :=
| EvSend (pid : Z) (m : ControlMessage)      (* pipe_connection.send *)
| EvSpawn (k : HordeProcessKind) (pid : Z)   (* multiprocessing.Process(...).start() *)
| EvSubmitRequest (r : ApiRequest)           (* horde_client_session.submit_request *)
| EvHttpPut (url : string) (body : string)   (* requests.put *)
| EvFileWrite (path : string)                (* open(path, "w").write *)
| EvSleep (d : Q)                            (* time.sleep / asyncio.sleep *)
| EvAcquire (l : LockName)
| EvRelease (l : LockName)
| EvLog (l : LogLevel)                       (* logger.error/warning/critical *)
| EvDequeAppend (job : ImageGenerateJobPopResponse)   (* self.job_deque.append *)
| EvDequePopleft.                            (* self.job_deque.popleft *)

(** ** The manager object *)

Record Manager := {
  bridge_data : reGenBridgeData;
  max_inference_processes : Z;
  max_concurrent_inference_processes : Z;
  max_safety_processes : Z;
  max_download_processes : Z;
  total_ram_bytes : Z;
  target_ram_overhead_bytes : Z;
  stable_diffusion_reference : option (gmap string StableDiffusion_ModelRecord);
  _process_map : ProcessMap;
  _horde_model_map : gmap string ModelInfo.t;
  jobs_in_progress : list ImageGenerateJobPopResponse;
  jobs_pending_safety_check : list CompletedJobInfo;
  jobs_being_safety_checked : list CompletedJobInfo;
  completed_jobs : list CompletedJobInfo;
  job_deque : list ImageGenerateJobPopResponse;
  total_num_completed_jobs : Z;
  _process_message_queue : list HordeProcessMessage;
  _testing_jobs_added : Z;
  _job_pop_frequency : Q;
  _last_job_pop_time : Q;
  _user_info_failed : bool;
  _user_info_failed_reason : option string;
  user_info : option FindUserResponse;
  _last_get_user_info_time : Q;
}.

(** Attribute assignment [self.f = v], one setter per assigned attribute. *)
Definition set_process_map (v : ProcessMap) (s : Manager) : Manager :=
  {| bridge_data := bridge_data s;
     max_inference_processes := max_inference_processes s;
     max_concurrent_inference_processes := max_concurrent_inference_processes s;
     max_safety_processes := max_safety_processes s;
     max_download_processes := max_download_processes s;
     total_ram_bytes := total_ram_bytes s;
     target_ram_overhead_bytes := target_ram_overhead_bytes s;
     stable_diffusion_reference := stable_diffusion_reference s; _process_map := v;
     _horde_model_map := _horde_model_map s; jobs_in_progress := jobs_in_progress s;
     jobs_pending_safety_check := jobs_pending_safety_check s;
     jobs_being_safety_checked := jobs_being_safety_checked s;
     completed_jobs := completed_jobs s; job_deque := job_deque s;
     total_num_completed_jobs := total_num_completed_jobs s;
     _process_message_queue := _process_message_queue s;
     _testing_jobs_added := _testing_jobs_added s;
     _job_pop_frequency := _job_pop_frequency s;
     _last_job_pop_time := _last_job_pop_time s;
     _user_info_failed := _user_info_failed s;
     _user_info_failed_reason := _user_info_failed_reason s; user_info := user_info s;
     _last_get_user_info_time := _last_get_user_info_time s |}.

Definition set_horde_model_map (v : gmap string ModelInfo.t) (s : Manager) : Manager :=
  {| bridge_data := bridge_data s; max_inference_processes := max_inference_processes s;
     max_concurrent_inference_processes := max_concurrent_inference_processes s;
     max_safety_processes := max_safety_processes s;
     max_download_processes := max_download_processes s; total_ram_bytes := total_ram_bytes s;
     target_ram_overhead_bytes := target_ram_overhead_bytes s;
     stable_diffusion_reference := stable_diffusion_reference s; _process_map := _process_map s;
     _horde_model_map := v; jobs_in_progress := jobs_in_progress s;
     jobs_pending_safety_check := jobs_pending_safety_check s;
     jobs_being_safety_checked := jobs_being_safety_checked s; completed_jobs := completed_jobs s;
     job_deque := job_deque s; total_num_completed_jobs := total_num_completed_jobs s;
     _process_message_queue := _process_message_queue s;
     _testing_jobs_added := _testing_jobs_added s; _job_pop_frequency := _job_pop_frequency s;
     _last_job_pop_time := _last_job_pop_time s; _user_info_failed := _user_info_failed s;
     _user_info_failed_reason := _user_info_failed_reason s; user_info := user_info s;
     _last_get_user_info_time := _last_get_user_info_time s |}.

Definition set_jobs_in_progress (v : list ImageGenerateJobPopResponse) (s : Manager) : Manager :=
  {| bridge_data := bridge_data s; max_inference_processes := max_inference_processes s;
     max_concurrent_inference_processes := max_concurrent_inference_processes s;
     max_safety_processes := max_safety_processes s;
     max_download_processes := max_download_processes s; total_ram_bytes := total_ram_bytes s;
     target_ram_overhead_bytes := target_ram_overhead_bytes s;
     stable_diffusion_reference := stable_diffusion_reference s; _process_map := _process_map s;
     _horde_model_map := _horde_model_map s; jobs_in_progress := v;
     jobs_pending_safety_check := jobs_pending_safety_check s;
     jobs_being_safety_checked := jobs_being_safety_checked s; completed_jobs := completed_jobs s;
     job_deque := job_deque s; total_num_completed_jobs := total_num_completed_jobs s;
     _process_message_queue := _process_message_queue s;
     _testing_jobs_added := _testing_jobs_added s; _job_pop_frequency := _job_pop_frequency s;
     _last_job_pop_time := _last_job_pop_time s; _user_info_failed := _user_info_failed s;
     _user_info_failed_reason := _user_info_failed_reason s; user_info := user_info s;
     _last_get_user_info_time := _last_get_user_info_time s |}.

Definition set_jobs_pending_safety_check (v : list CompletedJobInfo) (s : Manager) : Manager :=
  {| bridge_data := bridge_data s; max_inference_processes := max_inference_processes s;
     max_concurrent_inference_processes := max_concurrent_inference_processes s;
     max_safety_processes := max_safety_processes s;
     max_download_processes := max_download_processes s; total_ram_bytes := total_ram_bytes s;
     target_ram_overhead_bytes := target_ram_overhead_bytes s;
     stable_diffusion_reference := stable_diffusion_reference s; _process_map := _process_map s;
     _horde_model_map := _horde_model_map s; jobs_in_progress := jobs_in_progress s;
     jobs_pending_safety_check := v; jobs_being_safety_checked := jobs_being_safety_checked s;
     completed_jobs := completed_jobs s; job_deque := job_deque s;
     total_num_completed_jobs := total_num_completed_jobs s;
     _process_message_queue := _process_message_queue s;
     _testing_jobs_added := _testing_jobs_added s; _job_pop_frequency := _job_pop_frequency s;
     _last_job_pop_time := _last_job_pop_time s; _user_info_failed := _user_info_failed s;
     _user_info_failed_reason := _user_info_failed_reason s; user_info := user_info s;
     _last_get_user_info_time := _last_get_user_info_time s |}.

Definition set_jobs_being_safety_checked (v : list CompletedJobInfo) (s : Manager) : Manager :=
  {| bridge_data := bridge_data s; max_inference_processes := max_inference_processes s;
     max_concurrent_inference_processes := max_concurrent_inference_processes s;
     max_safety_processes := max_safety_processes s;
     max_download_processes := max_download_processes s; total_ram_bytes := total_ram_bytes s;
     target_ram_overhead_bytes := target_ram_overhead_bytes s;
     stable_diffusion_reference := stable_diffusion_reference s; _process_map := _process_map s;
     _horde_model_map := _horde_model_map s; jobs_in_progress := jobs_in_progress s;
     jobs_pending_safety_check := jobs_pending_safety_check s; jobs_being_safety_checked := v;
     completed_jobs := completed_jobs s; job_deque := job_deque s;
     total_num_completed_jobs := total_num_completed_jobs s;
     _process_message_queue := _process_message_queue s;
     _testing_jobs_added := _testing_jobs_added s; _job_pop_frequency := _job_pop_frequency s;
     _last_job_pop_time := _last_job_pop_time s; _user_info_failed := _user_info_failed s;
     _user_info_failed_reason := _user_info_failed_reason s; user_info := user_info s;
     _last_get_user_info_time := _last_get_user_info_time s |}.

Definition set_completed_jobs (v : list CompletedJobInfo) (s : Manager) : Manager :=
  {| bridge_data := bridge_data s; max_inference_processes := max_inference_processes s;
     max_concurrent_inference_processes := max_concurrent_inference_processes s;
     max_safety_processes := max_safety_processes s;
     max_download_processes := max_download_processes s; total_ram_bytes := total_ram_bytes s;
     target_ram_overhead_bytes := target_ram_overhead_bytes s;
     stable_diffusion_reference := stable_diffusion_reference s; _process_map := _process_map s;
     _horde_model_map := _horde_model_map s; jobs_in_progress := jobs_in_progress s;
     jobs_pending_safety_check := jobs_pending_safety_check s;
     jobs_being_safety_checked := jobs_being_safety_checked s; completed_jobs := v;
     job_deque := job_deque s; total_num_completed_jobs := total_num_completed_jobs s;
     _process_message_queue := _process_message_queue s;
     _testing_jobs_added := _testing_jobs_added s; _job_pop_frequency := _job_pop_frequency s;
     _last_job_pop_time := _last_job_pop_time s; _user_info_failed := _user_info_failed s;
     _user_info_failed_reason := _user_info_failed_reason s; user_info := user_info s;
     _last_get_user_info_time := _last_get_user_info_time s |}.

Definition set_job_deque (v : list ImageGenerateJobPopResponse) (s : Manager) : Manager :=
  {| bridge_data := bridge_data s; max_inference_processes := max_inference_processes s;
     max_concurrent_inference_processes := max_concurrent_inference_processes s;
     max_safety_processes := max_safety_processes s;
     max_download_processes := max_download_processes s; total_ram_bytes := total_ram_bytes s;
     target_ram_overhead_bytes := target_ram_overhead_bytes s;
     stable_diffusion_reference := stable_diffusion_reference s; _process_map := _process_map s;
     _horde_model_map := _horde_model_map s; jobs_in_progress := jobs_in_progress s;
     jobs_pending_safety_check := jobs_pending_safety_check s;
     jobs_being_safety_checked := jobs_being_safety_checked s; completed_jobs := completed_jobs s;
     job_deque := v; total_num_completed_jobs := total_num_completed_jobs s;
     _process_message_queue := _process_message_queue s;
     _testing_jobs_added := _testing_jobs_added s; _job_pop_frequency := _job_pop_frequency s;
     _last_job_pop_time := _last_job_pop_time s; _user_info_failed := _user_info_failed s;
     _user_info_failed_reason := _user_info_failed_reason s; user_info := user_info s;
     _last_get_user_info_time := _last_get_user_info_time s |}.

Definition set_total_num_completed_jobs (v : Z) (s : Manager) : Manager :=
  {| bridge_data := bridge_data s; max_inference_processes := max_inference_processes s;
     max_concurrent_inference_processes := max_concurrent_inference_processes s;
     max_safety_processes := max_safety_processes s;
     max_download_processes := max_download_processes s; total_ram_bytes := total_ram_bytes s;
     target_ram_overhead_bytes := target_ram_overhead_bytes s;
     stable_diffusion_reference := stable_diffusion_reference s; _process_map := _process_map s;
     _horde_model_map := _horde_model_map s; jobs_in_progress := jobs_in_progress s;
     jobs_pending_safety_check := jobs_pending_safety_check s;
     jobs_being_safety_checked := jobs_being_safety_checked s; completed_jobs := completed_jobs s;
     job_deque := job_deque s; total_num_completed_jobs := v;
     _process_message_queue := _process_message_queue s;
     _testing_jobs_added := _testing_jobs_added s; _job_pop_frequency := _job_pop_frequency s;
     _last_job_pop_time := _last_job_pop_time s; _user_info_failed := _user_info_failed s;
     _user_info_failed_reason := _user_info_failed_reason s; user_info := user_info s;
     _last_get_user_info_time := _last_get_user_info_time s |}.

Definition set_process_message_queue (v : list HordeProcessMessage) (s : Manager) : Manager :=
  {| bridge_data := bridge_data s; max_inference_processes := max_inference_processes s;
     max_concurrent_inference_processes := max_concurrent_inference_processes s;
     max_safety_processes := max_safety_processes s;
     max_download_processes := max_download_processes s; total_ram_bytes := total_ram_bytes s;
     target_ram_overhead_bytes := target_ram_overhead_bytes s;
     stable_diffusion_reference := stable_diffusion_reference s; _process_map := _process_map s;
     _horde_model_map := _horde_model_map s; jobs_in_progress := jobs_in_progress s;
     jobs_pending_safety_check := jobs_pending_safety_check s;
     jobs_being_safety_checked := jobs_being_safety_checked s; completed_jobs := completed_jobs s;
     job_deque := job_deque s; total_num_completed_jobs := total_num_completed_jobs s;
     _process_message_queue := v; _testing_jobs_added := _testing_jobs_added s;
     _job_pop_frequency := _job_pop_frequency s; _last_job_pop_time := _last_job_pop_time s;
     _user_info_failed := _user_info_failed s;
     _user_info_failed_reason := _user_info_failed_reason s; user_info := user_info s;
     _last_get_user_info_time := _last_get_user_info_time s |}.

Definition set_testing_jobs_added (v : Z) (s : Manager) : Manager :=
  {| bridge_data := bridge_data s; max_inference_processes := max_inference_processes s;
     max_concurrent_inference_processes := max_concurrent_inference_processes s;
     max_safety_processes := max_safety_processes s;
     max_download_processes := max_download_processes s; total_ram_bytes := total_ram_bytes s;
     target_ram_overhead_bytes := target_ram_overhead_bytes s;
     stable_diffusion_reference := stable_diffusion_reference s; _process_map := _process_map s;
     _horde_model_map := _horde_model_map s; jobs_in_progress := jobs_in_progress s;
     jobs_pending_safety_check := jobs_pending_safety_check s;
     jobs_being_safety_checked := jobs_being_safety_checked s; completed_jobs := completed_jobs s;
     job_deque := job_deque s; total_num_completed_jobs := total_num_completed_jobs s;
     _process_message_queue := _process_message_queue s; _testing_jobs_added := v;
     _job_pop_frequency := _job_pop_frequency s; _last_job_pop_time := _last_job_pop_time s;
     _user_info_failed := _user_info_failed s;
     _user_info_failed_reason := _user_info_failed_reason s; user_info := user_info s;
     _last_get_user_info_time := _last_get_user_info_time s |}.

Definition set_job_pop_frequency (v : Q) (s : Manager) : Manager :=
  {| bridge_data := bridge_data s; max_inference_processes := max_inference_processes s;
     max_concurrent_inference_processes := max_concurrent_inference_processes s;
     max_safety_processes := max_safety_processes s;
     max_download_processes := max_download_processes s; total_ram_bytes := total_ram_bytes s;
     target_ram_overhead_bytes := target_ram_overhead_bytes s;
     stable_diffusion_reference := stable_diffusion_reference s; _process_map := _process_map s;
     _horde_model_map := _horde_model_map s; jobs_in_progress := jobs_in_progress s;
     jobs_pending_safety_check := jobs_pending_safety_check s;
     jobs_being_safety_checked := jobs_being_safety_checked s; completed_jobs := completed_jobs s;
     job_deque := job_deque s; total_num_completed_jobs := total_num_completed_jobs s;
     _process_message_queue := _process_message_queue s;
     _testing_jobs_added := _testing_jobs_added s; _job_pop_frequency := v;
     _last_job_pop_time := _last_job_pop_time s; _user_info_failed := _user_info_failed s;
     _user_info_failed_reason := _user_info_failed_reason s; user_info := user_info s;
     _last_get_user_info_time := _last_get_user_info_time s |}.

Definition set_last_job_pop_time (v : Q) (s : Manager) : Manager :=
  {| bridge_data := bridge_data s; max_inference_processes := max_inference_processes s;
     max_concurrent_inference_processes := max_concurrent_inference_processes s;
     max_safety_processes := max_safety_processes s;
     max_download_processes := max_download_processes s; total_ram_bytes := total_ram_bytes s;
     target_ram_overhead_bytes := target_ram_overhead_bytes s;
     stable_diffusion_reference := stable_diffusion_reference s; _process_map := _process_map s;
     _horde_model_map := _horde_model_map s; jobs_in_progress := jobs_in_progress s;
     jobs_pending_safety_check := jobs_pending_safety_check s;
     jobs_being_safety_checked := jobs_being_safety_checked s; completed_jobs := completed_jobs s;
     job_deque := job_deque s; total_num_completed_jobs := total_num_completed_jobs s;
     _process_message_queue := _process_message_queue s;
     _testing_jobs_added := _testing_jobs_added s; _job_pop_frequency := _job_pop_frequency s;
     _last_job_pop_time := v; _user_info_failed := _user_info_failed s;
     _user_info_failed_reason := _user_info_failed_reason s; user_info := user_info s;
     _last_get_user_info_time := _last_get_user_info_time s |}.

Definition set_user_info_failed (v : bool) (s : Manager) : Manager :=
  {| bridge_data := bridge_data s; max_inference_processes := max_inference_processes s;
     max_concurrent_inference_processes := max_concurrent_inference_processes s;
     max_safety_processes := max_safety_processes s;
     max_download_processes := max_download_processes s; total_ram_bytes := total_ram_bytes s;
     target_ram_overhead_bytes := target_ram_overhead_bytes s;
     stable_diffusion_reference := stable_diffusion_reference s; _process_map := _process_map s;
     _horde_model_map := _horde_model_map s; jobs_in_progress := jobs_in_progress s;
     jobs_pending_safety_check := jobs_pending_safety_check s;
     jobs_being_safety_checked := jobs_being_safety_checked s; completed_jobs := completed_jobs s;
     job_deque := job_deque s; total_num_completed_jobs := total_num_completed_jobs s;
     _process_message_queue := _process_message_queue s;
     _testing_jobs_added := _testing_jobs_added s; _job_pop_frequency := _job_pop_frequency s;
     _last_job_pop_time := _last_job_pop_time s; _user_info_failed := v;
     _user_info_failed_reason := _user_info_failed_reason s; user_info := user_info s;
     _last_get_user_info_time := _last_get_user_info_time s |}.

Definition set_user_info_failed_reason (v : option string) (s : Manager) : Manager :=
  {| bridge_data := bridge_data s; max_inference_processes := max_inference_processes s;
     max_concurrent_inference_processes := max_concurrent_inference_processes s;
     max_safety_processes := max_safety_processes s;
     max_download_processes := max_download_processes s; total_ram_bytes := total_ram_bytes s;
     target_ram_overhead_bytes := target_ram_overhead_bytes s;
     stable_diffusion_reference := stable_diffusion_reference s; _process_map := _process_map s;
     _horde_model_map := _horde_model_map s; jobs_in_progress := jobs_in_progress s;
     jobs_pending_safety_check := jobs_pending_safety_check s;
     jobs_being_safety_checked := jobs_being_safety_checked s; completed_jobs := completed_jobs s;
     job_deque := job_deque s; total_num_completed_jobs := total_num_completed_jobs s;
     _process_message_queue := _process_message_queue s;
     _testing_jobs_added := _testing_jobs_added s; _job_pop_frequency := _job_pop_frequency s;
     _last_job_pop_time := _last_job_pop_time s; _user_info_failed := _user_info_failed s;
     _user_info_failed_reason := v; user_info := user_info s;
     _last_get_user_info_time := _last_get_user_info_time s |}.

Definition set_user_info (v : option FindUserResponse) (s : Manager) : Manager :=
  {| bridge_data := bridge_data s; max_inference_processes := max_inference_processes s;
     max_concurrent_inference_processes := max_concurrent_inference_processes s;
     max_safety_processes := max_safety_processes s;
     max_download_processes := max_download_processes s; total_ram_bytes := total_ram_bytes s;
     target_ram_overhead_bytes := target_ram_overhead_bytes s;
     stable_diffusion_reference := stable_diffusion_reference s; _process_map := _process_map s;
     _horde_model_map := _horde_model_map s; jobs_in_progress := jobs_in_progress s;
     jobs_pending_safety_check := jobs_pending_safety_check s;
     jobs_being_safety_checked := jobs_being_safety_checked s; completed_jobs := completed_jobs s;
     job_deque := job_deque s; total_num_completed_jobs := total_num_completed_jobs s;
     _process_message_queue := _process_message_queue s;
     _testing_jobs_added := _testing_jobs_added s; _job_pop_frequency := _job_pop_frequency s;
     _last_job_pop_time := _last_job_pop_time s; _user_info_failed := _user_info_failed s;
     _user_info_failed_reason := _user_info_failed_reason s; user_info := v;
     _last_get_user_info_time := _last_get_user_info_time s |}.

Definition set_last_get_user_info_time (v : Q) (s : Manager) : Manager :=
  {| bridge_data := bridge_data s; max_inference_processes := max_inference_processes s;
     max_concurrent_inference_processes := max_concurrent_inference_processes s;
     max_safety_processes := max_safety_processes s;
     max_download_processes := max_download_processes s; total_ram_bytes := total_ram_bytes s;
     target_ram_overhead_bytes := target_ram_overhead_bytes s;
     stable_diffusion_reference := stable_diffusion_reference s; _process_map := _process_map s;
     _horde_model_map := _horde_model_map s; jobs_in_progress := jobs_in_progress s;
     jobs_pending_safety_check := jobs_pending_safety_check s;
     jobs_being_safety_checked := jobs_being_safety_checked s; completed_jobs := completed_jobs s;
     job_deque := job_deque s; total_num_completed_jobs := total_num_completed_jobs s;
     _process_message_queue := _process_message_queue s;
     _testing_jobs_added := _testing_jobs_added s; _job_pop_frequency := _job_pop_frequency s;
     _last_job_pop_time := _last_job_pop_time s; _user_info_failed := _user_info_failed s;
     _user_info_failed_reason := _user_info_failed_reason s; user_info := user_info s;
     _last_get_user_info_time := v |}.
(** ** The monad of manager methods *)

Inductive Outcome (A : Type) :=
| Ret (a : A)
| Raise (e : PyExn).
Arguments Ret {A} a.
Arguments Raise {A} e.

Record Run (A : Type) := {
  outcome : Outcome A;
  final : Manager;
  effects : list Event;
}.
Arguments outcome {A} r.
Arguments final {A} r.
Arguments effects {A} r.

Definition M (A : Type) : Type := Manager → Run A.

Definition ret {A} (a : A) : M A :=
  λ s, {| outcome := Ret a; final := s; effects := [] |}.

Definition bind {A B} (m : M A) (k : A → M B) : M B :=
  λ s,
    match m s with
    | {| outcome := Ret a; final := s1; effects := e1 |} =>
        match k a s1 with
        | {| outcome := o; final := s2; effects := e2 |} =>
            {| outcome := o; final := s2; effects := e1 ++ e2 |}
        end
    | {| outcome := Raise e; final := s1; effects := e1 |} =>
        {| outcome := Raise e; final := s1; effects := e1 |}
    end.

#[global] Instance M_ret : MRet M := @ret.
#[global] Instance M_bind : MBind M := λ A B k m, bind m k.

Definition raise {A} (e : PyExn) : M A :=
  λ s, {| outcome := Raise e; final := s; effects := [] |}.

Definition get : M Manager :=
  λ s, {| outcome := Ret s; final := s; effects := [] |}.

Definition modify (f : Manager → Manager) : M unit :=
  λ s, {| outcome := Ret tt; final := f s; effects := [] |}.

Definition emit (e : Event) : M unit :=
  λ s, {| outcome := Ret tt; final := s; effects := [e] |}.

Definition log (l : LogLevel) : M unit := emit (EvLog l).

(** [try: body except Exception as e: handler(e)].  The handler starts from
    the state the body had reached. *)
Definition try_except {A} (body : M A) (handler : PyExn → M A) : M A :=
  λ s,
    match body s with
    | {| outcome := Ret a; final := s1; effects := e1 |} =>
        {| outcome := Ret a; final := s1; effects := e1 |}
    | {| outcome := Raise e; final := s1; effects := e1 |} =>
        match handler e s1 with
        | {| outcome := o; final := s2; effects := e2 |} =>
            {| outcome := o; final := s2; effects := e1 ++ e2 |}
        end
    end.

(** [async with lock: body]: the lock is released on every exit. *)
Definition with_lock {A} (l : LockName) (body : M A) : M A :=
  λ s,
    match body s with
    | {| outcome := o; final := s1; effects := e1 |} =>
        {| outcome := o; final := s1; effects := EvAcquire l :: e1 ++ [EvRelease l] |}
    end.

Definition returned {A} (r : Run A) : Prop :=
  match outcome r with Ret _ => True | Raise _ => False end.

Definition raised {A} (r : Run A) : Prop :=
  match outcome r with Ret _ => False | Raise _ => True end.

(** A pure computation that may raise, run inside a method. *)
Definition lift {A} (o : Outcome A) : M A :=
  λ s, {| outcome := o; final := s; effects := [] |}.

(** ** [HordeModelMap.update_entry] *)

Definition with_load_state (st : ModelLoadState) (mi : ModelInfo.t) : ModelInfo.t :=
  {| ModelInfo.horde_model_name := ModelInfo.horde_model_name mi;
     ModelInfo.horde_model_load_state := st;
     ModelInfo.process_id := ModelInfo.process_id mi |}.

Definition with_owner (pid : Z) (mi : ModelInfo.t) : ModelInfo.t :=
  {| ModelInfo.horde_model_name := ModelInfo.horde_model_name mi;
     ModelInfo.horde_model_load_state := ModelInfo.horde_model_load_state mi;
     ModelInfo.process_id := pid |}.

Definition model_map_update_entry (horde_model_name : string)
    (load_state : option ModelLoadState) (process_id : option Z) : M unit :=
  s ← get;
  (if bool_decide (_horde_model_map s !! horde_model_name = None) then
     match process_id, load_state with
     | None, _ => raise ValueError
     | Some _, None => raise ValueError
     | Some pid, Some st =>
         modify (λ s, set_horde_model_map
           (<[horde_model_name :=
                {| ModelInfo.horde_model_name := horde_model_name;
                   ModelInfo.horde_model_load_state := st;
                   ModelInfo.process_id := pid |}]> (_horde_model_map s)) s)
     end
   else mret tt);;
  (match load_state with
   | Some st =>
       modify (λ s, set_horde_model_map
         (alter (with_load_state st) horde_model_name (_horde_model_map s)) s)
   | None => mret tt
   end);;
  (match process_id with
   | Some pid =>
       modify (λ s, set_horde_model_map
         (alter (with_owner pid) horde_model_name (_horde_model_map s)) s)
   | None => mret tt
   end).

(** ** [ProcessMap.update_entry] *)

Definition with_last_process_state (v : HordeProcessState) (p : HordeProcessInfo) :=
  {| process_id := process_id p; process_type := process_type p;
     last_process_state := v;
     loaded_horde_model_name := loaded_horde_model_name p;
     ram_usage_bytes := ram_usage_bytes p; vram_usage_bytes := vram_usage_bytes p;
     total_vram_bytes := total_vram_bytes p |}.

Definition with_loaded_horde_model_name (v : option string) (p : HordeProcessInfo) :=
  {| process_id := process_id p; process_type := process_type p;
     last_process_state := last_process_state p;
     loaded_horde_model_name := v;
     ram_usage_bytes := ram_usage_bytes p; vram_usage_bytes := vram_usage_bytes p;
     total_vram_bytes := total_vram_bytes p |}.

Definition with_ram_usage_bytes (v : Z) (p : HordeProcessInfo) :=
  {| process_id := process_id p; process_type := process_type p;
     last_process_state := last_process_state p;
     loaded_horde_model_name := loaded_horde_model_name p;
     ram_usage_bytes := v; vram_usage_bytes := vram_usage_bytes p;
     total_vram_bytes := total_vram_bytes p |}.

Definition with_vram_usage_bytes (v : Z) (p : HordeProcessInfo) :=
  {| process_id := process_id p; process_type := process_type p;
     last_process_state := last_process_state p;
     loaded_horde_model_name := loaded_horde_model_name p;
     ram_usage_bytes := ram_usage_bytes p; vram_usage_bytes := v;
     total_vram_bytes := total_vram_bytes p |}.

Definition with_total_vram_bytes (v : Z) (p : HordeProcessInfo) :=
  {| process_id := process_id p; process_type := process_type p;
     last_process_state := last_process_state p;
     loaded_horde_model_name := loaded_horde_model_name p;
     ram_usage_bytes := ram_usage_bytes p; vram_usage_bytes := vram_usage_bytes p;
     total_vram_bytes := v |}.

(** [self[process_id].attr = v]: [KeyError] when the key is missing. *)
Definition process_setattr (pid : Z) (f : HordeProcessInfo → HordeProcessInfo)
    : M unit :=
  s ← get;
  match pm_get pid (_process_map s) with
  | None => raise KeyError
  | Some p => modify (set_process_map (pm_set pid (f p) (_process_map s)))
  end.

(** [if v is not None: self[process_id].attr = v] *)
Definition setattr_if_not_None {A} (pid : Z)
    (f : A → HordeProcessInfo → HordeProcessInfo) (v : option A) : M unit :=
  match v with
  | Some a => process_setattr pid (f a)
  | None => mret tt
  end.

(** The keyword [loaded_horde_model_name] has type [str | None] with
    default [None]: passing [None] leaves the attribute as it is. *)
Definition process_map_update_entry (pid : Z)
    (last_process_state : option HordeProcessState)
    (loaded_horde_model_name : option string)
    (ram_usage_bytes vram_usage_bytes total_vram_bytes : option Z) : M unit :=
  setattr_if_not_None pid with_last_process_state last_process_state;;
  setattr_if_not_None pid (λ v, with_loaded_horde_model_name (Some v))
    loaded_horde_model_name;;
  setattr_if_not_None pid with_ram_usage_bytes ram_usage_bytes;;
  setattr_if_not_None pid with_vram_usage_bytes vram_usage_bytes;;
  setattr_if_not_None pid with_total_vram_bytes total_vram_bytes.

(** ** The message dispatcher: [receive_and_handle_process_messages] *)

(** [deque.popleft()]: [IndexError] on an empty deque.  The two
    mutations of [job_deque] ([popleft] here, [append] in [api_job_pop])
    are recorded among the effects, so that a property can say which lock
    is held when the deque changes. *)
Definition job_deque_popleft : M unit :=
  s ← get;
  match job_deque s with
  | [] => raise IndexError
  | _ :: rest => emit EvDequePopleft;; modify (set_job_deque rest)
  end.

(** [deque.append(job)] *)
Definition job_deque_append (job : ImageGenerateJobPopResponse) : M unit :=
  emit (EvDequeAppend job);;
  modify (λ s, set_job_deque (job_deque s ++ [job]) s).

(** [for i, job in enumerate(l): if job.job_info.id_ == job_id: l.pop(i); break] *)
Fixpoint pop_by_job_id (job_id : string) (l : list CompletedJobInfo)
    : option CompletedJobInfo * list CompletedJobInfo :=
  match l with
  | [] => (None, [])
  | job :: rest =>
      if bool_decide (id_ (job_info job) = Some job_id) then (Some job, rest)
      else let r := pop_by_job_id job_id rest in (r.1, job :: r.2)
  end.

(** The loop over [range(len(images))] of the safety branch.  The
    accumulator is (images, num_images_censored, num_images_csam);
    [safety_evaluations[i]] raises [IndexError] past the end. *)
Fixpoint apply_safety_evaluations (indices : list nat)
    (safety_evaluations : list HordeSafetyEvaluation)
    (acc : list string * Z * Z) : Outcome (list string * Z * Z) :=
  match indices with
  | [] => Ret acc
  | i :: rest =>
      match safety_evaluations !! i with
      | None => Raise IndexError
      | Some evaluation =>
          match replacement_image_base64 evaluation with
          | Some replacement_image =>
              let '(images, num_images_censored, num_images_csam) := acc in
              apply_safety_evaluations rest safety_evaluations
                (<[i := replacement_image]> images,
                 num_images_censored + 1,
                 if is_csam evaluation then num_images_csam + 1 else num_images_csam)
          | None => apply_safety_evaluations rest safety_evaluations acc
          end
      end
  end.

Definition handle_inference_result (job : ImageGenerateJobPopResponse)
    (images : option (list string)) (st : GENERATION_STATE) : M unit :=
  match images with
  | None => log ERROR                                        (* continue *)
  | Some _ =>
      s ← get;
      let _num_jobs_in_progress := Z.of_nat (length (jobs_in_progress s)) in
      modify (λ s, set_jobs_in_progress
                (filter (λ j, id_ j ≠ id_ job) (jobs_in_progress s)) s);;
      s ← get;
      (if bool_decide (Z.of_nat (length (jobs_in_progress s))
                       ≠ _num_jobs_in_progress - 1)
       then log WARNING else mret tt);;
      job_deque_popleft;;
      modify (λ s, set_total_num_completed_jobs (total_num_completed_jobs s + 1) s);;
      modify (λ s, set_jobs_pending_safety_check
                (jobs_pending_safety_check s ++
                   [{| job_info := job; job_result_images_base64 := images;
                       state := st; censored := None |}]) s)
  end.

Definition handle_safety_result (job_id : string)
    (safety_evaluations : list HordeSafetyEvaluation) : M unit :=
  s ← get;
  let found := pop_by_job_id job_id (jobs_being_safety_checked s) in
  modify (set_jobs_being_safety_checked found.2);;
  match found.1 with
  | None => raise ValueError
  | Some completed_job_info =>
      match job_result_images_base64 completed_job_info with
      | None => raise ValueError
      | Some images =>
          r ← lift (apply_safety_evaluations (seq 0 (length images))
                      safety_evaluations (images, 0, 0));
          let '(images', num_images_censored, num_images_csam) := r in
          let checked :=
            if bool_decide (0 < num_images_censored) then
              {| job_info := job_info completed_job_info;
                 job_result_images_base64 := Some images';
                 state := if bool_decide (0 < num_images_csam)
                          then gs_csam else gs_censored;
                 censored := Some true |}
            else
              {| job_info := job_info completed_job_info;
                 job_result_images_base64 := Some images';
                 state := state completed_job_info;
                 censored := Some false |} in
          modify (λ s, set_completed_jobs (completed_jobs s ++ [checked]) s)
      end
  end.

(** The body of the [while] loop for one message taken off the queue. *)
Definition handle_process_message (message : HordeProcessMessage) : M unit :=
  s ← get;
  if negb (pm_contains (message_process_id message) (_process_map s))
  then raise ValueError
  else
    match message with
    | HordeProcessStateChangeMessage pid process_state _ =>
        process_map_update_entry pid (Some process_state) None None None None
    | HordeModelStateChangeMessage pid name horde_model_state =>
        model_map_update_entry name (Some horde_model_state) (Some pid);;
        match horde_model_state with
        | LOADED_IN_VRAM | LOADED_IN_RAM =>
            process_map_update_entry pid None (Some name) None None None
        | ON_DISK =>
            process_map_update_entry pid None None None None None
        | LOADING => mret tt
        end
    | HordeProcessMemoryMessage pid ram vram vram_total =>
        process_map_update_entry pid None None (Some ram) (Some vram) (Some vram_total)
    | HordeInferenceResultMessage _ job images st =>
        handle_inference_result job images st
    | HordeSafetyResultMessage _ job_id safety_evaluations =>
        handle_safety_result job_id safety_evaluations
    end.

(** [while not queue.empty(): message = queue.get(); ...] over the
    messages that are in the channel.  No handler sits inside the loop: an
    exception leaves it at once. *)
Fixpoint drain_messages (queue : list HordeProcessMessage) : M unit :=
  match queue with
  | [] => mret tt
  | message :: rest =>
      modify (set_process_message_queue rest);;
      handle_process_message message;;
      drain_messages rest
  end.

Definition receive_and_handle_process_messages : M unit :=
  s ← get;
  drain_messages (_process_message_queue s).

(** ** The scheduler *)

Definition get_process_total_ram_usage (s : Manager) : Z :=
  foldl (λ total p, total + ram_usage_bytes p) 0 (pm_values (_process_map s)).

Definition target_ram_bytes_used (s : Manager) : Z :=
  total_ram_bytes s - target_ram_overhead_bytes s.

Definition is_free_inference_process_available (s : Manager) : bool :=
  bool_decide (0 < num_available_inference_processes (_process_map s)).

(** The [for] loop of [is_time_for_shutdown]; [None] stands for the early
    [return False]. *)
Fixpoint any_process_alive (ps : list HordeProcessInfo) (alive : bool) : option bool :=
  match ps with
  | [] => Some alive
  | p :: rest =>
      if is_process_busy p then None
      else if bool_decide (last_process_state p ≠ PROCESS_ENDED)
           then any_process_alive rest true
           else any_process_alive rest alive
  end.

Definition is_time_for_shutdown (s : Manager) : bool :=
  if bool_decide (0 < length (jobs_in_progress s))%nat then false
  else if bool_decide (0 < length (job_deque s))%nat then false
  else match any_process_alive (pm_values (_process_map s)) false with
       | None => false
       | Some alive => negb alive
       end.

(** *** [preload_models] *)

Definition will_load_loras (job : ImageGenerateJobPopResponse) : bool :=
  match loras (payload job) with
  | Some l => bool_decide (0 < length l)%nat
  | None => false
  end.

Definition seamless_tiling_enabled (job : ImageGenerateJobPopResponse) : bool :=
  match tiling (payload job) with
  | Some b => b
  | None => false
  end.

Fixpoint preload_models_loop (jobs : list ImageGenerateJobPopResponse)
    (num_already_loaded_model : Z) : M unit :=
  match jobs with
  | [] => mret tt
  | job :: rest =>
      match model job with
      | None => raise ValueError
      | Some name =>
          s ← get;
          if is_model_loaded name (_horde_model_map s)
             || is_model_loading name (_horde_model_map s)
          then preload_models_loop rest (num_already_loaded_model + 1)
          else if bool_decide
                    (num_inference_processes (_process_map s) ≤ num_already_loaded_model)
          then mret tt                                             (* break *)
          else
            match get_first_available_inference_process (_process_map s) with
            | None => mret tt                                      (* return *)
            | Some available_process =>
                emit (EvSend (process_id available_process)
                        (HordePreloadInferenceModelMessage PRELOAD_MODEL name
                           (will_load_loras job) (seamless_tiling_enabled job)));;
                model_map_update_entry name (Some LOADING)
                  (Some (process_id available_process));;
                process_map_update_entry (process_id available_process)
                  None (Some name) None None None                  (* break *)
            end
      end
  end.

Definition preload_models : M unit :=
  s ← get;
  preload_models_loop (job_deque s) 0.

(** *** [start_inference] *)

(** The first job of the deque that is not (by value) in [jobs_in_progress]. *)
Definition next_job_to_start (s : Manager) : option ImageGenerateJobPopResponse :=
  head (filter (λ job, job ∉ jobs_in_progress s) (job_deque s)).

(** Unload the VRAM of every other process that is idle and holds a model. *)
Fixpoint unload_vram_of_others (ps : list HordeProcessInfo) (chosen : Z) : M unit :=
  match ps with
  | [] => mret tt
  | process_info :: rest =>
      (if bool_decide (process_id process_info = chosen) then mret tt
       else if is_process_busy process_info then mret tt
       else match loaded_horde_model_name process_info with
            | None => mret tt
            | Some name =>
                emit (EvSend (process_id process_info)
                        (HordeControlModelMessage UNLOAD_MODELS_FROM_VRAM name));;
                emit (EvSleep (1 # 10))
            end);;
      unload_vram_of_others rest chosen
  end.

Definition start_inference : M unit :=
  s ← get;
  if bool_decide (max_concurrent_inference_processes s
                  ≤ Z.of_nat (length (jobs_in_progress s)))
  then mret tt
  else
    match next_job_to_start s with
    | None => mret tt
    | Some next_job =>
        match model next_job with
        | None => raise ValueError
        | Some name =>
            if is_model_loaded name (_horde_model_map s) then
              match get_process_by_horde_model_name name (_process_map s) with
              | None => log ERROR
              | Some process_with_model =>
                  if negb (can_accept_job process_with_model) then mret tt
                  else
                    unload_vram_of_others (pm_values (_process_map s))
                      (process_id process_with_model);;
                    modify (λ s, set_jobs_in_progress (jobs_in_progress s ++ [next_job]) s);;
                    emit (EvSend (process_id process_with_model)
                            (HordeInferenceControlMessage START_INFERENCE name next_job))
              end
            else mret tt
        end
    end.

(** *** [unload_from_ram] and [unload_models] *)

Definition unload_from_ram (pid : Z) : M unit :=
  s ← get;
  match pm_get pid (_process_map s) with
  | None => raise ValueError
  | Some process_info =>
      match loaded_horde_model_name process_info with
      | None => raise ValueError
      | Some name =>
          if negb (is_model_loaded name (_horde_model_map s)) then raise ValueError
          else
            emit (EvSend pid (HordeControlModelMessage UNLOAD_MODELS_FROM_RAM name));;
            model_map_update_entry name (Some ON_DISK) (Some pid);;
            process_map_update_entry pid None None None None None
      end
  end.

(** The [while] loop that collects the next distinct models of the deque. *)
Fixpoint next_n_models_loop (jobs : list ImageGenerateJobPopResponse)
    (next_n_models : gset string) (n : Z) : Outcome (gset string) :=
  if bool_decide (n ≤ Z.of_nat (size next_n_models)) then Ret next_n_models
  else
    match jobs with
    | [] => Ret next_n_models
    | job :: rest =>
        match model job with
        | None => Raise ValueError
        | Some model_name => next_n_models_loop rest ({[model_name]} ∪ next_n_models) n
        end
    end.

Fixpoint unload_models_loop (ps : list HordeProcessInfo) : M unit :=
  match ps with
  | [] => mret tt
  | process_info :: rest =>
      s ← get;
      (if is_process_busy process_info then mret tt
       else match loaded_horde_model_name process_info with
            | None => mret tt
            | Some name =>
                if is_model_loading name (_horde_model_map s) then mret tt
                else
                  next_n_models ← lift (next_n_models_loop (job_deque s) ∅
                                          (max_concurrent_inference_processes s));
                  if bool_decide (name ∈ next_n_models) then mret tt
                  else if bool_decide
                            (target_ram_bytes_used s < get_process_total_ram_usage s)
                  then unload_from_ram (process_id process_info)
                  else mret tt
            end);;
      unload_models_loop rest
  end.

Definition unload_models : M unit :=
  s ← get;
  unload_models_loop (pm_values (_process_map s)).

(** *** [start_evaluate_safety] *)

(** [list.remove(x)]: removes the first element equal to [x];
    [ValueError] when there is none. *)
Fixpoint list_remove_first `{EqDecision A} (x : A) (l : list A) : option (list A) :=
  match l with
  | [] => None
  | y :: rest =>
      if bool_decide (y = x) then Some rest
      else cons y <$> list_remove_first x rest
  end.

Definition start_evaluate_safety : M unit :=
  s ← get;
  match jobs_pending_safety_check s with
  | [] => mret tt
  | completed_job_info :: _ =>
      match get_first_available_safety_process (_process_map s) with
      | None => mret tt
      | Some safety_process =>
          match job_result_images_base64 completed_job_info with
          | None => raise ValueError
          | Some images =>
              if bool_decide (1 < length images)%nat then raise NotImplementedError
              else
                match id_ (job_info completed_job_info),
                      model (job_info completed_job_info),
                      stable_diffusion_reference s,
                      prompt (payload (job_info completed_job_info)) with
                | None, _, _, _ => raise ValueError
                | Some _, None, _, _ => raise ValueError
                | Some _, Some _, None, _ => raise ValueError
                | Some _, Some _, Some _, None => raise ValueError
                | Some job_id, Some model_name, Some reference, Some the_prompt =>
                    match list_remove_first completed_job_info
                            (jobs_pending_safety_check s) with
                    | None => raise ValueError
                    | Some remaining =>
                        modify (set_jobs_pending_safety_check remaining);;
                        modify (λ s, set_jobs_being_safety_checked
                                  (jobs_being_safety_checked s ++ [completed_job_info]) s);;
                        match reference !! model_name with
                        | None => raise KeyError
                        | Some record =>
                            emit (EvSend (process_id safety_process)
                                    (HordeSafetyControlMessage EVALUATE_SAFETY job_id
                                       images the_prompt
                                       (use_nsfw_censor
                                          (payload (job_info completed_job_info)))
                                       (negb (nsfw (bridge_data s))) record))
                        end
                    end
                end
          end
      end
  end.

(** ** The API operations *)

(** What an awaited [submit_request] produced: an exception, a
    [RequestErrorResponse], or the expected response. *)
Inductive ApiOutcome (A : Type) :=
| ApiRaised (e : PyExn)
| ApiRequestError
| ApiResponse (a : A).
Arguments ApiRaised {A} e.
Arguments ApiRequestError {A}.
Arguments ApiResponse {A} a.

Definition await_response {A} (o : ApiOutcome A) : M (option A) :=
  match o with
  | ApiRaised e => raise e
  | ApiRequestError => mret None
  | ApiResponse a => mret (Some a)
  end.

(** *** [api_submit_job] *)

Record JobSubmitResponse := { reward : Z }.

Record SubmitWorld := {
  webp_bytes : option string;        (* base64_image_to_stream_buffer, None: it raised *)
  put_status_code : option Z;        (* requests.put(...).status_code, None: it raised *)
  seed_as_int : option Z;            (* int(job_info.payload.seed), None: it raised *)
  job_submit_response : ApiOutcome JobSubmitResponse;
}.

Definition or_raise {A} (e : PyExn) (o : option A) : M A :=
  match o with
  | Some a => mret a
  | None => raise e
  end.

Definition api_submit_job (w : SubmitWorld) : M unit :=
  s ← get;
  match completed_jobs s with
  | [] => mret tt
  | completed_job_info :: _ =>
      let job := job_info completed_job_info in
      match job_result_images_base64 completed_job_info with
      | None => raise ValueError
      | Some images =>
          if bool_decide (1 < length images)%nat then raise NotImplementedError
          else
            match id_ job, seed (payload job), r2_upload job,
                  censored completed_job_info with
            | None, _, _, _ => raise ValueError
            | Some _, None, _, _ => raise ValueError
            | Some _, Some _, None, _ => raise ValueError
            | Some _, Some _, Some _, None => raise ValueError
            | Some job_id, Some _, Some url, Some is_censored =>
                try_except
                  (_ ← or_raise IndexError (images !! 0%nat);
                   image_in_buffer ← or_raise OtherException (webp_bytes w);
                   emit (EvHttpPut url image_in_buffer);;
                   status_code ← or_raise OtherException (put_status_code w);
                   if bool_decide (status_code ≠ 200) then log ERROR
                   else
                     the_seed ← or_raise ValueError (seed_as_int w);
                     let submit_job_request :=
                       {| JobSubmitRequest.apikey := api_key (bridge_data s);
                          JobSubmitRequest.id := job_id;
                          JobSubmitRequest.seed := the_seed;
                          JobSubmitRequest.generation := "R2";
                          JobSubmitRequest.state := state completed_job_info;
                          JobSubmitRequest.censored := is_censored |} in
                     emit (EvSubmitRequest (JobSubmitRequest submit_job_request));;
                     response ← await_response (job_submit_response w);
                     match response with
                     | None => log ERROR
                     | Some _ =>
                         with_lock completed_jobs_lock
                           (s ← get;
                            remaining ← or_raise ValueError
                              (list_remove_first completed_job_info (completed_jobs s));
                            modify (set_completed_jobs remaining))
                     end)
                  (λ _, log ERROR)
            end
      end
  end.

(** *** [api_job_pop] *)

Definition _testing_max_jobs : Z := 10000.
Definition _default_job_pop_frequency : Q := 1.
Definition _error_job_pop_frequency : Q := 5.

Record PopWorld := {
  time_at_check : Q;                 (* first [time.time()] *)
  time_at_stamp : Q;                 (* second [time.time()] *)
  request_built : bool;              (* the request object validated *)
  job_pop_response : ApiOutcome ImageGenerateJobPopResponse;
  file_written : bool;               (* the [testing/<id>] dump succeeded *)
}.

Definition job_pop_request (s : Manager) : JobPopRequest.t :=
  {| JobPopRequest.apikey := api_key (bridge_data s);
     JobPopRequest.name := dreamer_worker_name (bridge_data s);
     JobPopRequest.bridge_agent := "AI Horde Worker:23:tazlin reGen testing";
     JobPopRequest.bridge_version := 23;
     JobPopRequest.models := image_models_to_load (bridge_data s);
     JobPopRequest.nsfw := nsfw (bridge_data s);
     JobPopRequest.threads := max_concurrent_inference_processes s;
     JobPopRequest.max_pixels := max_power (bridge_data s) * 8 * 64 * 64;
     JobPopRequest.require_upfront_kudos := require_upfront_kudos (bridge_data s);
     JobPopRequest.allow_img2img := allow_img2img (bridge_data s);
     JobPopRequest.allow_painting := allow_inpainting (bridge_data s);
     JobPopRequest.allow_unsafe_ipaddr := allow_unsafe_ip (bridge_data s);
     JobPopRequest.allow_post_processing := allow_post_processing (bridge_data s);
     JobPopRequest.allow_controlnet := allow_controlnet (bridge_data s);
     JobPopRequest.allow_lora := false |}.

Definition Qltb (a b : Q) : bool := if Qlt_le_dec a b then true else false.

Definition api_job_pop (w : PopWorld) : M unit :=
  s ← get;
  if bool_decide (queue_size (bridge_data s) + 1 ≤ Z.of_nat (length (job_deque s)))
  then mret tt
  else if bool_decide (_testing_max_jobs ≤ _testing_jobs_added s) then mret tt
  else if Qltb (time_at_check w - _last_job_pop_time s) (_job_pop_frequency s)
  then mret tt
  else
    modify (set_last_job_pop_time (time_at_stamp w));;
    popped ← try_except
      (if request_built w then
         emit (EvSubmitRequest (ImageGenerateJobPopRequest (job_pop_request s)));;
         response ← await_response (job_pop_response w);
         match response with
         | None =>
             log ERROR;;
             modify (set_job_pop_frequency _error_job_pop_frequency);;
             mret None                                              (* return *)
         | Some r => mret (Some r)
         end
       else raise OtherException)
      (λ _,
         log ERROR;;
         modify (set_job_pop_frequency _error_job_pop_frequency);;
         mret None);                                                (* return *)
    match popped with
    | None => mret tt
    | Some job_pop_response =>
        modify (set_job_pop_frequency _default_job_pop_frequency);;
        match id_ job_pop_response with
        | None => mret tt
        | Some job_id =>
            with_lock job_deque_lock
              (job_deque_append job_pop_response;;
               modify (λ s, set_testing_jobs_added (_testing_jobs_added s + 1) s));;
            if file_written w then emit (EvFileWrite ("testing/" +:+ job_id))
            else raise OtherException
        end
    end.

(** *** [api_get_user_info] *)

(** What the outside world gives one call: whether [FindUserRequest(...)]
    could be built, what the awaited request produced, and, for an
    exception, [type(e).__name__] and [str(e)]. *)
Record UserInfoWorld := {
  find_user_request_built : bool;
  find_user_response : ApiOutcome FindUserResponse;
  exception_type_name : string;
  exception_message : string;
}.

(** The request object is built before the [try]: a failure to build it
    leaves the method.  [except ClientError] comes before
    [except Exception]; the reason is the f-string
    [HTTP error (({type(e).__name__}) {e})]. *)
Definition api_get_user_info (w : UserInfoWorld) : M unit :=
  s ← get;
  (if find_user_request_built w then mret tt else raise OtherException);;
  try_except
    (emit (EvSubmitRequest (FindUserRequest (api_key (bridge_data s))));;
     response ← await_response (find_user_response w);
     match response with
     | None =>
         log ERROR;;
         modify (set_user_info_failed true)                         (* return *)
     | Some r =>
         modify (set_user_info (Some r));;
         modify (set_user_info_failed false);;
         modify (set_user_info_failed_reason None)
     end)
    (λ e,
       modify (set_user_info_failed true);;
       match e with
       | ClientError =>
           modify (set_user_info_failed_reason
                     (Some ("HTTP error ((" +:+ exception_type_name w +:+ ") "
                            +:+ exception_message w +:+ ")")))
       | _ =>
           modify (set_user_info_failed_reason
                     (Some ("Unexpected error ((" +:+ exception_type_name w +:+ ") "
                            +:+ exception_message w +:+ ")")))
       end).

(** *** The two tasks of a tick, cut at their [await]

    [asyncio.gather] starts [api_job_pop] and then [api_submit_job]; each
    runs until it awaits the answer to its request, and is resumed when
    the answer is there.  Nothing else in the two methods suspends: the
    locks are free whenever they are taken, [requests.put] and the file
    write block. *)

(** [api_job_pop] from its start to the [await] of the pop request:
    [true] when it is suspended there, [false] when it has returned. *)
Definition api_job_pop_until_await (w : PopWorld) : M bool :=
  s ← get;
  if bool_decide (queue_size (bridge_data s) + 1 ≤ Z.of_nat (length (job_deque s)))
  then mret false
  else if bool_decide (_testing_max_jobs ≤ _testing_jobs_added s) then mret false
  else if Qltb (time_at_check w - _last_job_pop_time s) (_job_pop_frequency s)
  then mret false
  else
    modify (set_last_job_pop_time (time_at_stamp w));;
    try_except
      (if request_built w then
         emit (EvSubmitRequest (ImageGenerateJobPopRequest (job_pop_request s)));;
         mret true
       else raise OtherException)
      (λ _,
         log ERROR;;
         modify (set_job_pop_frequency _error_job_pop_frequency);;
         mret false).

(** [api_job_pop] from the answer to its request on. *)
Definition api_job_pop_after_await (w : PopWorld) : M unit :=
  popped ← try_except
    (response ← await_response (job_pop_response w);
     match response with
     | None =>
         log ERROR;;
         modify (set_job_pop_frequency _error_job_pop_frequency);;
         mret None
     | Some r => mret (Some r)
     end)
    (λ _,
       log ERROR;;
       modify (set_job_pop_frequency _error_job_pop_frequency);;
       mret None);
  match popped with
  | None => mret tt
  | Some job_pop_response =>
      modify (set_job_pop_frequency _default_job_pop_frequency);;
      match id_ job_pop_response with
      | None => mret tt
      | Some job_id =>
          with_lock job_deque_lock
            (job_deque_append job_pop_response;;
             modify (λ s, set_testing_jobs_added (_testing_jobs_added s + 1) s));;
          if file_written w then emit (EvFileWrite ("testing/" +:+ job_id))
          else raise OtherException
      end
  end.

(** [api_submit_job] from its start to the [await] of the submit request:
    the record it is submitting when it is suspended there, [None] when it
    has returned. *)
Definition api_submit_job_until_await (w : SubmitWorld)
    : M (option CompletedJobInfo) :=
  s ← get;
  match completed_jobs s with
  | [] => mret None
  | completed_job_info :: _ =>
      let job := job_info completed_job_info in
      match job_result_images_base64 completed_job_info with
      | None => raise ValueError
      | Some images =>
          if bool_decide (1 < length images)%nat then raise NotImplementedError
          else
            match id_ job, seed (payload job), r2_upload job,
                  censored completed_job_info with
            | None, _, _, _ => raise ValueError
            | Some _, None, _, _ => raise ValueError
            | Some _, Some _, None, _ => raise ValueError
            | Some _, Some _, Some _, None => raise ValueError
            | Some job_id, Some _, Some url, Some is_censored =>
                try_except
                  (_ ← or_raise IndexError (images !! 0%nat);
                   image_in_buffer ← or_raise OtherException (webp_bytes w);
                   emit (EvHttpPut url image_in_buffer);;
                   status_code ← or_raise OtherException (put_status_code w);
                   if bool_decide (status_code ≠ 200) then log ERROR;; mret None
                   else
                     the_seed ← or_raise ValueError (seed_as_int w);
                     let submit_job_request :=
                       {| JobSubmitRequest.apikey := api_key (bridge_data s);
                          JobSubmitRequest.id := job_id;
                          JobSubmitRequest.seed := the_seed;
                          JobSubmitRequest.generation := "R2";
                          JobSubmitRequest.state := state completed_job_info;
                          JobSubmitRequest.censored := is_censored |} in
                     emit (EvSubmitRequest (JobSubmitRequest submit_job_request));;
                     mret (Some completed_job_info))
                  (λ _, log ERROR;; mret None)
            end
      end
  end.

(** [api_submit_job] from the answer to its request on. *)
Definition api_submit_job_after_await (w : SubmitWorld)
    (completed_job_info : CompletedJobInfo) : M unit :=
  try_except
    (response ← await_response (job_submit_response w);
     match response with
     | None => log ERROR
     | Some _ =>
         with_lock completed_jobs_lock
           (s ← get;
            remaining ← or_raise ValueError
              (list_remove_first completed_job_info (completed_jobs s));
            modify (set_completed_jobs remaining))
     end)
    (λ _, log ERROR).

(** *** One iteration of [_api_call_loop] *)

Definition _api_call_loop_interval : Q := 1 # 10.
Definition _api_get_user_info_interval : Q := 5.

(** [pop_answered_first]: the answer to the pop request is there before
    the answer to the submit request. *)
Record ApiTickWorld := {
  time_at_user_info_check : Q;
  time_at_user_info_stamp : Q;
  pop_world : PopWorld;
  submit_world : SubmitWorld;
  pop_answered_first : bool;
}.

(** A task run by [asyncio.gather] with [return_exceptions=True]: its
    exception is returned as a value, never raised into the loop. *)
Definition gathered (task : M unit) : M unit :=
  try_except task (λ _, mret tt).

(** [await asyncio.gather] with [return_exceptions=True] on the tasks
    [api_job_pop] and [api_submit_job]: the pop runs up to its request,
    then the submit runs up to its request, and each is resumed when its
    answer is there; a task that raises is finished.  The other loop is
    not interleaved here. *)
Definition gather_tasks (w : ApiTickWorld) : M unit :=
  pop_awaits ← try_except (api_job_pop_until_await (pop_world w))
                 (λ _, mret false);
  submit_awaits ← try_except (api_submit_job_until_await (submit_world w))
                    (λ _, mret None);
  let resume_pop :=
    if (pop_awaits : bool)
    then gathered (api_job_pop_after_await (pop_world w))
    else mret tt in
  let resume_submit :=
    match submit_awaits with
    | Some completed_job_info =>
        gathered (api_submit_job_after_await (submit_world w) completed_job_info)
    | None => mret tt
    end in
  if pop_answered_first w then resume_pop;; resume_submit
  else resume_submit;; resume_pop.

(** The tasks of a tick are [api_job_pop] and [api_submit_job]; appending
    [api_get_user_info] is commented out in the source, the tick only
    stamps [_last_get_user_info_time]. *)
Definition api_call_loop_iteration (w : ApiTickWorld) : M unit :=
  try_except                                             (* with logger.catch(): *)
    (s ← get;
     (if _user_info_failed s then emit (EvSleep 5) else mret tt);;
     (if Qltb (_last_get_user_info_time s + _api_get_user_info_interval)
              (time_at_user_info_check w)
      then modify (set_last_get_user_info_time (time_at_user_info_stamp w))
      else mret tt);;
     gather_tasks w;;
     s ← get;
     if _user_info_failed s then log ERROR else mret tt)
    (λ _, log ERROR);;
  emit (EvSleep _api_call_loop_interval).

(** ** The lifecycle controller *)

Fixpoint spawn_processes (n : nat) (k : HordeProcessKind) : M unit :=
  match n with
  | O => mret tt
  | S n' =>
      s ← get;
      let pid := Z.of_nat (length (_process_map s)) in
      emit (EvSpawn k pid);;
      modify (set_process_map
                (pm_set pid (new_HordeProcessInfo pid k PROCESS_STARTING)
                   (_process_map s)));;
      spawn_processes n' k
  end.

Definition start_safety_processes : M unit :=
  s ← get;
  let num_processes_to_start :=
    max_safety_processes s - num_safety_processes (_process_map s) in
  if bool_decide (num_processes_to_start < 0)
  then log CRITICAL;; raise ValueError
  else spawn_processes (Z.to_nat num_processes_to_start) SAFETY.

Definition start_inference_processes : M unit :=
  s ← get;
  let num_processes_to_start :=
    max_inference_processes s - num_inference_processes (_process_map s) in
  if bool_decide (num_processes_to_start < 0)
  then log CRITICAL;; raise ValueError
  else spawn_processes (Z.to_nat num_processes_to_start) INFERENCE.

Fixpoint end_processes (n : nat) : M unit :=
  match n with
  | O => mret tt
  | S n' =>
      s ← get;
      match get_first_available_inference_process (_process_map s) with
      | None => log CRITICAL;; raise ValueError
      | Some process_info =>
          emit (EvSend (process_id process_info) (HordeControlMessage END_PROCESS));;
          process_map_update_entry (process_id process_info) None None None None None;;
          end_processes n'
      end
  end.

Definition end_inference_processes : M unit :=
  s ← get;
  let num_processes_to_end :=
    if is_time_for_shutdown s then num_inference_processes (_process_map s)
    else num_inference_processes (_process_map s) - max_inference_processes s in
  if bool_decide (num_processes_to_end < 0)
  then log CRITICAL;; raise ValueError
  else end_processes (Z.to_nat num_processes_to_end).

(** *** One iteration of [_process_control_loop] *)

Inductive LoopControl := LoopContinue | LoopBreak | LoopReturn.

Definition _loop_interval : Q := 1 # 10.

Definition process_control_loop_iteration : M LoopControl :=
  s ← get;
  match stable_diffusion_reference s with
  | None => mret LoopReturn
  | Some _ =>
      with_lock job_deque_lock
        (with_lock jobs_safety_check_lock
           (with_lock completed_jobs_lock receive_and_handle_process_messages));;
      s ← get;
      (if bool_decide (0 < length (jobs_pending_safety_check s))%nat
       then with_lock jobs_safety_check_lock start_evaluate_safety
       else mret tt);;
      s ← get;
      if is_time_for_shutdown s then mret LoopBreak
      else
        s ← get;
        (if is_free_inference_process_available s
            && bool_decide (0 < length (job_deque s))%nat
         then preload_models;; start_inference;; unload_models
         else mret tt);;
        emit (EvSleep _loop_interval);;
        mret LoopContinue
  end.

(** [while True:] of [_process_control_loop].  Between two iterations the
    children may have put reports on the channel: [arrivals] gives, per
    iteration, what arrived before it.  An exception of an iteration is not
    handled anywhere in the loop and ends it. *)
Fixpoint process_control_loop_iterations
    (arrivals : list (list HordeProcessMessage)) : M unit :=
  match arrivals with
  | [] => mret tt
  | arrived :: later =>
      modify (λ s, set_process_message_queue (_process_message_queue s ++ arrived) s);;
      c ← process_control_loop_iteration;
      match c with
      | LoopContinue => process_control_loop_iterations later
      | LoopBreak | LoopReturn => mret tt
      end
  end.

Definition _process_control_loop (arrivals : list (list HordeProcessMessage))
    : M unit :=
  start_safety_processes;;
  start_inference_processes;;
  process_control_loop_iterations arrivals.

(** ** Construction: [HordeWorkerProcessManager.__init__] *)

(** [None] when the constructor raises: the RAM overhead exceeds the
    system RAM, or the inference semaphore is given a negative count. *)
Definition new_manager (bd : reGenBridgeData) (system_ram : Z)
    (reference : gmap string StableDiffusion_ModelRecord)
    (target_ram_overhead max_inference max_safety max_download max_concurrent : Z)
    : option Manager :=
  if bool_decide (max_concurrent < 0) then None
  else if bool_decide (system_ram < target_ram_overhead) then None
  else Some
    {| bridge_data := bd;
       max_inference_processes := max_inference;
       max_concurrent_inference_processes := max_concurrent;
       max_safety_processes := max_safety;
       max_download_processes := max_download;
       total_ram_bytes := system_ram;
       target_ram_overhead_bytes := target_ram_overhead;
       stable_diffusion_reference := Some reference;
       _process_map := [];
       _horde_model_map := ∅;
       jobs_in_progress := [];
       jobs_pending_safety_check := [];
       jobs_being_safety_checked := [];
       completed_jobs := [];
       job_deque := [];
       total_num_completed_jobs := 0;
       _process_message_queue := [];
       _testing_jobs_added := 0;
       _job_pop_frequency := 1;
       _last_job_pop_time := 0;
       _user_info_failed := false;
       _user_info_failed_reason := None;
       user_info := None;
       _last_get_user_info_time := 0 |}.

(** ** The operations of the orchestrator as steps *)

Inductive Operation :=
| message_arrives (m : HordeProcessMessage)      (* a child puts a report *)
| do_start_safety_processes
| do_start_inference_processes
| do_end_inference_processes
| do_receive_and_handle_process_messages
| do_preload_models
| do_start_inference
| do_unload_from_ram (pid : Z)
| do_unload_models
| do_start_evaluate_safety
| do_api_submit_job (w : SubmitWorld)
| do_api_job_pop (w : PopWorld)
| do_api_get_user_info (w : UserInfoWorld)
| do_api_call_loop_iteration (w : ApiTickWorld)
| do_process_control_loop_iteration
| do_process_control_loop (arrivals : list (list HordeProcessMessage)).

Definition perform (o : Operation) : M unit :=
  match o with
  | message_arrives m =>
      modify (λ s, set_process_message_queue (_process_message_queue s ++ [m]) s)
  | do_start_safety_processes => start_safety_processes
  | do_start_inference_processes => start_inference_processes
  | do_end_inference_processes => end_inference_processes
  | do_receive_and_handle_process_messages => receive_and_handle_process_messages
  | do_preload_models => preload_models
  | do_start_inference => start_inference
  | do_unload_from_ram pid => unload_from_ram pid
  | do_unload_models => unload_models
  | do_start_evaluate_safety => start_evaluate_safety
  | do_api_submit_job w => api_submit_job w
  | do_api_job_pop w => api_job_pop w
  | do_api_get_user_info w => api_get_user_info w
  | do_api_call_loop_iteration w => api_call_loop_iteration w
  | do_process_control_loop_iteration => process_control_loop_iteration;; mret tt
  | do_process_control_loop arrivals => _process_control_loop arrivals
  end.

(** The states the manager can be in between operations; an operation that
    raises leaves the manager in the state it had reached. *)
Inductive reachable (s0 : Manager) : Manager → Prop :=
| reachable_start : reachable s0 s0
| reachable_step s o : reachable s0 s → reachable s0 (final (perform o s)).

(** ** Concrete managers used in the examples *)

Module Examples.

Definition bd : reGenBridgeData :=
  {| api_key := "key"; dreamer_worker_name := "dreamer"; queue_size := 1;
     image_models_to_load := ["A"; "B"]; nsfw := true; max_power := 8;
     require_upfront_kudos := false; allow_img2img := true;
     allow_inpainting := true; allow_unsafe_ip := false;
     allow_post_processing := true; allow_controlnet := false |}.

Definition catalogue : gmap string StableDiffusion_ModelRecord :=
  {[ "A" := {| baseline := "stable_diffusion_1" |};
     "B" := {| baseline := "stable_diffusion_xl" |} ]}.

(** The manager right after construction with the default limits
    (3 inference processes, 1 safety process, 1 concurrent inference). *)
Definition fresh : Manager :=
  {| bridge_data := bd;
     max_inference_processes := 3;
     max_concurrent_inference_processes := 1;
     max_safety_processes := 1;
     max_download_processes := 1;
     total_ram_bytes := 17179869184;
     target_ram_overhead_bytes := 2147483648;
     stable_diffusion_reference := Some catalogue;
     _process_map := [];
     _horde_model_map := ∅;
     jobs_in_progress := [];
     jobs_pending_safety_check := [];
     jobs_being_safety_checked := [];
     completed_jobs := [];
     job_deque := [];
     total_num_completed_jobs := 0;
     _process_message_queue := [];
     _testing_jobs_added := 0;
     _job_pop_frequency := 1;
     _last_job_pop_time := 0;
     _user_info_failed := false;
     _user_info_failed_reason := None;
     user_info := None;
     _last_get_user_info_time := 0 |}.

Definition a_payload : JobPayload :=
  {| prompt := Some "a cat"; seed := Some "42"; loras := None; tiling := None;
     use_nsfw_censor := false |}.

Definition job (id name : string) : ImageGenerateJobPopResponse :=
  {| id_ := Some id; model := Some name; payload := a_payload;
     r2_upload := Some "https://r2.example/upload" |}.

(** One safety process (pid 0) and one inference process (pid 1), both
    waiting for a job. *)
Definition two_workers : ProcessMap :=
  [(0, new_HordeProcessInfo 0 SAFETY WAITING_FOR_JOB);
   (1, new_HordeProcessInfo 1 INFERENCE WAITING_FOR_JOB)].

Definition staffed : Manager := set_process_map two_workers fresh.

Definition record (id : string) (images : option (list string))
    (c : option bool) : CompletedJobInfo :=
  {| job_info := job id "A"; job_result_images_base64 := images;
     state := gs_ok; censored := c |}.

(** Job "j1" for model "A" is running on process 1. *)
Definition running : Manager :=
  set_jobs_in_progress [job "j1" "A"] (set_job_deque [job "j1" "A"; job "j2" "B"] staffed).

(** The record of job "j1" (one image) is with the safety process. *)
Definition screening : Manager :=
  set_jobs_being_safety_checked [record "j1" (Some ["image"]) None] staffed.

(** The record of job "j1" is screened and waits for submission. *)
Definition submitting : Manager :=
  set_completed_jobs [record "j1" (Some ["image"]) (Some false)] staffed.

End Examples.

(** The operations that run [start_inference]. *)
Definition calls_start_inference (o : Operation) : bool :=
  match o with
  | do_start_inference
  | do_process_control_loop_iteration
  | do_process_control_loop _ => true
  | _ => false
  end.

(** * Vocabulary of the properties *)

(** ** Relations and effects of a method *)

(** [stable R m]: running [m] from any manager [s] ends, normally or by an
    exception, in a manager related to [s] by [R]. *)
Definition stable (R : relation Manager) {A} (m : M A) : Prop :=
  ∀ s, R s (final (m s)).

(** [never_emits p m]: no run of [m] has an effect that satisfies [p]. *)
Definition never_emits (p : Event → bool) {A} (m : M A) : Prop :=
  ∀ s, existsb p (effects (m s)) = false.

(** A run that does nothing at all. *)
Definition no_op (s : Manager) : Run unit :=
  {| outcome := Ret tt; final := s; effects := [] |}.

(** ** The dispatcher *)

(** The channel holds the same messages. *)
Definition same_message_queue : relation Manager :=
  λ s s', _process_message_queue s' = _process_message_queue s.

(** C4, as the specification words it: every InferenceResult retires. *)
Definition inference_result_always_retires (pid : Z)
    (job : ImageGenerateJobPopResponse) (images : option (list string))
    (st : GENERATION_STATE) (s : Manager) : Prop :=
  let s' := final (handle_process_message
                     (HordeInferenceResultMessage pid job images st) s) in
  jobs_in_progress s' = filter (λ j, id_ j ≠ id_ job) (jobs_in_progress s)
  ∧ job_deque s' = tail (job_deque s)
  ∧ total_num_completed_jobs s' = total_num_completed_jobs s + 1
  ∧ jobs_pending_safety_check s'
      = jobs_pending_safety_check s ++
          [{| job_info := job; job_result_images_base64 := images;
              state := st; censored := None |}].


(** The evaluation supplies a replacement image. *)
Definition has_replacement (evaluation : HordeSafetyEvaluation) : bool :=
  bool_decide (is_Some (replacement_image_base64 evaluation)).

(** How many elements satisfy [p], as the counters of the source count. *)
Fixpoint count_where {A} (p : A → bool) (l : list A) : Z :=
  match l with
  | [] => 0
  | x :: rest => (if p x then 1 else 0) + count_where p rest
  end.

(** Image [i] becomes the replacement of evaluation [i] when there is one. *)
Definition substitute_replacements (images : list string)
    (evaluations : list HordeSafetyEvaluation) : list string :=
  zip_with (λ image evaluation,
              default image (replacement_image_base64 evaluation))
    images evaluations.

(** C1, as the specification words it: the replacements are substituted,
    [censored] tells whether an image was censored (has a replacement),
    and the state becomes CSAM as soon as some image is CSAM, CENSORED when
    some image is censored. *)
Definition safety_result_as_specified (pid : Z) (job_id : string)
    (evaluations : list HordeSafetyEvaluation) (s : Manager) : Prop :=
  ∀ c, c ∈ jobs_being_safety_checked s → id_ (job_info c) = Some job_id →
    ∃ checked,
      completed_jobs
        (final (handle_process_message
                  (HordeSafetyResultMessage pid job_id evaluations) s))
        = completed_jobs s ++ [checked]
      ∧ job_result_images_base64 checked
          = (λ images, substitute_replacements images evaluations)
              <$> job_result_images_base64 c
      ∧ censored checked
          = Some (bool_decide (0 < count_where has_replacement evaluations))
      ∧ state checked
          = if existsb is_csam evaluations then gs_csam
            else if existsb has_replacement evaluations then gs_censored
            else state c.

(** C7, as the specification words it: whatever happens while a message
    is handled, every message that was in the channel is taken off it and
    dispatched. *)
Definition drain_survives_exceptions (s : Manager) : Prop :=
  _process_message_queue (final (receive_and_handle_process_messages s)) = [].

(** The manager in which the drain reaches the message that follows
    [handled]: the messages of [handled] are taken off the channel and
    handled in turn, [rest] staying behind them; [None] when one of them
    raises. *)
Fixpoint drained (handled rest : list HordeProcessMessage) (s : Manager)
    : option Manager :=
  match handled with
  | [] => Some s
  | message :: handled' =>
      let r := handle_process_message message
                 (set_process_message_queue (handled' ++ rest) s) in
      match outcome r with
      | Ret _ => drained handled' rest (final r)
      | Raise _ => None
      end
  end.

Module DrainExample.

(** A memory report of process 1, a safety result for job "j1" that
    carries no evaluation for its one image, and a state change of
    process 1. *)
Definition memory_report : HordeProcessMessage :=
  HordeProcessMemoryMessage 1 1000 2000 8000.

Definition short_result : HordeProcessMessage := HordeSafetyResultMessage 0 "j1" [].

Definition state_change : HordeProcessMessage :=
  HordeProcessStateChangeMessage 1 PRELOADING_MODEL "A".

Definition reports : list HordeProcessMessage :=
  [memory_report; short_result; state_change].

(** The record of job "j1" is with the safety process when the three
    reports are in the channel. *)
Definition waiting : Manager := set_process_message_queue reports Examples.screening.

End DrainExample.

(** ** The jobs in progress *)

(** [jobs_in_progress] never grows past the larger of its length and the
    limit; the limit itself is never assigned. *)
Definition in_progress_within_limit : relation Manager :=
  λ s s',
    max_concurrent_inference_processes s' = max_concurrent_inference_processes s
    ∧ Z.of_nat (length (jobs_in_progress s'))
      ≤ Z.max (Z.of_nat (length (jobs_in_progress s)))
              (max_concurrent_inference_processes s).

(** [jobs_in_progress] does not grow at all. *)
Definition in_progress_not_grown : relation Manager :=
  λ s s',
    max_concurrent_inference_processes s' = max_concurrent_inference_processes s
    ∧ (length (jobs_in_progress s') ≤ length (jobs_in_progress s))%nat.

(** ** Popping jobs *)

(** The three guards of [api_job_pop] let the call through. *)
Definition pop_due (w : PopWorld) (s : Manager) : Prop :=
  Z.of_nat (length (job_deque s)) < queue_size (bridge_data s) + 1
  ∧ _testing_jobs_added s < _testing_max_jobs
  ∧ (_job_pop_frequency s <= time_at_check w - _last_job_pop_time s)%Q.

(** The attempt failed: the request could not be built, the call raised,
    or the API answered with a [RequestErrorResponse]. *)
Definition pop_failed (w : PopWorld) : Prop :=
  request_built w = false
  ∨ job_pop_response w = ApiRequestError
  ∨ ∃ e, job_pop_response w = ApiRaised e.

(** The effect is a job-pop request. *)
Definition is_pop_request (e : Event) : Prop :=
  ∃ r, e = EvSubmitRequest (ImageGenerateJobPopRequest r).

(** Every append to the deque and every [popleft] in the trace comes
    between an acquisition of the deque lock and its release; [held] tells
    whether the lock is held where the trace begins. *)
Fixpoint deque_guarded (held : bool) (es : list Event) : bool :=
  match es with
  | [] => true
  | EvAcquire job_deque_lock :: rest => deque_guarded true rest
  | EvRelease job_deque_lock :: rest => deque_guarded false rest
  | EvDequeAppend _ :: rest | EvDequePopleft :: rest =>
      held && deque_guarded held rest
  | _ :: rest => deque_guarded held rest
  end.

(** The operations that run [api_job_pop]. *)
Definition attempts_a_pop (o : Operation) : bool :=
  match o with
  | do_api_job_pop _ | do_api_call_loop_iteration _ => true
  | _ => false
  end.

(** [_testing_jobs_added] has not gone down. *)
Definition pop_counter_not_decreased : relation Manager :=
  λ s s', _testing_jobs_added s ≤ _testing_jobs_added s'.

(** ** Submitting jobs *)

(** The effect is the upload. *)
Definition is_http_put (e : Event) : bool :=
  match e with EvHttpPut _ _ => true | _ => false end.

(** The effect is a job-submit request. *)
Definition is_job_submit_request (e : Event) : bool :=
  match e with EvSubmitRequest (JobSubmitRequest _) => true | _ => false end.

(** The upload took place and the store answered with [status]. *)
Definition upload_answered (w : SubmitWorld) (r : Run unit) (status : Z) : Prop :=
  existsb is_http_put (effects r) = true ∧ put_status_code w = Some status.

(** The API answers the submit request with a [JobSubmitResponse]. *)
Definition submit_accepted (w : SubmitWorld) : Prop :=
  ∃ response, job_submit_response w = ApiResponse response.

(** C3, as the specification words it: any 2xx answer to the upload,
    followed by an accepted submission, removes the head record. *)
Definition submit_as_specified (w : SubmitWorld) (s : Manager) : Prop :=
  ∀ c rest, completed_jobs s = c :: rest →
    let r := api_submit_job w s in
    completed_jobs (final r) = rest
    ↔ (∃ status, upload_answered w r status ∧ 200 ≤ status < 300)
      ∧ submit_accepted w.

(** ** The user-info refresh *)

(** The effect is a user-info request. *)
Definition is_find_user_request (e : Event) : bool :=
  match e with EvSubmitRequest (FindUserRequest _) => true | _ => false end.

(** C8, as the specification words it: a tick that comes at least 5
    seconds after the last fetch fetches the account record. *)
Definition user_info_refresh_as_specified (w : ApiTickWorld) (s : Manager) : Prop :=
  (_last_get_user_info_time s + 5 <= time_at_user_info_check w)%Q →
  existsb is_find_user_request (effects (api_call_loop_iteration w s)) = true.

(** The attributes of the user-info refresh are not written by the two
    tasks of a tick. *)
Definition same_user_info_state : relation Manager :=
  λ s s',
    _last_get_user_info_time s' = _last_get_user_info_time s
    ∧ _user_info_failed s' = _user_info_failed s
    ∧ _user_info_failed_reason s' = _user_info_failed_reason s
    ∧ user_info s' = user_info s.

(** ** Model residency *)

(** The model a process is recorded to hold. *)
Definition resident_model (s : Manager) (pid : Z) : option string :=
  pm_get pid (_process_map s) ≫= loaded_horde_model_name.

(** The recorded load state of a model. *)
Definition load_state_of (s : Manager) (name : string) : option ModelLoadState :=
  ModelInfo.horde_model_load_state <$> _horde_model_map s !! name.

(** The recorded owner of a model. *)
Definition owner_of (s : Manager) (name : string) : option Z :=
  ModelInfo.process_id <$> _horde_model_map s !! name.

(** Neither the process map nor the model map has changed. *)
Definition same_residency : relation Manager :=
  λ s s', _process_map s' = _process_map s ∧ _horde_model_map s' = _horde_model_map s.

(** Every process is recorded with the same resident model. *)
Definition same_residents : relation Manager :=
  λ s s', ∀ pid, resident_model s' pid = resident_model s pid.

(** The operations that assign neither map. *)
Definition leaves_residency_alone (o : Operation) : bool :=
  match o with
  | message_arrives _
  | do_end_inference_processes
  | do_start_inference
  | do_start_evaluate_safety
  | do_api_submit_job _
  | do_api_job_pop _
  | do_api_get_user_info _
  | do_api_call_loop_iteration _ => true
  | _ => false
  end.

(** C2, as the specification words it: outside the dispatcher nothing
    changes the resident model of a process or the load state of a model. *)
Definition only_the_dispatcher_writes_residency (o : Operation) (s : Manager) : Prop :=
  (∀ pid, resident_model (final (perform o s)) pid = resident_model s pid)
  ∧ (∀ name, load_state_of (final (perform o s)) name = load_state_of s name).

(** What [preload_models] writes: nothing, or the LOADING state of one
    model of the deque, owned by the first available inference process,
    and that model as the resident model of that process. *)
Definition preload_outcome (jobs : list ImageGenerateJobPopResponse)
    (s : Manager) (r : Run unit) : Prop :=
  (final r = s ∧ effects r = [])
  ∨ ∃ job name p,
      job ∈ jobs ∧ model job = Some name
      ∧ get_first_available_inference_process (_process_map s) = Some p
      ∧ effects r
        = [EvSend (process_id p)
             (HordePreloadInferenceModelMessage PRELOAD_MODEL name
                (will_load_loras job) (seamless_tiling_enabled job))]
      ∧ load_state_of (final r) name = Some LOADING
      ∧ owner_of (final r) name = Some (process_id p)
      ∧ (∀ other, other ≠ name →
           _horde_model_map (final r) !! other = _horde_model_map s !! other)
      ∧ (outcome r = Ret tt → resident_model (final r) (process_id p) = Some name)
      ∧ (∀ pid, pid ≠ process_id p →
           resident_model (final r) pid = resident_model s pid).

(** A model either keeps its recorded load state or is now ON_DISK. *)
Definition only_evicted : relation Manager :=
  λ s s', ∀ name,
    load_state_of s' name = load_state_of s name
    ∨ load_state_of s' name = Some ON_DISK.

(** What [unload_from_ram] writes: nothing when it raises, else the
    ON_DISK state of the model the process holds. *)
Definition unload_outcome (pid : Z) (s : Manager) (r : Run unit) : Prop :=
  (final r = s ∧ effects r = [])
  ∨ ∃ name,
      resident_model s pid = Some name
      ∧ is_model_loaded name (_horde_model_map s) = true
      ∧ outcome r = Ret tt
      ∧ effects r = [EvSend pid (HordeControlModelMessage UNLOAD_MODELS_FROM_RAM name)]
      ∧ load_state_of (final r) name = Some ON_DISK
      ∧ ∀ other, other ≠ name →
          _horde_model_map (final r) !! other = _horde_model_map s !! other.

Module ResidencyExample.

(** Job "j1" for model "A" waits in the deque; nothing is loaded. *)
Definition queued : Manager :=
  set_job_deque [Examples.job "j1" "A"] Examples.staffed.

(** Process 1 holds model "A" in RAM and is idle. *)
Definition loaded : Manager :=
  set_horde_model_map
    {[ "A" := {| ModelInfo.horde_model_name := "A";
                 ModelInfo.horde_model_load_state := LOADED_IN_RAM;
                 ModelInfo.process_id := 1 |} ]}
    (set_process_map
       [(0, new_HordeProcessInfo 0 SAFETY WAITING_FOR_JOB);
        (1, with_loaded_horde_model_name (Some "A")
              (new_HordeProcessInfo 1 INFERENCE WAITING_FOR_JOB))]
       Examples.fresh).

End ResidencyExample.

(** ** Invariants and frames *)

(** The two managers agree on what [π] reads. *)
Definition same_on {B} (π : Manager → B) : relation Manager :=
  λ s s', π s' = π s.

(** The run keeps the invariant [I]. *)
Definition keeps (I : Manager → Prop) : relation Manager :=
  λ s s', I s → I s'.

(** ** The process registry as it grows *)

(** Key and kind of every entry, in insertion order. *)
Definition skeleton (m : ProcessMap) : list (Z * HordeProcessKind) :=
  (λ kv, (kv.1, process_type kv.2)) <$> m.

(** The keys are 0, 1, ... in insertion order, and every entry carries its
    key as [process_id]. *)
Definition dense (m : ProcessMap) : Prop :=
  m.*1 = Z.of_nat <$> seq 0 (length m)
  ∧ Forall (λ kv, process_id kv.2 = kv.1) m.

(** The entries that [n] spawns of kind [k] add to a registry of [start]
    entries. *)
Definition spawned (start n : nat) (k : HordeProcessKind) : ProcessMap :=
  (λ i, (Z.of_nat i, new_HordeProcessInfo (Z.of_nat i) k PROCESS_STARTING))
    <$> seq start n.

(** An assignment to an attribute of an entry that keeps its identity, its
    kind, and a resident model if it has one. *)
Definition gentle (f : HordeProcessInfo → HordeProcessInfo) : Prop :=
  ∀ p, process_id (f p) = process_id p
       ∧ process_type (f p) = process_type p
       ∧ (is_Some (loaded_horde_model_name p) →
          is_Some (loaded_horde_model_name (f p))).

(** The configured limits are the same, and a dense registry stays dense,
    with the same keys and kinds, no resident model being lost. *)
Definition registry_kept : relation Manager :=
  λ s s',
    max_inference_processes s' = max_inference_processes s
    ∧ max_safety_processes s' = max_safety_processes s
    ∧ (dense (_process_map s) →
       dense (_process_map s')
       ∧ skeleton (_process_map s') = skeleton (_process_map s)
       ∧ ∀ pid, is_Some (resident_model s pid) → is_Some (resident_model s' pid)).

(** A dense registry stays dense and only grows at its end, no resident
    model being lost. *)
Definition registry_grows : relation Manager :=
  λ s s',
    dense (_process_map s) →
    dense (_process_map s')
    ∧ skeleton (_process_map s) `prefix_of` skeleton (_process_map s')
    ∧ ∀ pid, is_Some (resident_model s pid) → is_Some (resident_model s' pid).

(** No more processes of a kind than configured. *)
Definition within_process_limits (s : Manager) : Prop :=
  dense (_process_map s)
  ∧ num_inference_processes (_process_map s) ≤ Z.max 0 (max_inference_processes s)
  ∧ num_safety_processes (_process_map s) ≤ Z.max 0 (max_safety_processes s).

(** ** Starting and ending processes *)

(** What a start method does with [missing] processes of kind [k] still to
    start: it spawns exactly those and then has nothing left to do; with
    more processes running than configured it logs and raises, changing
    nothing. *)
Definition start_outcome (k : HordeProcessKind) (missing : Z)
    (count : ProcessMap → Z) (start : M unit) (s : Manager) : Prop :=
  (0 ≤ missing →
     outcome (start s) = Ret tt
     ∧ effects (start s)
       = (λ i, EvSpawn k (Z.of_nat i))
           <$> seq (length (_process_map s)) (Z.to_nat missing)
     ∧ final (start s)
       = set_process_map
           (_process_map s
            ++ spawned (length (_process_map s)) (Z.to_nat missing) k) s
     ∧ count (_process_map (final (start s))) = count (_process_map s) + missing
     ∧ start (final (start s)) = no_op (final (start s)))
  ∧ (missing < 0 →
     start s = {| outcome := Raise ValueError; final := s;
                  effects := [EvLog CRITICAL] |}).

(** A manager configured for no inference process at all, with two idle
    inference processes (pids 0 and 1) still registered. *)
Module EndExample.

Definition overstaffed : Manager :=
  set_process_map
    [(0, new_HordeProcessInfo 0 INFERENCE WAITING_FOR_JOB);
     (1, new_HordeProcessInfo 1 INFERENCE WAITING_FOR_JOB)]
    (default Examples.fresh
       (new_manager Examples.bd 17179869184 Examples.catalogue 2147483648 0 1 1 1)).

End EndExample.

(** The number of processes that [end_inference_processes] sets out to
    end. *)
Definition num_processes_to_end (s : Manager) : Z :=
  if is_time_for_shutdown s then num_inference_processes (_process_map s)
  else num_inference_processes (_process_map s) - max_inference_processes s.

(** The process is idle and has reported PROCESS_ENDED. *)
Definition idle_and_ended (p : HordeProcessInfo) : Prop :=
  is_process_busy p = false ∧ last_process_state p = PROCESS_ENDED.

(** The registry has sequential ids and at least one process. *)
Definition staffed_registry (s : Manager) : Prop :=
  dense (_process_map s) ∧ _process_map s ≠ [].

(** ** The accounts of the result pipeline *)

(** The records that wait for the safety check, are being checked, or wait
    for submission. *)
Definition jobs_in_the_pipeline (s : Manager) : Z :=
  Z.of_nat (length (jobs_pending_safety_check s))
  + Z.of_nat (length (jobs_being_safety_checked s))
  + Z.of_nat (length (completed_jobs s)).

(** The completed jobs that have left the pipeline: submitted, or dropped
    by an exception. *)
Definition jobs_gone (s : Manager) : Z :=
  total_num_completed_jobs s - jobs_in_the_pipeline s.

Definition pipeline_advances : relation Manager :=
  λ s s',
    total_num_completed_jobs s ≤ total_num_completed_jobs s'
    ∧ jobs_gone s ≤ jobs_gone s'.

(** What the accounts read. *)
Definition pipeline (s : Manager) :=
  (total_num_completed_jobs s, jobs_pending_safety_check s,
   jobs_being_safety_checked s, completed_jobs s).

(** ** The records of the pipeline and the job deque *)

(** A record that still waits for its safety check: it holds an image
    list, and [censored] is unset. *)
Definition awaits_check (c : CompletedJobInfo) : Prop :=
  is_Some (job_result_images_base64 c) ∧ censored c = None.

(** A record that has been checked: it holds an image list, and
    [censored] is set. *)
Definition checked (c : CompletedJobInfo) : Prop :=
  is_Some (job_result_images_base64 c) ∧ is_Some (censored c).

Definition records_well_formed (s : Manager) : Prop :=
  Forall awaits_check (jobs_pending_safety_check s)
  ∧ Forall awaits_check (jobs_being_safety_checked s)
  ∧ Forall checked (completed_jobs s).

(** What [records_well_formed] reads. *)
Definition records (s : Manager) :=
  (jobs_pending_safety_check s, jobs_being_safety_checked s, completed_jobs s).

(** The deque holds at most [queue_size + 1] jobs, each with an id. *)
Definition deque_within_bound (s : Manager) : Prop :=
  Z.of_nat (length (job_deque s)) ≤ Z.max 0 (queue_size (bridge_data s) + 1)
  ∧ Forall (λ j, is_Some (id_ j)) (job_deque s).

Definition deque_kept : relation Manager :=
  λ s s', bridge_data s' = bridge_data s
          ∧ (deque_within_bound s → deque_within_bound s').

(** Every entry of the model map is filed under its own name. *)
Definition model_map_keyed (s : Manager) : Prop :=
  ∀ name mi, _horde_model_map s !! name = Some mi →
             ModelInfo.horde_model_name mi = name.

(** The manager after a sequence of operations. *)
Definition after (ops : list Operation) (s : Manager) : Manager :=
  foldl (λ s o, final (perform o s)) s ops.

(** One job on its way through the pipeline: the processes are started
    (safety process 0, inference processes 1 to 3), job "j1" is popped,
    its result arrives from process 1 and is screened by process 0. *)
Module PipelineExample.

Definition popped : PopWorld :=
  {| time_at_check := 10; time_at_stamp := 10; request_built := true;
     job_pop_response := ApiResponse (Examples.job "j1" "A");
     file_written := true |}.

Definition generated : list Operation :=
  [do_start_safety_processes; do_start_inference_processes;
   do_api_job_pop popped;
   message_arrives (HordeProcessStateChangeMessage 0 WAITING_FOR_JOB "ready");
   message_arrives (HordeInferenceResultMessage 1 (Examples.job "j1" "A")
                      (Some ["image"]) gs_ok);
   do_receive_and_handle_process_messages].

Definition screened : list Operation :=
  generated ++
  [do_start_evaluate_safety;
   message_arrives (HordeSafetyResultMessage 0 "j1"
                      [{| is_nsfw := false; is_csam := false;
                          replacement_image_base64 := None |}]);
   do_receive_and_handle_process_messages].

End PipelineExample.

(** ** Reports the dispatcher handles field by field *)

(** A run that raises [e] at once: nothing is written, nothing is sent. *)
Definition raises_at_once (e : PyExn) (s : Manager) : Run unit :=
  {| outcome := Raise e; final := s; effects := [] |}.

(** The entry of [name] after [HordeModelMap.update_entry] on an entry
    [mi]: the given attributes are assigned, the others kept. *)
Definition updated_model_info (mi : ModelInfo.t) (load_state : option ModelLoadState)
    (process_id : option Z) : ModelInfo.t :=
  {| ModelInfo.horde_model_name := ModelInfo.horde_model_name mi;
     ModelInfo.horde_model_load_state :=
       default (ModelInfo.horde_model_load_state mi) load_state;
     ModelInfo.process_id := default (ModelInfo.process_id mi) process_id |}.

(** The usage figures of a [HordeProcessMemoryMessage] written to a
    process entry. *)
Definition with_memory (ram vram vram_total : Z) (p : HordeProcessInfo)
    : HordeProcessInfo :=
  with_total_vram_bytes vram_total
    (with_vram_usage_bytes vram (with_ram_usage_bytes ram p)).

(** ** The scheduler's methods, case by case *)

(** What [start_evaluate_safety] does with the head [c] of the pending
    records when a safety process [p] is available and the record can be
    screened: the record moves to the end of the records being checked,
    and the request goes to [p], unless the model is missing from the
    reference, in which case [KeyError] is raised after the move. *)
Definition screening_started (s : Manager) (c : CompletedJobInfo)
    (rest : list CompletedJobInfo) (p : HordeProcessInfo) (images : list string)
    (job_id model_name the_prompt : string)
    (reference : gmap string StableDiffusion_ModelRecord) (r : Run unit) : Prop :=
  final r = set_jobs_being_safety_checked (jobs_being_safety_checked s ++ [c])
              (set_jobs_pending_safety_check rest s)
  ∧ match reference !! model_name with
    | Some record =>
        outcome r = Ret tt
        ∧ effects r
          = [EvSend (process_id p)
               (HordeSafetyControlMessage EVALUATE_SAFETY job_id images the_prompt
                  (use_nsfw_censor (payload (job_info c)))
                  (negb (nsfw (bridge_data s))) record)]
    | None => outcome r = Raise KeyError ∧ effects r = []
    end.

(** The VRAM-unload requests that precede a START_INFERENCE for the
    process [chosen]: each goes to another registered process, idle and
    holding the model named. *)
Definition unloads_of_others (s : Manager) (chosen : Z) (unloads : list Event) : Prop :=
  ∀ pid m,
    EvSend pid m ∈ unloads →
    pid ≠ chosen
    ∧ ∃ q name,
        q ∈ pm_values (_process_map s)
        ∧ process_id q = pid
        ∧ is_process_busy q = false
        ∧ loaded_horde_model_name q = Some name
        ∧ m = HordeControlModelMessage UNLOAD_MODELS_FROM_VRAM name.

(** [start_inference] started [next_job] on the process [p]. *)
Definition inference_started (s : Manager) (next_job : ImageGenerateJobPopResponse)
    (name : string) (p : HordeProcessInfo) (r : Run unit) : Prop :=
  Z.of_nat (length (jobs_in_progress s)) < max_concurrent_inference_processes s
  ∧ next_job_to_start s = Some next_job
  ∧ (next_job ∈ job_deque s)
  ∧ (next_job ∉ jobs_in_progress s)
  ∧ model next_job = Some name
  ∧ is_model_loaded name (_horde_model_map s) = true
  ∧ get_process_by_horde_model_name name (_process_map s) = Some p
  ∧ can_accept_job p = true
  ∧ outcome r = Ret tt
  ∧ final r = set_jobs_in_progress (jobs_in_progress s ++ [next_job]) s
  ∧ ∃ unloads,
      effects r
      = unloads ++ [EvSend (process_id p)
                      (HordeInferenceControlMessage START_INFERENCE name next_job)]
      ∧ unloads_of_others s (process_id p) unloads.

(** ** The API operations, case by case *)

(** The head record passes the checks that [api_submit_job] makes before
    its [try] block. *)
Definition submittable (c : CompletedJobInfo) : Prop :=
  (∃ images, job_result_images_base64 c = Some images ∧ (length images ≤ 1)%nat)
  ∧ is_Some (id_ (job_info c))
  ∧ is_Some (seed (payload (job_info c)))
  ∧ is_Some (r2_upload (job_info c))
  ∧ is_Some (censored c).

(** The submit request that [api_submit_job] builds for the record [c]
    once the seed has been parsed. *)
Definition submit_request_of (s : Manager) (c : CompletedJobInfo)
    (job_id : string) (the_seed : Z) (is_censored : bool) : ApiRequest :=
  JobSubmitRequest
    {| JobSubmitRequest.apikey := api_key (bridge_data s);
       JobSubmitRequest.id := job_id;
       JobSubmitRequest.seed := the_seed;
       JobSubmitRequest.generation := "R2";
       JobSubmitRequest.state := state c;
       JobSubmitRequest.censored := is_censored |}.

(** The manager after the stamp of [_last_get_user_info_time] that an API
    tick makes when the interval has elapsed. *)
Definition stamped (w : ApiTickWorld) (s : Manager) : Manager :=
  if Qltb (_last_get_user_info_time s + _api_get_user_info_interval)
          (time_at_user_info_check w)
  then set_last_get_user_info_time (time_at_user_info_stamp w) s else s.

(** What [api_job_pop] does once its request is answered, when it got as
    far as the request. *)
Definition pop_effects_after_await (w : PopWorld) (s : Manager) : list Event :=
  let r := api_job_pop_until_await w s in
  match outcome r with
  | Ret true => effects (api_job_pop_after_await w (final r))
  | _ => []
  end.

(** What [api_submit_job] does once its request is answered, when it got
    as far as the request. *)
Definition submit_effects_after_await (w : SubmitWorld) (s : Manager) : list Event :=
  let r := api_submit_job_until_await w s in
  match outcome r with
  | Ret (Some completed_job_info) =>
      effects (api_submit_job_after_await w completed_job_info (final r))
  | _ => []
  end.

(** [preload_models] asked the process [p] to preload the model [name]
    of the queued job [job]. *)
Definition preload_requested (s : Manager) (job : ImageGenerateJobPopResponse)
    (name : string) (p : HordeProcessInfo) (r : Run unit) : Prop :=
  job ∈ job_deque s
  ∧ model job = Some name
  ∧ is_model_loaded name (_horde_model_map s) = false
  ∧ is_model_loading name (_horde_model_map s) = false
  ∧ get_first_available_inference_process (_process_map s) = Some p
  ∧ effects r
    = [EvSend (process_id p)
         (HordePreloadInferenceModelMessage PRELOAD_MODEL name
            (will_load_loras job) (seamless_tiling_enabled job))]
  ∧ is_model_loading name (_horde_model_map (final r)) = true.

(** ** Lock discipline *)

#[global] Instance LockName_eq_dec : EqDecision LockName.
Proof. solve_decision. Defined.

(** The locks held after an event, from the locks held before it (the
    innermost first); [None] when the event takes a lock that is already
    held, or releases a lock other than the innermost held one. *)
Definition lock_step (held : list LockName) (e : Event) : option (list LockName) :=
  match e with
  | EvAcquire l => if bool_decide (l ∈ held) then None else Some (l :: held)
  | EvRelease l =>
      match held with
      | h :: rest => if bool_decide (h = l) then Some rest else None
      | [] => None
      end
  | _ => Some held
  end.

Fixpoint lock_trace (held : list LockName) (es : list Event)
    : option (list LockName) :=
  match es with
  | [] => Some held
  | e :: es => lock_step held e ≫= λ held', lock_trace held' es
  end.

(** Run while none of the locks of [L] is held, [m] takes and releases
    locks in a nested fashion and ends with the locks it started with. *)
Definition disciplined (L : list LockName) {A} (m : M A) : Prop :=
  ∀ s held, (∀ l, l ∈ L → l ∉ held) → lock_trace held (effects (m s)) = Some held.

Definition all_locks : list LockName :=
  [job_deque_lock; jobs_safety_check_lock; completed_jobs_lock].

(** The interval between two job pops is the default or the error one. *)
Definition pop_interval_known (s : Manager) : Prop :=
  _job_pop_frequency s = _default_job_pop_frequency
  ∨ _job_pop_frequency s = _error_job_pop_frequency.

(** * Properties *)

(** ** How a computation runs *)

Lemma final_bind {A B} (m : M A) (k : A → M B) (s : Manager) :
  final ((m ≫= k) s) =
  match outcome (m s) with
  | Ret a => final (k a (final (m s)))
  | Raise _ => final (m s)
  end.
Proof.
  unfold mbind, M_bind, bind.
  destruct (m s) as [[a|e] s1 e1]; simpl; [|done].
  by destruct (k a s1).
Qed.

Lemma outcome_bind {A B} (m : M A) (k : A → M B) (s : Manager) :
  outcome ((m ≫= k) s) =
  match outcome (m s) with
  | Ret a => outcome (k a (final (m s)))
  | Raise e => Raise e
  end.
Proof.
  unfold mbind, M_bind, bind.
  destruct (m s) as [[a|e] s1 e1]; simpl; [|done].
  by destruct (k a s1).
Qed.

Lemma effects_bind {A B} (m : M A) (k : A → M B) (s : Manager) :
  effects ((m ≫= k) s) =
  match outcome (m s) with
  | Ret a => effects (m s) ++ effects (k a (final (m s)))
  | Raise e => effects (m s)
  end.
Proof.
  unfold mbind, M_bind, bind.
  destruct (m s) as [[a|e] s1 e1]; simpl; [|done].
  by destruct (k a s1).
Qed.

Lemma get_bind {A} (k : Manager → M A) (s : Manager) : (get ≫= k) s = k s s.
Proof. unfold mbind, M_bind, bind, get. by destruct (k s s). Qed.

Lemma final_try_except {A} (body : M A) (handler : PyExn → M A) (s : Manager) :
  final (try_except body handler s) =
  match outcome (body s) with
  | Ret _ => final (body s)
  | Raise e => final (handler e (final (body s)))
  end.
Proof.
  unfold try_except.
  destruct (body s) as [[a|e] s1 e1]; simpl; [done|].
  by destruct (handler e s1).
Qed.

Lemma final_with_lock {A} (l : LockName) (body : M A) (s : Manager) :
  final (with_lock l body s) = final (body s).
Proof. unfold with_lock. by destruct (body s). Qed.

(** ** Relations that every step of a computation respects

    [stable R m]: running [m] from any manager [s] ends, normally or by an
    exception, in a manager related to [s] by the preorder [R].  The rules
    below follow the structure of a method, so that a property of the
    attribute assignments becomes a property of the method. *)

Section stable_rules.
Context (R : relation Manager) `{!PreOrder R}.

Lemma stable_ret {A} (a : A) : stable R (mret a : M A).
Proof. intros s. reflexivity. Qed.

Lemma stable_raise {A} (e : PyExn) : stable R (raise e : M A).
Proof. intros s. reflexivity. Qed.

Lemma stable_get : stable R get.
Proof. intros s. reflexivity. Qed.

Lemma stable_emit (e : Event) : stable R (emit e).
Proof. intros s. reflexivity. Qed.

Lemma stable_log (l : LogLevel) : stable R (log l).
Proof. intros s. reflexivity. Qed.

Lemma stable_lift {A} (o : Outcome A) : stable R (lift o).
Proof. intros s. reflexivity. Qed.

Lemma stable_modify (f : Manager → Manager) :
  (∀ s, R s (f s)) → stable R (modify f).
Proof. intros H s. apply H. Qed.

Lemma stable_bind {A B} (m : M A) (k : A → M B) :
  stable R m → (∀ a, stable R (k a)) → stable R (m ≫= k).
Proof.
  intros Hm Hk s. rewrite final_bind.
  destruct (outcome (m s)) as [a|e]; [|apply Hm].
  etrans; [apply Hm | apply Hk].
Qed.

Lemma stable_try_except {A} (body : M A) (handler : PyExn → M A) :
  stable R body → (∀ e, stable R (handler e)) → stable R (try_except body handler).
Proof.
  intros Hb Hh s. rewrite final_try_except.
  destruct (outcome (body s)) as [a|e]; [apply Hb|].
  etrans; [apply Hb | apply Hh].
Qed.

Lemma stable_with_lock {A} (l : LockName) (body : M A) :
  stable R body → stable R (with_lock l body).
Proof. intros Hb s. rewrite final_with_lock. apply Hb. Qed.

Lemma stable_await_response {A} (o : ApiOutcome A) : stable R (await_response o).
Proof. intros s. destruct o; reflexivity. Qed.

Lemma stable_or_raise {A} (e : PyExn) (o : option A) : stable R (or_raise e o).
Proof. intros s. destruct o; reflexivity. Qed.
End stable_rules.

(** One step of the structural decomposition of a method. *)
Ltac stable_step :=
  lazymatch goal with
  | |- stable _ (mbind _ _) => apply (stable_bind _); [| intros ?]
  | |- stable _ (mret _) => apply (stable_ret _)
  | |- stable _ (raise _) => apply (stable_raise _)
  | |- stable _ get => apply (stable_get _)
  | |- stable _ (emit _) => apply (stable_emit _)
  | |- stable _ (log _) => apply (stable_log _)
  | |- stable _ (lift _) => apply (stable_lift _)
  | |- stable _ (await_response _) => apply (stable_await_response _)
  | |- stable _ (or_raise _ _) => apply (stable_or_raise _)
  | |- stable _ (modify _) => apply (stable_modify _); intros ?
  | |- stable _ (try_except _ _) => apply (stable_try_except _); [| intros ?]
  | |- stable _ (with_lock _ _) => apply (stable_with_lock _)
  | |- stable _ (gathered _) => apply (stable_try_except _); [| intros ?]
  | |- stable _ (setattr_if_not_None _ _ ?v) => destruct v; simpl
  | |- stable _ (match ?x with _ => _ end) => destruct x
  end.

Ltac stable_tac := repeat stable_step; eauto.

(** *** The methods, one by one

    Each method respects every preorder that its own assignments respect:
    the hypotheses of a lemma list exactly the attributes the method
    writes. *)

Section stable_methods.
Context (R : relation Manager) `{!PreOrder R}.

Hypothesis R_process_map : ∀ v s, R s (set_process_map v s).
Hypothesis R_horde_model_map : ∀ v s, R s (set_horde_model_map v s).
Hypothesis R_jobs_in_progress_filter :
  ∀ (P : ImageGenerateJobPopResponse → Prop) `{!∀ j, Decision (P j)} s,
    R s (set_jobs_in_progress (filter P (jobs_in_progress s)) s).
Hypothesis R_jobs_pending_safety_check : ∀ v s, R s (set_jobs_pending_safety_check v s).
Hypothesis R_jobs_being_safety_checked : ∀ v s, R s (set_jobs_being_safety_checked v s).
Hypothesis R_completed_jobs : ∀ v s, R s (set_completed_jobs v s).
Hypothesis R_job_deque : ∀ v s, R s (set_job_deque v s).
Hypothesis R_total_num_completed_jobs : ∀ v s, R s (set_total_num_completed_jobs v s).
Hypothesis R_process_message_queue : ∀ v s, R s (set_process_message_queue v s).
Hypothesis R_testing_jobs_added_incr :
  ∀ s, R s (set_testing_jobs_added (_testing_jobs_added s + 1) s).
Hypothesis R_job_pop_frequency : ∀ v s, R s (set_job_pop_frequency v s).
Hypothesis R_last_job_pop_time : ∀ v s, R s (set_last_job_pop_time v s).
Hypothesis R_user_info_failed : ∀ v s, R s (set_user_info_failed v s).
Hypothesis R_user_info_failed_reason : ∀ v s, R s (set_user_info_failed_reason v s).
Hypothesis R_user_info : ∀ v s, R s (set_user_info v s).
Hypothesis R_last_get_user_info_time : ∀ v s, R s (set_last_get_user_info_time v s).

Lemma stable_model_map_update_entry name st pid :
  stable R (model_map_update_entry name st pid).
Proof using PreOrder0 R_horde_model_map.
  unfold model_map_update_entry. stable_tac.
Qed.

Lemma stable_process_setattr pid f : stable R (process_setattr pid f).
Proof using PreOrder0 R_process_map. unfold process_setattr. stable_tac. Qed.

Lemma stable_process_map_update_entry pid a b c d e :
  stable R (process_map_update_entry pid a b c d e).
Proof using PreOrder0 R_process_map.
  unfold process_map_update_entry.
  repeat stable_step; eauto using stable_process_setattr.
Qed.

(** With every keyword left at [None] the call writes nothing. *)
Lemma stable_process_map_update_entry_None pid :
  stable R (process_map_update_entry pid None None None None None).
Proof using PreOrder0. unfold process_map_update_entry. simpl. stable_tac. Qed.

Lemma stable_job_deque_popleft : stable R job_deque_popleft.
Proof using PreOrder0 R_job_deque. unfold job_deque_popleft. stable_tac. Qed.

Lemma stable_handle_inference_result job images st :
  stable R (handle_inference_result job images st).
Proof using PreOrder0 R_job_deque R_jobs_in_progress_filter
  R_total_num_completed_jobs R_jobs_pending_safety_check.
  unfold handle_inference_result.
  repeat stable_step; eauto using stable_job_deque_popleft.
Qed.

Lemma stable_handle_safety_result job_id evaluations :
  stable R (handle_safety_result job_id evaluations).
Proof using PreOrder0 R_jobs_being_safety_checked R_completed_jobs.
  unfold handle_safety_result. stable_tac.
Qed.

Lemma stable_handle_process_message message :
  stable R (handle_process_message message).
Proof using PreOrder0 R_job_deque R_jobs_in_progress_filter
  R_total_num_completed_jobs R_jobs_pending_safety_check
  R_jobs_being_safety_checked R_completed_jobs R_process_map R_horde_model_map.
  unfold handle_process_message.
  repeat stable_step;
    eauto using stable_process_map_update_entry, stable_model_map_update_entry,
      stable_handle_inference_result, stable_handle_safety_result.
Qed.

Lemma stable_drain_messages queue : stable R (drain_messages queue).
Proof using PreOrder0 R_job_deque R_jobs_in_progress_filter
  R_total_num_completed_jobs R_jobs_pending_safety_check
  R_jobs_being_safety_checked R_completed_jobs R_process_map R_horde_model_map
  R_process_message_queue.
  induction queue as [|message rest IH]; simpl;
    repeat stable_step; eauto using stable_handle_process_message.
Qed.

Lemma stable_receive_and_handle_process_messages :
  stable R receive_and_handle_process_messages.
Proof using PreOrder0 R_job_deque R_jobs_in_progress_filter
  R_total_num_completed_jobs R_jobs_pending_safety_check
  R_jobs_being_safety_checked R_completed_jobs R_process_map R_horde_model_map
  R_process_message_queue.
  unfold receive_and_handle_process_messages.
  repeat stable_step; eauto using stable_drain_messages.
Qed.

Lemma stable_preload_models_loop jobs n : stable R (preload_models_loop jobs n).
Proof using PreOrder0 R_process_map R_horde_model_map.
  revert n. induction jobs as [|job rest IH]; intros n; simpl;
    repeat stable_step;
    eauto using stable_process_map_update_entry, stable_model_map_update_entry.
Qed.

Lemma stable_preload_models : stable R preload_models.
Proof using PreOrder0 R_process_map R_horde_model_map.
  unfold preload_models. repeat stable_step; eauto using stable_preload_models_loop.
Qed.

Lemma stable_unload_vram_of_others ps chosen :
  stable R (unload_vram_of_others ps chosen).
Proof using PreOrder0.
  induction ps as [|p rest IH]; simpl; repeat stable_step; eauto.
Qed.

Lemma stable_unload_from_ram pid : stable R (unload_from_ram pid).
Proof using PreOrder0 R_horde_model_map.
  unfold unload_from_ram.
  repeat stable_step;
    eauto using stable_process_map_update_entry_None, stable_model_map_update_entry.
Qed.

Lemma stable_unload_models_loop ps : stable R (unload_models_loop ps).
Proof using PreOrder0 R_horde_model_map.
  induction ps as [|p rest IH]; simpl;
    repeat stable_step; eauto using stable_unload_from_ram.
Qed.

Lemma stable_unload_models : stable R unload_models.
Proof using PreOrder0 R_horde_model_map.
  unfold unload_models. repeat stable_step; eauto using stable_unload_models_loop.
Qed.

Lemma stable_start_evaluate_safety : stable R start_evaluate_safety.
Proof using PreOrder0 R_jobs_pending_safety_check R_jobs_being_safety_checked.
  unfold start_evaluate_safety. stable_tac.
Qed.

Lemma stable_api_submit_job w : stable R (api_submit_job w).
Proof using PreOrder0 R_completed_jobs. unfold api_submit_job. stable_tac. Qed.

Lemma stable_api_job_pop w : stable R (api_job_pop w).
Proof using PreOrder0 R_job_deque R_testing_jobs_added_incr R_job_pop_frequency
  R_last_job_pop_time.
  unfold api_job_pop, job_deque_append. stable_tac.
Qed.

Lemma stable_api_job_pop_until_await w : stable R (api_job_pop_until_await w).
Proof using PreOrder0 R_job_pop_frequency R_last_job_pop_time.
  unfold api_job_pop_until_await. stable_tac.
Qed.

Lemma stable_api_job_pop_after_await w : stable R (api_job_pop_after_await w).
Proof using PreOrder0 R_job_deque R_testing_jobs_added_incr R_job_pop_frequency.
  unfold api_job_pop_after_await, job_deque_append. stable_tac.
Qed.

Lemma stable_api_submit_job_until_await w :
  stable R (api_submit_job_until_await w).
Proof using PreOrder0. unfold api_submit_job_until_await. stable_tac. Qed.

Lemma stable_api_submit_job_after_await w c :
  stable R (api_submit_job_after_await w c).
Proof using PreOrder0 R_completed_jobs.
  unfold api_submit_job_after_await. stable_tac.
Qed.

Lemma stable_api_get_user_info w : stable R (api_get_user_info w).
Proof using PreOrder0 R_user_info_failed R_user_info_failed_reason R_user_info.
  unfold api_get_user_info. stable_tac.
Qed.

Lemma stable_gather_tasks w : stable R (gather_tasks w).
Proof using PreOrder0 R_job_deque R_testing_jobs_added_incr R_job_pop_frequency
  R_last_job_pop_time R_completed_jobs.
  unfold gather_tasks. cbv zeta.
  repeat stable_step;
    eauto using stable_api_job_pop_until_await, stable_api_job_pop_after_await,
      stable_api_submit_job_until_await, stable_api_submit_job_after_await.
Qed.

Lemma stable_api_call_loop_iteration w : stable R (api_call_loop_iteration w).
Proof using PreOrder0 R_job_deque R_testing_jobs_added_incr R_job_pop_frequency
  R_last_job_pop_time R_completed_jobs R_last_get_user_info_time.
  unfold api_call_loop_iteration.
  repeat stable_step; eauto using stable_gather_tasks.
Qed.

Lemma stable_spawn_processes n k : stable R (spawn_processes n k).
Proof using PreOrder0 R_process_map.
  induction n as [|n IH]; simpl; stable_tac.
Qed.

Lemma stable_start_safety_processes : stable R start_safety_processes.
Proof using PreOrder0 R_process_map.
  unfold start_safety_processes.
  repeat stable_step; eauto using stable_spawn_processes.
Qed.

Lemma stable_start_inference_processes : stable R start_inference_processes.
Proof using PreOrder0 R_process_map.
  unfold start_inference_processes.
  repeat stable_step; eauto using stable_spawn_processes.
Qed.

Lemma stable_end_processes n : stable R (end_processes n).
Proof using PreOrder0.
  induction n as [|n IH]; simpl;
    repeat stable_step; eauto using stable_process_map_update_entry_None.
Qed.

Lemma stable_end_inference_processes : stable R end_inference_processes.
Proof using PreOrder0.
  unfold end_inference_processes.
  repeat stable_step; eauto using stable_end_processes.
Qed.

Lemma stable_perform_other o :
  calls_start_inference o = false → stable R (perform o).
Proof using PreOrder0 R_process_map R_horde_model_map R_jobs_in_progress_filter
  R_jobs_pending_safety_check R_jobs_being_safety_checked R_completed_jobs
  R_job_deque R_total_num_completed_jobs R_process_message_queue
  R_testing_jobs_added_incr R_job_pop_frequency R_last_job_pop_time
  R_user_info_failed R_user_info_failed_reason R_user_info
  R_last_get_user_info_time.
  destruct o; simpl; try discriminate; intros _;
    eauto using stable_start_safety_processes, stable_start_inference_processes,
      stable_end_inference_processes, stable_receive_and_handle_process_messages,
      stable_preload_models, stable_unload_from_ram, stable_unload_models,
      stable_start_evaluate_safety, stable_api_submit_job, stable_api_job_pop,
      stable_api_get_user_info, stable_api_call_loop_iteration.
  stable_tac.
Qed.

(** [start_inference] is the one method that appends to
    [jobs_in_progress]; what it respects is supplied by the user of the
    lemmas on the loops that call it. *)
Hypothesis R_start_inference : stable R start_inference.

Lemma stable_process_control_loop_iteration :
  stable R process_control_loop_iteration.
Proof using All.
  unfold process_control_loop_iteration.
  repeat stable_step;
    eauto using stable_receive_and_handle_process_messages,
      stable_start_evaluate_safety, stable_preload_models, stable_unload_models.
Qed.

Lemma stable_process_control_loop_iterations arrivals :
  stable R (process_control_loop_iterations arrivals).
Proof using All.
  induction arrivals as [|arrived later IH]; simpl;
    repeat stable_step; eauto using stable_process_control_loop_iteration.
Qed.

Lemma stable_perform o : stable R (perform o).
Proof using All.
  destruct o; simpl;
    eauto using stable_start_safety_processes, stable_start_inference_processes,
      stable_end_inference_processes, stable_receive_and_handle_process_messages,
      stable_preload_models, stable_unload_from_ram, stable_unload_models,
      stable_start_evaluate_safety, stable_api_submit_job, stable_api_job_pop,
      stable_api_get_user_info, stable_api_call_loop_iteration.
  - stable_tac.
  - repeat stable_step; eauto using stable_process_control_loop_iteration.
  - unfold _process_control_loop.
    repeat stable_step;
      eauto using stable_start_safety_processes, stable_start_inference_processes,
        stable_process_control_loop_iterations.
Qed.

End stable_methods.

(** ** Symbolic execution of a method *)

Ltac run :=
  cbv beta iota delta
    [mbind M_bind mret M_ret bind ret get modify emit log raise lift
     try_except with_lock or_raise await_response gathered job_deque_append];
  cbn [outcome final effects app message_process_id negb fst snd
     bridge_data max_inference_processes max_concurrent_inference_processes
     max_safety_processes max_download_processes total_ram_bytes
     target_ram_overhead_bytes stable_diffusion_reference _process_map
     _horde_model_map jobs_in_progress jobs_pending_safety_check
     jobs_being_safety_checked completed_jobs job_deque total_num_completed_jobs
     _process_message_queue _testing_jobs_added _job_pop_frequency _last_job_pop_time
     _user_info_failed _user_info_failed_reason user_info _last_get_user_info_time
     set_process_map set_horde_model_map set_jobs_in_progress
     set_jobs_pending_safety_check set_jobs_being_safety_checked set_completed_jobs
     set_job_deque set_total_num_completed_jobs set_process_message_queue
     set_testing_jobs_added set_job_pop_frequency set_last_job_pop_time
     set_user_info_failed set_user_info_failed_reason set_user_info
     set_last_get_user_info_time].

(** ** The dispatcher never touches the channel itself *)

#[local] Instance same_message_queue_preorder : PreOrder same_message_queue.
Proof. split; [done | intros x y z Hxy Hyz; unfold same_message_queue in *; congruence]. Qed.

Lemma handle_process_message_keeps_queue message :
  stable same_message_queue (handle_process_message message).
Proof. apply stable_handle_process_message; try apply _; done. Qed.

(** ** InferenceResult messages *)


(** C4 (amended).  An InferenceResult that carries an image list, from a
    known process, handled while the deque is not empty: every job with the
    message's id leaves [jobs_in_progress], the leftmost deque entry is
    popped, [total_num_completed_jobs] grows by one and a record with
    [censored = None] is appended to [jobs_pending_safety_check]; nothing
    else changes. *)
Theorem inference_result_retires_the_deque_head
    (pid : Z) (job : ImageGenerateJobPopResponse) (images : list string)
    (st : GENERATION_STATE) (s : Manager)
    (head : ImageGenerateJobPopResponse) (rest : list ImageGenerateJobPopResponse) :
  pm_contains pid (_process_map s) = true →
  job_deque s = head :: rest →
  let r := handle_process_message
             (HordeInferenceResultMessage pid job (Some images) st) s in
  outcome r = Ret tt
  ∧ final r =
      set_jobs_pending_safety_check
        (jobs_pending_safety_check s ++
           [{| job_info := job; job_result_images_base64 := Some images;
               state := st; censored := None |}])
        (set_total_num_completed_jobs (total_num_completed_jobs s + 1)
           (set_job_deque rest
              (set_jobs_in_progress
                 (filter (λ j, id_ j ≠ id_ job) (jobs_in_progress s)) s)))
  ∧ inference_result_always_retires pid job (Some images) st s.
Proof.
  intros Hpid Hdeque r.
  assert (Hr : outcome r = Ret tt ∧ final r =
      set_jobs_pending_safety_check
        (jobs_pending_safety_check s ++
           [{| job_info := job; job_result_images_base64 := Some images;
               state := st; censored := None |}])
        (set_total_num_completed_jobs (total_num_completed_jobs s + 1)
           (set_job_deque rest
              (set_jobs_in_progress
                 (filter (λ j, id_ j ≠ id_ job) (jobs_in_progress s)) s)))).
  { subst r. unfold handle_process_message, handle_inference_result, job_deque_popleft.
    run. rewrite Hpid. run.
    case_bool_decide; run; rewrite Hdeque; run; done. }
  destruct Hr as [Ho Hf]. split; [done|]. split; [done|].
  unfold inference_result_always_retires. fold r. rewrite Hf. simpl.
  by rewrite Hdeque.
Qed.

Lemma inference_result_retires_the_deque_head_witness :
  pm_contains 1 (_process_map Examples.running) = true
  ∧ job_deque Examples.running
      = Examples.job "j1" "A" :: [Examples.job "j2" "B"]
  ∧ inference_result_always_retires 1 (Examples.job "j1" "A") (Some ["image"])
      gs_ok Examples.running.
Proof.
  split; [reflexivity|]. split; [reflexivity|].
  apply (inference_result_retires_the_deque_head 1 (Examples.job "j1" "A")
           ["image"] gs_ok Examples.running
           (Examples.job "j1" "A") [Examples.job "j2" "B"]); reflexivity.
Defined.

(** C4 fails as worded: an InferenceResult without an image list retires
    nothing. *)
Lemma inference_result_without_images_does_not_retire :
  ¬ inference_result_always_retires 1 (Examples.job "j1" "A") None gs_ok
      Examples.running.
Proof.
  unfold inference_result_always_retires. intros (_ & Hdeque & _).
  vm_compute in Hdeque. discriminate Hdeque.
Qed.



(** ** SafetyResult messages *)

Lemma count_where_nonneg {A} (p : A → bool) l : 0 ≤ count_where p l.
Proof. induction l as [|x l IH]; simpl; [done|]. destruct (p x); lia. Qed.

Lemma count_where_le {A} (p q : A → bool) l :
  (∀ x, p x = true → q x = true) → count_where p l ≤ count_where q l.
Proof.
  intros Hpq. induction l as [|x l IH]; simpl; [done|].
  destruct (p x) eqn:Hp; [rewrite (Hpq x Hp); lia|].
  destruct (q x); lia.
Qed.

Lemma pop_by_job_id_first job_id before c after :
  Forall (λ x, id_ (job_info x) ≠ Some job_id) before →
  id_ (job_info c) = Some job_id →
  pop_by_job_id job_id (before ++ c :: after) = (Some c, before ++ after).
Proof.
  intros Hbefore Hc. induction Hbefore as [|x before Hx _ IH]; simpl.
  - by rewrite bool_decide_true.
  - rewrite bool_decide_false by done. by rewrite IH.
Qed.

Lemma pop_by_job_id_none job_id l :
  Forall (λ x, id_ (job_info x) ≠ Some job_id) l →
  pop_by_job_id job_id l = (None, l).
Proof.
  induction 1 as [|x l Hx _ IH]; simpl; [done|].
  rewrite bool_decide_false by done. by rewrite IH.
Qed.

(** The loop, started at index [length done_images] with the images before
    it already treated. *)
Lemma apply_safety_evaluations_from images :
  ∀ done_images done_evaluations evaluations num_censored num_csam,
    length done_evaluations = length done_images →
    (length images ≤ length evaluations)%nat →
    apply_safety_evaluations (seq (length done_images) (length images))
      (done_evaluations ++ evaluations)
      (done_images ++ images, num_censored, num_csam)
    = Ret (done_images ++ substitute_replacements images evaluations,
           num_censored
           + count_where has_replacement (take (length images) evaluations),
           num_csam
           + count_where (λ e, has_replacement e && is_csam e)
               (take (length images) evaluations)).
Proof.
  induction images as [|image images IH];
    intros done_images done_evaluations evaluations nc ncsam Hlen Hle.
  { simpl. by rewrite !Z.add_0_r. }
  destruct evaluations as [|evaluation evaluations]; [simpl in Hle; lia|].
  simpl in Hle.
  cbn [length seq apply_safety_evaluations].
  rewrite lookup_app_r by lia.
  rewrite Hlen, Nat.sub_diag. cbn [lookup list_lookup].
  assert (Hnext : S (length done_images) = length (done_images ++ [image]))
    by (rewrite length_app; simpl; lia).
  change (substitute_replacements (image :: images) (evaluation :: evaluations))
    with (default image (replacement_image_base64 evaluation)
            :: substitute_replacements images evaluations).
  cbn [take count_where].
  replace (done_evaluations ++ evaluation :: evaluations)
    with ((done_evaluations ++ [evaluation]) ++ evaluations)
    by (by rewrite <- app_assoc).
  destruct (replacement_image_base64 evaluation) as [replacement|] eqn:Hrep.
  - assert (Hhas : has_replacement evaluation = true)
      by (unfold has_replacement; rewrite Hrep; by apply bool_decide_true).
    rewrite Hhas. cbn [andb default].
    assert (Hins : <[length done_images := replacement]> (done_images ++ image :: images)
                   = (done_images ++ [replacement]) ++ images).
    { rewrite insert_app_r_alt by lia. rewrite Nat.sub_diag. simpl.
      by rewrite <- app_assoc. }
    rewrite Hins.
    replace (S (length done_images)) with (length (done_images ++ [replacement]))
      by (rewrite length_app; simpl; lia).
    rewrite IH; [| rewrite !length_app; simpl; lia | lia].
    rewrite <- app_assoc. simpl.
    f_equal. f_equal; [f_equal; lia|]. destruct (is_csam evaluation); lia.
  - assert (Hhas : has_replacement evaluation = false).
    { unfold has_replacement. rewrite Hrep. apply bool_decide_false.
      by intros [? ?]. }
    rewrite Hhas. cbn [andb default].
    rewrite Hnext.
    replace (done_images ++ image :: images) with ((done_images ++ [image]) ++ images)
      by (by rewrite <- app_assoc).
    rewrite IH; [| rewrite !length_app; simpl; lia | lia].
    rewrite <- app_assoc. simpl. done.
Qed.

Lemma apply_safety_evaluations_all images evaluations :
  (length images ≤ length evaluations)%nat →
  apply_safety_evaluations (seq 0 (length images)) evaluations (images, 0, 0)
  = Ret (substitute_replacements images evaluations,
         count_where has_replacement (take (length images) evaluations),
         count_where (λ e, has_replacement e && is_csam e)
           (take (length images) evaluations)).
Proof.
  intros Hle.
  pose proof (apply_safety_evaluations_from images [] [] evaluations 0 0 eq_refl Hle)
    as H.
  simpl in H. by rewrite H.
Qed.

(** C1 (amended).  A SafetyResult from a known process, whose job id is
    that of a record [c] in [jobs_being_safety_checked] which holds an image
    list, with at least one evaluation per image: the first such record is
    taken out of [jobs_being_safety_checked]; every image whose evaluation
    supplies a replacement is replaced by it, the others are kept;
    [censored] is true exactly when at least one image was replaced; the
    state is CSAM when a replaced image is flagged CSAM, else CENSORED when
    an image was replaced, else what it was; and the record is appended to
    [completed_jobs]. *)
Theorem safety_result_completes_the_record
    (pid : Z) (job_id : string) (evaluations : list HordeSafetyEvaluation)
    (s : Manager) (before : list CompletedJobInfo) (c : CompletedJobInfo)
    (after : list CompletedJobInfo) (images : list string) :
  pm_contains pid (_process_map s) = true →
  jobs_being_safety_checked s = before ++ c :: after →
  Forall (λ x, id_ (job_info x) ≠ Some job_id) before →
  id_ (job_info c) = Some job_id →
  job_result_images_base64 c = Some images →
  (length images ≤ length evaluations)%nat →
  let r := handle_process_message
             (HordeSafetyResultMessage pid job_id evaluations) s in
  let used := take (length images) evaluations in
  let num_images_censored := count_where has_replacement used in
  let num_images_csam := count_where (λ e, has_replacement e && is_csam e) used in
  let checked :=
    {| job_info := job_info c;
       job_result_images_base64 := Some (substitute_replacements images evaluations);
       state := if bool_decide (0 < num_images_csam) then gs_csam
                else if bool_decide (0 < num_images_censored) then gs_censored
                else state c;
       censored := Some (bool_decide (0 < num_images_censored)) |} in
  outcome r = Ret tt
  ∧ final r = set_completed_jobs (completed_jobs s ++ [checked])
                (set_jobs_being_safety_checked (before ++ after) s)
  ∧ length (substitute_replacements images evaluations) = length images
  ∧ ∀ i image evaluation,
      images !! i = Some image → evaluations !! i = Some evaluation →
      substitute_replacements images evaluations !! i
        = Some (default image (replacement_image_base64 evaluation)).
Proof.
  intros Hpid Hbeing Hbefore Hid Himages Hle r used nc ncsam checked.
  assert (Hcsam_le : ncsam ≤ nc).
  { apply count_where_le. intros e He. by apply andb_true_iff in He as [? _]. }
  split; [|split; [|split]].
  - subst r. unfold handle_process_message, handle_safety_result. run.
    rewrite Hpid. run.
    rewrite Hbeing, (pop_by_job_id_first _ _ _ _ Hbefore Hid). run.
    rewrite Himages. run.
    rewrite (apply_safety_evaluations_all _ _ Hle). run.
    done.
  - subst r. unfold handle_process_message, handle_safety_result. run.
    rewrite Hpid. run.
    rewrite Hbeing, (pop_by_job_id_first _ _ _ _ Hbefore Hid). run.
    rewrite Himages. run.
    rewrite (apply_safety_evaluations_all _ _ Hle). run.
    subst checked. fold used. fold nc. fold ncsam.
    destruct (bool_decide (0 < nc)) eqn:Hnc; run.
    + done.
    + apply bool_decide_eq_false in Hnc.
      rewrite (bool_decide_false (0 < ncsam)) by lia. done.
  - unfold substitute_replacements. rewrite length_zip_with. lia.
  - intros i image evaluation Hi He. unfold substitute_replacements.
    rewrite lookup_zip_with, Hi. simpl. by rewrite He.
Qed.

Lemma safety_result_completes_the_record_witness :
  let evaluations := [{| is_nsfw := true; is_csam := true;
                         replacement_image_base64 := Some "blurred" |}] in
  pm_contains 0 (_process_map Examples.screening) = true
  ∧ jobs_being_safety_checked Examples.screening
      = [] ++ Examples.record "j1" (Some ["image"]) None :: []
  ∧ completed_jobs
      (final (handle_process_message
                (HordeSafetyResultMessage 0 "j1" evaluations) Examples.screening))
    = [{| job_info := Examples.job "j1" "A";
          job_result_images_base64 := Some ["blurred"];
          state := gs_csam; censored := Some true |}].
Proof.
  intros evaluations. split; [reflexivity|]. split; [reflexivity|].
  pose proof (safety_result_completes_the_record 0 "j1" evaluations
                Examples.screening [] (Examples.record "j1" (Some ["image"]) None)
                [] ["image"] eq_refl eq_refl (Forall_nil_2 _) eq_refl eq_refl
                (le_n 1)) as (_ & Hfinal & _).
  rewrite Hfinal. reflexivity.
Defined.

(** C1 fails as worded: an evaluation flagged CSAM that supplies no
    replacement image leaves the record's state as it was. *)
Lemma csam_without_replacement_keeps_the_state :
  ¬ safety_result_as_specified 0 "j1"
      [{| is_nsfw := false; is_csam := true; replacement_image_base64 := None |}]
      Examples.screening.
Proof.
  intros H.
  destruct (H (Examples.record "j1" (Some ["image"]) None))
    as (checked & Hcompleted & _ & _ & Hstate).
  - vm_compute. left.
  - reflexivity.
  - vm_compute in Hcompleted. injection Hcompleted as <-.
    vm_compute in Hstate. discriminate Hstate.
Qed.

(** ** The bound on the jobs in progress *)

Lemma unload_vram_of_others_run ps chosen s :
  outcome (unload_vram_of_others ps chosen s) = Ret tt
  ∧ final (unload_vram_of_others ps chosen s) = s.
Proof.
  induction ps as [|p ps [IHo IHf]]; [done|].
  cbn [unload_vram_of_others].
  rewrite outcome_bind, final_bind.
  assert (Hhead :
    ∀ m : M unit,
      m = (if bool_decide (process_id p = chosen) then mret tt
           else if is_process_busy p then mret tt
           else match loaded_horde_model_name p with
                | None => mret tt
                | Some name =>
                    emit (EvSend (process_id p)
                            (HordeControlModelMessage UNLOAD_MODELS_FROM_VRAM name));;
                    emit (EvSleep (1 # 10))
                end) →
      outcome (m s) = Ret tt ∧ final (m s) = s).
  { intros m ->. case_bool_decide; [done|].
    destruct (is_process_busy p); [done|].
    by destruct (loaded_horde_model_name p). }
  destruct (Hhead _ eq_refl) as [-> ->]. done.
Qed.

(** What [start_inference] does to the manager: nothing, or one job
    appended to [jobs_in_progress] while there was room for it. *)
Lemma start_inference_final s :
  final (start_inference s) = s
  ∨ (Z.of_nat (length (jobs_in_progress s)) < max_concurrent_inference_processes s
     ∧ ∃ next_job,
         next_job_to_start s = Some next_job
         ∧ final (start_inference s)
           = set_jobs_in_progress (jobs_in_progress s ++ [next_job]) s).
Proof.
  unfold start_inference. run.
  case_bool_decide as Hcap; [by left|].
  destruct (next_job_to_start s) as [next_job|] eqn:Hnext; [|by left].
  destruct (model next_job) as [name|]; [|by left].
  destruct (is_model_loaded name (_horde_model_map s)); [|by left].
  destruct (get_process_by_horde_model_name name (_process_map s)) as [p|]; [|by left].
  destruct (can_accept_job p); run; [|by left].
  right. split; [lia|]. exists next_job. split; [done|].
  destruct (unload_vram_of_others_run (pm_values (_process_map s)) (process_id p) s)
    as [Ho Hf].
  destruct (unload_vram_of_others (pm_values (_process_map s)) (process_id p) s)
    as [o s1 e1].
  simpl in Ho, Hf. subst o s1. by run.
Qed.

#[local] Instance in_progress_within_limit_preorder : PreOrder in_progress_within_limit.
Proof.
  split.
  - intros s. split; [done | lia].
  - intros x y z [Hxy1 Hxy2] [Hyz1 Hyz2]. split; [congruence|].
    rewrite Hxy1 in Hyz2. lia.
Qed.

#[local] Instance in_progress_not_grown_preorder : PreOrder in_progress_not_grown.
Proof.
  split.
  - intros s. split; [done | lia].
  - intros x y z [Hxy1 Hxy2] [Hyz1 Hyz2]. split; [congruence | lia].
Qed.

Ltac solve_in_progress :=
  first
    [ apply _
    | intros; split; cbn; first [done | lia | (pose proof (length_filter _ _); lia)]
    | intros P ? s; split; cbn; [done|];
      pose proof (length_filter P (jobs_in_progress s)); lia ].

Lemma other_operations_do_not_grow_jobs_in_progress o :
  calls_start_inference o = false → stable in_progress_not_grown (perform o).
Proof.
  intros Ho. apply stable_perform_other; try solve_in_progress. done.
Qed.

Lemma start_inference_within_limit : stable in_progress_within_limit start_inference.
Proof.
  intros s. destruct (start_inference_final s) as [->|(Hroom & job & _ & ->)].
  - reflexivity.
  - split; [done|]. cbn. rewrite length_app. simpl. lia.
Qed.

Lemma every_operation_keeps_within_limit o :
  stable in_progress_within_limit (perform o).
Proof.
  apply stable_perform; try solve_in_progress.
  apply start_inference_within_limit.
Qed.

(** C5.  In every state reachable from a freshly constructed manager,
    [jobs_in_progress] holds at most [max_concurrent_inference_processes]
    jobs, and every further operation keeps it so: [start_inference]
    leaves the list alone when it is already at the limit, and no operation
    that does not run [start_inference] makes the list longer. *)
Theorem jobs_in_progress_bounded
    (bd : reGenBridgeData) (system_ram : Z)
    (reference : gmap string StableDiffusion_ModelRecord)
    (overhead max_inference max_safety max_download max_concurrent : Z)
    (s0 s : Manager) (o : Operation) :
  new_manager bd system_ram reference overhead max_inference max_safety
    max_download max_concurrent = Some s0 →
  reachable s0 s →
  Z.of_nat (length (jobs_in_progress s)) ≤ max_concurrent_inference_processes s
  ∧ Z.of_nat (length (jobs_in_progress (final (perform o s))))
      ≤ max_concurrent_inference_processes (final (perform o s))
  ∧ (max_concurrent_inference_processes s ≤ Z.of_nat (length (jobs_in_progress s)) →
     final (start_inference s) = s)
  ∧ (calls_start_inference o = false →
     (length (jobs_in_progress (final (perform o s)))
      ≤ length (jobs_in_progress s))%nat).
Proof.
  intros Hnew Hreach.
  assert (Hstart : Z.of_nat (length (jobs_in_progress s0))
                   ≤ max_concurrent_inference_processes s0).
  { unfold new_manager in Hnew. repeat case_bool_decide; try discriminate.
    injection Hnew as <-. simpl. lia. }
  assert (Hstep : ∀ s1 o1,
            Z.of_nat (length (jobs_in_progress s1))
              ≤ max_concurrent_inference_processes s1 →
            Z.of_nat (length (jobs_in_progress (final (perform o1 s1))))
              ≤ max_concurrent_inference_processes (final (perform o1 s1))).
  { intros s1 o1 H1. destruct (every_operation_keeps_within_limit o1 s1) as [-> H2].
    lia. }
  assert (Hs : Z.of_nat (length (jobs_in_progress s))
               ≤ max_concurrent_inference_processes s).
  { induction Hreach as [|s1 o1 _ IH]; [done | by apply Hstep]. }
  split; [done|]. split; [by apply Hstep|]. split.
  - intros Hcap. destruct (start_inference_final s) as [?|(Hroom & _)]; [done | lia].
  - intros Ho. by destruct (other_operations_do_not_grow_jobs_in_progress o Ho s).
Qed.

Lemma jobs_in_progress_bounded_witness :
  let s := final (perform do_start_inference_processes Examples.fresh) in
  new_manager Examples.bd 17179869184 Examples.catalogue 2147483648 3 1 1 1
    = Some Examples.fresh
  ∧ reachable Examples.fresh s
  ∧ Z.of_nat (length (jobs_in_progress s)) ≤ max_concurrent_inference_processes s.
Proof.
  intros s. split; [reflexivity|]. split; [apply reachable_step, reachable_start|].
  exact (proj1 (jobs_in_progress_bounded Examples.bd 17179869184 Examples.catalogue
                  2147483648 3 1 1 1 Examples.fresh s do_start_inference eq_refl
                  (reachable_step _ _ _ (reachable_start _)))).
Defined.

(** ** Popping jobs *)

Lemma Qltb_true a b : Qltb a b = true ↔ (a < b)%Q.
Proof.
  unfold Qltb. destruct (Qlt_le_dec a b) as [H|H]; split; try done.
  intros H'. exfalso. apply (Qlt_not_le _ _ H' H).
Qed.

Lemma Qltb_false a b : Qltb a b = false ↔ (b <= a)%Q.
Proof.
  unfold Qltb. destruct (Qlt_le_dec a b) as [H|H]; split; try done.
  intros H'. exfalso. apply (Qlt_not_le _ _ H H').
Qed.

Lemma api_job_pop_not_due w s : ¬ pop_due w s → api_job_pop w s = no_op s.
Proof.
  intros Hnot. unfold api_job_pop. run.
  case_bool_decide as Hq; [done|].
  case_bool_decide as Hcap; [done|].
  destruct (Qltb _ _) eqn:Hfreq; [done|].
  exfalso. apply Hnot. apply Qltb_false in Hfreq. unfold pop_due. split_and!; [lia..|done].
Qed.

Lemma api_job_pop_due w s :
  pop_due w s →
  api_job_pop w s =
  (modify (set_last_job_pop_time (time_at_stamp w));;
   popped ← try_except
      (if request_built w then
         emit (EvSubmitRequest (ImageGenerateJobPopRequest (job_pop_request s)));;
         response ← await_response (job_pop_response w);
         match response with
         | None =>
             log ERROR;;
             modify (set_job_pop_frequency _error_job_pop_frequency);;
             mret None
         | Some r => mret (Some r)
         end
       else raise OtherException)
      (λ _,
         log ERROR;;
         modify (set_job_pop_frequency _error_job_pop_frequency);;
         mret None);
    match popped with
    | None => mret tt
    | Some job_pop_response =>
        modify (set_job_pop_frequency _default_job_pop_frequency);;
        match id_ job_pop_response with
        | None => mret tt
        | Some job_id =>
            with_lock job_deque_lock
              (job_deque_append job_pop_response;;
               modify (λ s, set_testing_jobs_added (_testing_jobs_added s + 1) s));;
            if file_written w then emit (EvFileWrite ("testing/" +:+ job_id))
            else raise OtherException
        end
    end) s.
Proof.
  intros (Hq & Hcap & Hfreq). unfold api_job_pop at 1.
  rewrite get_bind.
  rewrite bool_decide_false by lia.
  rewrite bool_decide_false by lia.
  apply Qltb_false in Hfreq. rewrite Hfreq. done.
Qed.

Lemma api_job_pop_failed w s :
  pop_due w s → pop_failed w →
  outcome (api_job_pop w s) = Ret tt
  ∧ final (api_job_pop w s)
    = set_job_pop_frequency _error_job_pop_frequency
        (set_last_job_pop_time (time_at_stamp w) s).
Proof.
  intros Hdue Hfailed. rewrite (api_job_pop_due w s Hdue). run.
  destruct Hfailed as [->|[Hr|[e Hr]]]; [done|..];
    destruct (request_built w); rewrite ?Hr; done.
Qed.

Lemma api_job_pop_answered w s j :
  pop_due w s → request_built w = true → job_pop_response w = ApiResponse j →
  match id_ j with
  | None =>
      api_job_pop w s
      = {| outcome := Ret tt;
           final := set_job_pop_frequency _default_job_pop_frequency
                      (set_last_job_pop_time (time_at_stamp w) s);
           effects := [EvSubmitRequest (ImageGenerateJobPopRequest (job_pop_request s))] |}
  | Some job_id =>
      api_job_pop w s
      = {| outcome := if file_written w then Ret tt else Raise OtherException;
           final := set_testing_jobs_added (_testing_jobs_added s + 1)
                      (set_job_deque (job_deque s ++ [j])
                         (set_job_pop_frequency _default_job_pop_frequency
                            (set_last_job_pop_time (time_at_stamp w) s)));
           effects :=
             [EvSubmitRequest (ImageGenerateJobPopRequest (job_pop_request s));
              EvAcquire job_deque_lock; EvDequeAppend j; EvRelease job_deque_lock]
             ++ (if file_written w then [EvFileWrite ("testing/" +:+ job_id)] else []) |}
  end.
Proof.
  intros Hdue Hbuilt Hr. rewrite (api_job_pop_due w s Hdue). run.
  rewrite Hbuilt, Hr. run.
  destruct (id_ j) as [job_id|]; run; [|done].
  by destruct (file_written w).
Qed.

Lemma api_job_pop_requests_only_when_due w s :
  Exists is_pop_request (effects (api_job_pop w s)) → pop_due w s.
Proof.
  intros Hex. destruct (decide (Z.of_nat (length (job_deque s))
                                < queue_size (bridge_data s) + 1)) as [Hq|Hq];
    [destruct (decide (_testing_jobs_added s < _testing_max_jobs)) as [Hc|Hc];
     [destruct (Qlt_le_dec (time_at_check w - _last_job_pop_time s)
                  (_job_pop_frequency s)) as [Hf|Hf]|]|].
  - rewrite api_job_pop_not_due in Hex; [by apply Exists_nil in Hex|].
    intros (_ & _ & H). apply (Qlt_not_le _ _ Hf H).
  - done.
  - rewrite api_job_pop_not_due in Hex; [by apply Exists_nil in Hex|].
    by intros (_ & ? & _).
  - rewrite api_job_pop_not_due in Hex; [by apply Exists_nil in Hex|].
    by intros (? & _).
Qed.

(** ** The lifetime cap on popped jobs *)

(** [_testing_jobs_added] counts the jobs that [api_job_pop] appended: a
    call leaves the deque and the counter alone, or appends one job and
    adds one to the counter. *)
Lemma api_job_pop_counts_appended_jobs w s :
  let s' := final (api_job_pop w s) in
  (job_deque s' = job_deque s ∧ _testing_jobs_added s' = _testing_jobs_added s)
  ∨ (∃ j, job_deque s' = job_deque s ++ [j]
          ∧ _testing_jobs_added s' = _testing_jobs_added s + 1).
Proof.
  intros s'. subst s'.
  destruct (decide (Z.of_nat (length (job_deque s))
                    < queue_size (bridge_data s) + 1)) as [Hq|Hq];
    [|left; rewrite api_job_pop_not_due; [done | by intros (? & _)]].
  destruct (decide (_testing_jobs_added s < _testing_max_jobs)) as [Hc|Hc];
    [|left; rewrite api_job_pop_not_due; [done | by intros (_ & ? & _)]].
  destruct (Qlt_le_dec (time_at_check w - _last_job_pop_time s)
              (_job_pop_frequency s)) as [Hf|Hf].
  { left. rewrite api_job_pop_not_due; [done|].
    intros (_ & _ & H). apply (Qlt_not_le _ _ Hf H). }
  assert (Hdue : pop_due w s) by done.
  destruct (request_built w) eqn:Hbuilt.
  - destruct (job_pop_response w) as [e| |j] eqn:Hr.
    + left. destruct (api_job_pop_failed w s Hdue) as [_ ->]; [|done].
      right; right; eauto.
    + left. destruct (api_job_pop_failed w s Hdue) as [_ ->]; [|done].
      right; left; eauto.
    + pose proof (api_job_pop_answered w s j Hdue Hbuilt Hr) as Hrun.
      destruct (id_ j); rewrite Hrun; [right; by exists j | by left].
  - left. destruct (api_job_pop_failed w s Hdue) as [_ ->]; [|done]. by left.
Qed.

#[local] Instance pop_counter_not_decreased_preorder :
  PreOrder pop_counter_not_decreased.
Proof.
  split; [intros s; unfold pop_counter_not_decreased; lia|].
  intros x y z; unfold pop_counter_not_decreased; lia.
Qed.

Lemma every_operation_keeps_the_pop_counter o :
  stable pop_counter_not_decreased (perform o).
Proof.
  apply stable_perform;
    try first [apply _ | intros; unfold pop_counter_not_decreased; cbn; lia].
  intros s. destruct (start_inference_final s) as [->|(_ & job & _ & ->)];
    unfold pop_counter_not_decreased; cbn; lia.
Qed.

(** C9.  Once [_testing_jobs_added] has reached 10000, it stays there
    whatever the orchestrator does, and every later call of [api_job_pop]
    returns at once: no request, no effect, the manager unchanged. *)
Theorem job_pop_lifetime_cap (w : PopWorld) (s s' : Manager) :
  _testing_max_jobs ≤ _testing_jobs_added s →
  reachable s s' →
  _testing_max_jobs ≤ _testing_jobs_added s'
  ∧ api_job_pop w s' = {| outcome := Ret tt; final := s'; effects := [] |}.
Proof.
  intros Hcap Hreach.
  assert (Hcap' : _testing_max_jobs ≤ _testing_jobs_added s').
  { induction Hreach as [|s1 o _ IH]; [done|].
    pose proof (every_operation_keeps_the_pop_counter o s1) as Hstep.
    unfold pop_counter_not_decreased in Hstep. lia. }
  split; [done|]. apply api_job_pop_not_due. intros (_ & ? & _). lia.
Qed.

Lemma job_pop_lifetime_cap_witness :
  let capped := set_testing_jobs_added 10000 Examples.fresh in
  let later := final (perform (do_api_job_pop
                 {| time_at_check := 10; time_at_stamp := 10; request_built := true;
                    job_pop_response := ApiResponse (Examples.job "j1" "A");
                    file_written := true |}) capped) in
  _testing_max_jobs ≤ _testing_jobs_added capped
  ∧ reachable capped later
  ∧ _testing_jobs_added later = 10000
  ∧ job_deque later = [].
Proof.
  intros capped later.
  assert (Hcap : _testing_max_jobs ≤ _testing_jobs_added capped) by reflexivity.
  assert (Hreach : reachable capped later) by apply reachable_step, reachable_start.
  split; [exact Hcap|]. split; [exact Hreach|].
  destruct (job_pop_lifetime_cap
              {| time_at_check := 20; time_at_stamp := 20; request_built := true;
                 job_pop_response := ApiResponse (Examples.job "j2" "B");
                 file_written := true |} capped later Hcap Hreach) as [_ Hnoop].
  split; reflexivity.
Defined.

(** ** Submitting completed jobs *)

Lemma cons_neq_tail {A} (x : A) (l : list A) : x :: l ≠ l.
Proof. intros H. apply (f_equal length) in H. simpl in H. lia. Qed.

(** C3 (amended).  With a non-empty [completed_jobs], [api_submit_job]
    removes the head record exactly when the upload was performed and
    answered with status 200 (no other status counts, 2xx or not), the
    submit request was then sent, and the API accepted it.  In every other
    case (another upload status, a [RequestErrorResponse], an exception, a
    record that cannot be submitted) the manager is left as it was, so the
    same record is the head again on the next tick. *)
Theorem submit_removes_the_head_on_status_200
    (w : SubmitWorld) (s : Manager)
    (c : CompletedJobInfo) (rest : list CompletedJobInfo) :
  completed_jobs s = c :: rest →
  let r := api_submit_job w s in
  (completed_jobs (final r) = rest
   ↔ upload_answered w r 200
     ∧ existsb is_job_submit_request (effects r) = true
     ∧ submit_accepted w)
  ∧ (completed_jobs (final r) ≠ rest → final r = s).
Proof.
  intros Hc r. subst r. unfold upload_answered, submit_accepted.
  unfold api_submit_job. rewrite get_bind. rewrite Hc.
  destruct (job_result_images_base64 c) as [images|]; run.
  2:{ rewrite Hc. split; [|done].
      split; [by intros ?%cons_neq_tail | by intros ([[=] _] & _)]. }
  case_bool_decide; run.
  1:{ rewrite Hc. split; [|done].
      split; [by intros ?%cons_neq_tail | by intros ([[=] _] & _)]. }
  destruct (id_ (job_info c)), (seed (payload (job_info c))),
    (r2_upload (job_info c)), (censored c); run;
    try (rewrite Hc; split; [|done];
         split; [by intros ?%cons_neq_tail | by intros ([[=] _] & _)]).
  destruct (images !! 0%nat); run;
    try (rewrite Hc; split; [|done];
         split; [by intros ?%cons_neq_tail | by intros ([[=] _] & _)]).
  destruct (webp_bytes w); run;
    try (rewrite Hc; split; [|done];
         split; [by intros ?%cons_neq_tail | by intros ([[=] _] & _)]).
  destruct (put_status_code w) as [status|]; run.
  2:{ rewrite Hc; split; [|done].
      split; [by intros ?%cons_neq_tail | by intros ([_ [=]] & _)]. }
  case_bool_decide as Hstatus; run.
  { rewrite Hc; split; [|done].
    split; [by intros ?%cons_neq_tail | intros ([_ [=]] & _); done]. }
  destruct (seed_as_int w); run.
  2:{ rewrite Hc; split; [|done].
      split; [by intros ?%cons_neq_tail | intros (_ & [=] & _)]. }
  destruct (job_submit_response w) as [e| |response]; run.
  1,2: rewrite Hc; split; [|done];
       (split; [by intros ?%cons_neq_tail | intros (_ & _ & [? [=]])]).
  rewrite Hc. cbn [list_remove_first]. rewrite bool_decide_true by done. run.
  split; [|done]. split; [|done]. intros _.
  assert (status = 200) as -> by (destruct (decide (status = 200)); done). eauto.
Qed.

Lemma submit_removes_the_head_on_status_200_witness :
  let accepted := {| webp_bytes := Some "RIFF-WEBP"; put_status_code := Some 200;
                     seed_as_int := Some 42;
                     job_submit_response := ApiResponse {| reward := 10 |} |} in
  completed_jobs Examples.submitting
    = Examples.record "j1" (Some ["image"]) (Some false) :: []
  ∧ completed_jobs (final (api_submit_job accepted Examples.submitting)) = [].
Proof.
  intros accepted. split; [reflexivity|].
  destruct (submit_removes_the_head_on_status_200 accepted Examples.submitting
              (Examples.record "j1" (Some ["image"]) (Some false)) [] eq_refl)
    as [[_ Hremoved] _].
  apply Hremoved. split; [split; reflexivity|]. split; [reflexivity|].
  exists {| reward := 10 |}. reflexivity.
Defined.

(** C3 fails as worded: the store answers the upload with 204, a 2xx
    status, and the API would accept the submission; the record stays in
    [completed_jobs] (and no submit request is sent at all). *)
Lemma upload_status_204_is_not_submitted :
  let answered_204 := {| webp_bytes := Some "RIFF-WEBP"; put_status_code := Some 204;
                         seed_as_int := Some 42;
                         job_submit_response := ApiResponse {| reward := 10 |} |} in
  ¬ submit_as_specified answered_204 Examples.submitting
  ∧ api_submit_job answered_204 Examples.submitting
    = {| outcome := Ret tt; final := Examples.submitting;
         effects := [EvHttpPut "https://r2.example/upload" "RIFF-WEBP"; EvLog ERROR] |}.
Proof.
  intros answered_204. split; [|reflexivity].
  intros H.
  destruct (H (Examples.record "j1" (Some ["image"]) (Some false)) [] eq_refl)
    as [_ Hremoved].
  assert (Hnil : completed_jobs (final (api_submit_job answered_204 Examples.submitting))
                 = []).
  { apply Hremoved. split.
    - exists 204. split; [split; reflexivity | lia].
    - exists {| reward := 10 |}. reflexivity. }
  vm_compute in Hnil. discriminate Hnil.
Qed.

(** ** Exceptions in the dispatcher *)

Lemma drain_messages_raises queue :
  ∀ s e,
    outcome (drain_messages queue s) = Raise e →
    ∃ handled m behind s_m,
      queue = handled ++ m :: behind
      ∧ _process_message_queue s_m = behind
      ∧ outcome (handle_process_message m s_m) = Raise e
      ∧ final (drain_messages queue s) = final (handle_process_message m s_m).
Proof.
  induction queue as [|m rest IH]; intros s e Hraise; [done|].
  cbn [drain_messages] in *.
  rewrite outcome_bind in Hraise. rewrite final_bind. cbn [modify outcome final] in *.
  rewrite outcome_bind in Hraise. rewrite final_bind.
  destruct (outcome (handle_process_message m (set_process_message_queue rest s)))
    as [[]|e'] eqn:Hm.
  - destruct (IH _ _ Hraise) as (handled & m' & behind & s_m & -> & Hq & Ho & Hf).
    exists (m :: handled), m', behind, s_m. by rewrite Hf.
  - injection Hraise as ->.
    exists [], m, rest, (set_process_message_queue rest s). by rewrite Hm.
Qed.

(** The drain reaches the message that follows the messages it handled. *)
Lemma drain_messages_reaches handled :
  ∀ rest s s_m,
    drained handled rest s = Some s_m →
    outcome (drain_messages (handled ++ rest) s) = outcome (drain_messages rest s_m)
    ∧ final (drain_messages (handled ++ rest) s) = final (drain_messages rest s_m).
Proof.
  induction handled as [|message handled IH]; intros rest s s_m Hdrained.
  { injection Hdrained as ->. done. }
  cbn [drained] in Hdrained. cbn [app drain_messages].
  rewrite outcome_bind, final_bind. cbn [modify outcome final].
  rewrite outcome_bind, final_bind.
  destruct (outcome (handle_process_message message
                       (set_process_message_queue (handled ++ rest) s)))
    as [[]|e]; [|done].
  by apply IH.
Qed.

(** C7.  An exception in a handler ends the drain, and the messages
    behind are not dispatched.  When the drain has handled the messages
    [handled] and the handling of the next message raises, whatever the
    exception, the drain ends with that exception:
    the manager is left as the failing handler left it, the messages
    behind the failing one are still in the channel, not dispatched, and
    the exception leaves the iteration and the process-control loop, whose
    later iterations never run. *)
Theorem exception_ends_the_drain (s s_m : Manager) (e : PyExn)
    (handled behind : list HordeProcessMessage) (m : HordeProcessMessage)
    (later : list (list HordeProcessMessage)) :
  _process_message_queue s = handled ++ m :: behind →
  drained handled (m :: behind) s = Some s_m →
  outcome (handle_process_message m (set_process_message_queue behind s_m)) = Raise e →
  let failed := handle_process_message m (set_process_message_queue behind s_m) in
  let r := receive_and_handle_process_messages s in
  let loop := process_control_loop_iterations ((handled ++ m :: behind) :: later)
                (set_process_message_queue [] s) in
  outcome r = Raise e
  ∧ final r = final failed
  ∧ _process_message_queue (final r) = behind
  ∧ (is_Some (stable_diffusion_reference s) →
     outcome (process_control_loop_iteration s) = Raise e
     ∧ final (process_control_loop_iteration s) = final failed
     ∧ outcome loop = Raise e
     ∧ final loop = final failed).
Proof.
  intros Hqueue Hdrained Hraise failed r loop.
  assert (Hr : outcome r = Raise e ∧ final r = final failed).
  { subst r. unfold receive_and_handle_process_messages. rewrite get_bind, Hqueue.
    destruct (drain_messages_reaches handled (m :: behind) s s_m Hdrained)
      as [-> ->].
    cbn [drain_messages]. rewrite outcome_bind, final_bind.
    cbn [modify outcome final]. rewrite outcome_bind, final_bind.
    subst failed. by rewrite Hraise. }
  destruct Hr as [Ho Hf].
  split; [done|]. split; [done|]. split.
  { rewrite Hf. subst failed.
    by rewrite (handle_process_message_keeps_queue m
                  (set_process_message_queue behind s_m)). }
  intros [reference Href].
  assert (Hiter : outcome (process_control_loop_iteration s) = Raise e
                  ∧ final (process_control_loop_iteration s) = final failed).
  { rewrite <- Hf. unfold process_control_loop_iteration.
    rewrite get_bind, Href. rewrite outcome_bind, final_bind.
    unfold with_lock. fold r.
    destruct r as [o s1 e1]. simpl in Ho. subst o. done. }
  split; [apply Hiter|]. split; [apply Hiter|].
  subst loop. cbn [process_control_loop_iterations].
  rewrite outcome_bind, final_bind. cbn [modify outcome final].
  assert (Hs : set_process_message_queue
                 (_process_message_queue (set_process_message_queue [] s)
                  ++ handled ++ m :: behind)
                 (set_process_message_queue [] s) = s).
  { cbn. rewrite <- Hqueue. by destruct s. }
  rewrite Hs. rewrite outcome_bind, final_bind.
  by destruct Hiter as [-> ->].
Qed.

Lemma exception_ends_the_drain_witness :
  let s_m := final (handle_process_message DrainExample.memory_report
                      (set_process_message_queue
                         [DrainExample.short_result; DrainExample.state_change]
                         DrainExample.waiting)) in
  let r := receive_and_handle_process_messages DrainExample.waiting in
  _process_message_queue DrainExample.waiting
  = [DrainExample.memory_report] ++ DrainExample.short_result
                                    :: [DrainExample.state_change]
  ∧ drained [DrainExample.memory_report]
      [DrainExample.short_result; DrainExample.state_change] DrainExample.waiting
    = Some s_m
  ∧ outcome (handle_process_message DrainExample.short_result
               (set_process_message_queue [DrainExample.state_change] s_m))
    = Raise IndexError
  ∧ outcome r = Raise IndexError
  ∧ _process_message_queue (final r) = [DrainExample.state_change]
  ∧ outcome (process_control_loop_iteration DrainExample.waiting) = Raise IndexError.
Proof.
  intros s_m r.
  assert (Hqueue : _process_message_queue DrainExample.waiting
                   = [DrainExample.memory_report] ++ DrainExample.short_result
                                                     :: [DrainExample.state_change])
    by reflexivity.
  assert (Hdrained : drained [DrainExample.memory_report]
                       [DrainExample.short_result; DrainExample.state_change]
                       DrainExample.waiting = Some s_m) by reflexivity.
  assert (Hraise : outcome (handle_process_message DrainExample.short_result
                              (set_process_message_queue [DrainExample.state_change]
                                 s_m)) = Raise IndexError) by reflexivity.
  destruct (exception_ends_the_drain DrainExample.waiting s_m IndexError
              [DrainExample.memory_report] [DrainExample.state_change]
              DrainExample.short_result [] Hqueue Hdrained Hraise)
    as (Ho & _ & Hbehind & Hloop).
  split; [exact Hqueue|]. split; [exact Hdrained|]. split; [exact Hraise|].
  split; [exact Ho|]. split; [exact Hbehind|].
  exact (proj1 (Hloop (ex_intro _ Examples.catalogue eq_refl))).
Defined.

(** C7 fails on the reports of [DrainExample]: no evaluation comes
    with the safety result for the one image of job "j1", so the handler
    raises [IndexError].  The state change behind it is neither taken off
    the channel nor applied, the record of "j1" is gone from
    [jobs_being_safety_checked] without having reached [completed_jobs],
    and the control loop ends with the exception although more reports
    arrive later. *)
Lemma exception_drops_the_sibling_messages :
  let r := receive_and_handle_process_messages DrainExample.waiting in
  ¬ drain_survives_exceptions DrainExample.waiting
  ∧ outcome r = Raise IndexError
  ∧ _process_message_queue (final r) = [DrainExample.state_change]
  ∧ (last_process_state <$> pm_get 1 (_process_map (final r)))
    = Some WAITING_FOR_JOB
  ∧ jobs_being_safety_checked (final r) = []
  ∧ completed_jobs (final r) = []
  ∧ outcome (process_control_loop_iterations
               [DrainExample.reports; [DrainExample.state_change]]
               Examples.screening)
    = Raise IndexError.
Proof.
  intros r. split; [|vm_compute; done].
  unfold drain_survives_exceptions. intros H. vm_compute in H. discriminate H.
Qed.

(** ** The two tasks of a tick *)

Lemma list_remove_first_head `{EqDecision A} (x : A) (l : list A) :
  list_remove_first x (x :: l) = Some l.
Proof. simpl. by rewrite bool_decide_true. Qed.


(** [api_job_pop] is its part before the [await] followed by its part
    after it. *)
Lemma api_job_pop_phases w s :
  api_job_pop w s
  = (awaits ← api_job_pop_until_await w;
     if (awaits : bool) then api_job_pop_after_await w else mret tt) s.
Proof.
  unfold api_job_pop, api_job_pop_until_await, api_job_pop_after_await. run.
  case_bool_decide; [done|]. case_bool_decide; [done|].
  destruct (Qltb _ _); [done|].
  destruct (request_built w); run; [|done].
  destruct (job_pop_response w) as [e| |j]; run; try done.
  destruct (id_ j); run; [|done].
  by destruct (file_written w).
Qed.

Lemma api_submit_job_phases w s :
  api_submit_job w s
  = (awaits ← api_submit_job_until_await w;
     match awaits with
     | Some completed_job_info => api_submit_job_after_await w completed_job_info
     | None => mret tt
     end) s.
Proof.
  unfold api_submit_job, api_submit_job_until_await, api_submit_job_after_await.
  run.
  destruct (completed_jobs s) as [|c rest] eqn:Hc; [done|].
  destruct (job_result_images_base64 c) as [images|]; [|done].
  case_bool_decide; [done|].
  destruct (id_ (job_info c)), (seed (payload (job_info c))),
    (r2_upload (job_info c)), (censored c); try done.
  run.
  destruct (images !! 0%nat); run; [|done].
  destruct (webp_bytes w); run; [|done].
  destruct (put_status_code w) as [status|]; run; [|done].
  case_bool_decide; run; [done|].
  destruct (seed_as_int w); run; [|done].
  destruct (job_submit_response w) as [e| |response]; run; try done.
  rewrite Hc, list_remove_first_head. run. done.
Qed.

Lemma api_job_pop_until_await_returns w s :
  ∃ awaits, outcome (api_job_pop_until_await w s) = Ret awaits.
Proof.
  unfold api_job_pop_until_await. run.
  case_bool_decide; [by eauto|]. case_bool_decide; [by eauto|].
  destruct (Qltb _ _); [by eauto|].
  destruct (request_built w); run; eauto.
Qed.

(** The two parts of [api_job_pop] neither read nor write
    [completed_jobs]. *)
Lemma api_job_pop_until_await_frame w v s :
  api_job_pop_until_await w (set_completed_jobs v s)
  = {| outcome := outcome (api_job_pop_until_await w s);
       final := set_completed_jobs v (final (api_job_pop_until_await w s));
       effects := effects (api_job_pop_until_await w s) |}.
Proof.
  unfold api_job_pop_until_await. run.
  case_bool_decide; [done|]. case_bool_decide; [done|].
  destruct (Qltb _ _); [done|].
  by destruct (request_built w).
Qed.

Lemma api_job_pop_after_await_frame w v s :
  api_job_pop_after_await w (set_completed_jobs v s)
  = {| outcome := outcome (api_job_pop_after_await w s);
       final := set_completed_jobs v (final (api_job_pop_after_await w s));
       effects := effects (api_job_pop_after_await w s) |}.
Proof.
  unfold api_job_pop_after_await. run.
  destruct (job_pop_response w) as [e| |j]; run; try done.
  destruct (id_ j); run; [|done].
  by destruct (file_written w).
Qed.

(** The first part of [api_submit_job] writes nothing, and reads
    [completed_jobs] and the API key only. *)
Lemma api_submit_job_until_await_frame w s s' :
  completed_jobs s' = completed_jobs s →
  bridge_data s' = bridge_data s →
  outcome (api_submit_job_until_await w s') = outcome (api_submit_job_until_await w s)
  ∧ effects (api_submit_job_until_await w s')
    = effects (api_submit_job_until_await w s)
  ∧ final (api_submit_job_until_await w s') = s'.
Proof.
  intros Hcompleted Hbd. unfold api_submit_job_until_await. rewrite !get_bind.
  rewrite Hcompleted, Hbd.
  destruct (completed_jobs s) as [|c rest] eqn:Hc; [done|].
  destruct (job_result_images_base64 c) as [images|]; [|done].
  case_bool_decide; [done|].
  destruct (id_ (job_info c)), (seed (payload (job_info c))),
    (r2_upload (job_info c)), (censored c); try done.
  run.
  destruct (images !! 0%nat); run; [|done].
  destruct (webp_bytes w); run; [|done].
  destruct (put_status_code w) as [status|]; run; [|done].
  case_bool_decide; run; [done|].
  by destruct (seed_as_int w).
Qed.

(** The second part of [api_submit_job] reads [completed_jobs] only, and
    writes nothing else. *)
Lemma api_submit_job_after_await_frame w c s s' :
  completed_jobs s' = completed_jobs s →
  outcome (api_submit_job_after_await w c s')
  = outcome (api_submit_job_after_await w c s)
  ∧ effects (api_submit_job_after_await w c s')
    = effects (api_submit_job_after_await w c s)
  ∧ ((final (api_submit_job_after_await w c s) = s
      ∧ final (api_submit_job_after_await w c s') = s')
     ∨ ∃ rest, final (api_submit_job_after_await w c s) = set_completed_jobs rest s
               ∧ final (api_submit_job_after_await w c s')
                 = set_completed_jobs rest s').
Proof.
  intros Hcompleted. unfold api_submit_job_after_await. run.
  destruct (job_submit_response w) as [e| |response]; run; try (by auto).
  rewrite Hcompleted.
  destruct (list_remove_first c (completed_jobs s)) as [rest|]; run; [|by auto].
  split; [done|]. split; [done|]. right. by exists rest.
Qed.

Lemma api_job_pop_effects_phases w s :
  effects (api_job_pop w s)
  = effects (api_job_pop_until_await w s) ++ pop_effects_after_await w s.
Proof.
  rewrite api_job_pop_phases, effects_bind. unfold pop_effects_after_await.
  destruct (outcome (api_job_pop_until_await w s)) as [[]|e];
    by rewrite ?app_nil_r.
Qed.

Lemma api_submit_job_effects_phases w s :
  effects (api_submit_job w s)
  = effects (api_submit_job_until_await w s) ++ submit_effects_after_await w s.
Proof.
  rewrite api_submit_job_phases, effects_bind. unfold submit_effects_after_await.
  destruct (outcome (api_submit_job_until_await w s)) as [[c|]|e];
    by rewrite ?app_nil_r.
Qed.

Lemma api_job_pop_until_await_keeps w s :
  completed_jobs (final (api_job_pop_until_await w s)) = completed_jobs s
  ∧ bridge_data (final (api_job_pop_until_await w s)) = bridge_data s.
Proof.
  unfold api_job_pop_until_await. run.
  case_bool_decide; [done|]. case_bool_decide; [done|].
  destruct (Qltb _ _); [done|].
  by destruct (request_built w).
Qed.

Lemma api_job_pop_after_await_keeps w s :
  completed_jobs (final (api_job_pop_after_await w s)) = completed_jobs s
  ∧ bridge_data (final (api_job_pop_after_await w s)) = bridge_data s.
Proof.
  unfold api_job_pop_after_await. run.
  destruct (job_pop_response w) as [e| |j]; run; try done.
  destruct (id_ j); run; [|done].
  by destruct (file_written w).
Qed.

(** What [asyncio.gather] makes of the two tasks: it returns, the manager
    is the one that the two methods leave when run one after the other,
    and the effects are those of the two methods up to their requests,
    followed by what each does with its answer, in the order of the
    answers. *)
Lemma gather_tasks_run w s :
  let g := gather_tasks w s in
  outcome g = Ret tt
  ∧ final g
    = final (api_submit_job (submit_world w) (final (api_job_pop (pop_world w) s)))
  ∧ effects g
    = effects (api_job_pop_until_await (pop_world w) s)
      ++ effects (api_submit_job_until_await (submit_world w) s)
      ++ (if pop_answered_first w
          then pop_effects_after_await (pop_world w) s
               ++ submit_effects_after_await (submit_world w) s
          else submit_effects_after_await (submit_world w) s
               ++ pop_effects_after_await (pop_world w) s).
Proof.
  intros g. subst g.
  unfold gather_tasks, pop_effects_after_await, submit_effects_after_await.
  set (pw := pop_world w). set (sw := submit_world w).
  (* the manager that [api_job_pop] leaves *)
  set (s2 := final (api_job_pop pw s)) in *.
  assert (Hs2 : s2 = match outcome (api_job_pop_until_await pw s) with
                     | Ret true =>
                         final (api_job_pop_after_await pw
                                  (final (api_job_pop_until_await pw s)))
                     | _ => final (api_job_pop_until_await pw s)
                     end).
  { subst s2. rewrite api_job_pop_phases, final_bind.
    by destruct (outcome _) as [[]|]. }
  assert (Hkeep : completed_jobs s2 = completed_jobs s
                  ∧ bridge_data s2 = bridge_data s).
  { destruct (api_job_pop_until_await_keeps pw s) as [Hc1 Hb1].
    destruct (api_job_pop_after_await_keeps pw
                (final (api_job_pop_until_await pw s))) as [Hc Hb].
    rewrite Hs2. destruct (outcome _) as [[]|]; split; congruence. }
  destruct Hkeep as [Hc2 Hb2].
  (* [api_submit_job] on that manager *)
  assert (Hsubmit :
    final (api_submit_job sw s2)
    = match outcome (api_submit_job_until_await sw s) with
      | Ret (Some c) => final (api_submit_job_after_await sw c s2)
      | _ => s2
      end).
  { rewrite api_submit_job_phases, final_bind.
    destruct (api_submit_job_until_await_frame sw s s2 Hc2 Hb2) as (-> & _ & ->).
    by destruct (outcome (api_submit_job_until_await sw s)) as [[]|]. }
  rewrite Hsubmit. clear Hsubmit.
  destruct (api_job_pop_until_await_returns pw s) as [a Ha].
  destruct (api_job_pop_until_await_keeps pw s) as [Hc1 Hb1].
  destruct (api_submit_job_until_await_frame sw s
              (final (api_job_pop_until_await pw s)) Hc1 Hb1) as (Ho & He & Hf).
  destruct (api_submit_job_until_await_frame sw s s eq_refl eq_refl)
    as (_ & _ & Hfs).
  rewrite Hfs, <- Ho, <- He. clear Hfs Ho He.
  run.
  remember (api_job_pop_until_await pw s) as P1 eqn:HP1.
  destruct P1 as [o1 s1 ep1]. cbn [outcome final effects] in *. subst o1.
  remember (api_submit_job_until_await sw s1) as S1 eqn:HS1.
  destruct S1 as [oc s1' es1]. cbn [outcome final effects] in *. subst s1'.
  clear HP1 HS1.
  assert (Hafter : ∀ c,
    effects (api_submit_job_after_await sw c s)
    = effects (api_submit_job_after_await sw c s1)
    ∧ effects (api_submit_job_after_await sw c s2)
      = effects (api_submit_job_after_await sw c s1)
    ∧ ((final (api_submit_job_after_await sw c s1) = s1
        ∧ final (api_submit_job_after_await sw c s2) = s2)
       ∨ ∃ rest, final (api_submit_job_after_await sw c s1)
                 = set_completed_jobs rest s1
                 ∧ final (api_submit_job_after_await sw c s2)
                   = set_completed_jobs rest s2)).
  { intros c.
    destruct (api_submit_job_after_await_frame sw c s1 s (eq_sym Hc1))
      as (_ & He1 & _).
    destruct (api_submit_job_after_await_frame sw c s1 s2 (eq_trans Hc2 (eq_sym Hc1)))
      as (_ & He2 & Hfin).
    done. }
  pose proof (api_job_pop_after_await_frame pw) as Hframe.
  clearbody s2.
  destruct oc as [[c|]|e], a, (pop_answered_first w); run; subst s2;
    rewrite ?app_nil_r; try done.
  all: try (destruct (Hafter c) as (-> & He2 & Hfin); clear Hafter).
  all: try (remember (api_job_pop_after_await pw s1) as P2 eqn:HP2;
            destruct P2 as [o2 s3 ep2]; cbn [outcome final effects] in * ).
  all: try (destruct o2 as [[]|?]).
  all: run.
  all: repeat match goal with
       | |- context [api_submit_job_after_await ?sw0 ?c0 ?x] =>
           remember (api_submit_job_after_await sw0 c0 x) as S2 eqn:HS2;
           destruct S2 as [[[]|?] ? ?]; cbn [outcome final effects] in *;
           clear HS2
       end.
  all: try (destruct Hfin as [[-> ->]|(rest & -> & ->)]).
  all: rewrite ?Hframe, <- ?HP2; run; rewrite ?app_nil_r, ?He2; try done.
  Qed.

(** ** Effects a method never has *)

Section never_emits_rules.
Context (p : Event → bool).

Lemma never_emits_ret {A} (a : A) : never_emits p (mret a : M A).
Proof. done. Qed.

Lemma never_emits_raise {A} (e : PyExn) : never_emits p (raise e : M A).
Proof. done. Qed.

Lemma never_emits_get : never_emits p get.
Proof. done. Qed.

Lemma never_emits_modify f : never_emits p (modify f).
Proof. done. Qed.

Lemma never_emits_lift {A} (o : Outcome A) : never_emits p (lift o).
Proof. done. Qed.

Lemma never_emits_await_response {A} (o : ApiOutcome A) :
  never_emits p (await_response o).
Proof. intros s. by destruct o. Qed.

Lemma never_emits_or_raise {A} (e : PyExn) (o : option A) :
  never_emits p (or_raise e o).
Proof. intros s. by destruct o. Qed.

Lemma never_emits_emit (e : Event) : p e = false → never_emits p (emit e).
Proof. intros He s. simpl. by rewrite He. Qed.

Lemma never_emits_log (l : LogLevel) : p (EvLog l) = false → never_emits p (log l).
Proof. apply never_emits_emit. Qed.

Lemma never_emits_bind {A B} (m : M A) (k : A → M B) :
  never_emits p m → (∀ a, never_emits p (k a)) → never_emits p (m ≫= k).
Proof.
  intros Hm Hk s. rewrite effects_bind.
  destruct (outcome (m s)) as [a|e]; [|apply Hm].
  rewrite existsb_app, Hm, Hk. done.
Qed.

Lemma never_emits_try_except {A} (body : M A) (handler : PyExn → M A) :
  never_emits p body → (∀ e, never_emits p (handler e)) →
  never_emits p (try_except body handler).
Proof.
  intros Hb Hh s. unfold try_except.
  pose proof (Hb s) as Hbs.
  destruct (body s) as [[a|e] s1 e1]; simpl in *; [done|].
  pose proof (Hh e s1) as Hhs.
  destruct (handler e s1) as [o s2 e2]. simpl in *.
  by rewrite existsb_app, Hbs, Hhs.
Qed.

Lemma never_emits_with_lock {A} (l : LockName) (body : M A) :
  p (EvAcquire l) = false → p (EvRelease l) = false →
  never_emits p body → never_emits p (with_lock l body).
Proof.
  intros Ha Hr Hb s. unfold with_lock. pose proof (Hb s) as Hbs.
  destruct (body s) as [o s1 e1]. simpl in *.
  rewrite Ha, existsb_app, Hbs. simpl. by rewrite Hr.
Qed.
End never_emits_rules.

Ltac never_emits_step :=
  lazymatch goal with
  | |- never_emits _ (mbind _ _) => apply never_emits_bind; [| intros ?]
  | |- never_emits _ (mret _) => apply never_emits_ret
  | |- never_emits _ (raise _) => apply never_emits_raise
  | |- never_emits _ get => apply never_emits_get
  | |- never_emits _ (modify _) => apply never_emits_modify
  | |- never_emits _ (lift _) => apply never_emits_lift
  | |- never_emits _ (await_response _) => apply never_emits_await_response
  | |- never_emits _ (or_raise _ _) => apply never_emits_or_raise
  | |- never_emits _ (emit _) => apply never_emits_emit; reflexivity
  | |- never_emits _ (log _) => apply never_emits_log; reflexivity
  | |- never_emits _ (try_except _ _) => apply never_emits_try_except; [| intros ?]
  | |- never_emits _ (gathered _) => apply never_emits_try_except; [| intros ?]
  | |- never_emits _ (with_lock _ _) =>
      apply never_emits_with_lock; [reflexivity | reflexivity |]
  | |- never_emits _ (job_deque_append _) => unfold job_deque_append
  | |- never_emits _ (match ?x with _ => _ end) => destruct x
  end.

(** ** The user-info refresh *)

Lemma gather_tasks_never_finds_user w :
  never_emits is_find_user_request (gather_tasks w).
Proof.
  unfold gather_tasks, api_job_pop_until_await, api_job_pop_after_await,
    api_submit_job_until_await, api_submit_job_after_await.
  cbv zeta. repeat never_emits_step.
Qed.

Lemma api_call_loop_iteration_never_finds_user w :
  never_emits is_find_user_request (api_call_loop_iteration w).
Proof.
  unfold api_call_loop_iteration.
  repeat never_emits_step; auto using gather_tasks_never_finds_user.
Qed.

#[local] Instance same_user_info_state_preorder : PreOrder same_user_info_state.
Proof.
  split; [done|].
  intros x y z (? & ? & ? & ?) (? & ? & ? & ?). unfold same_user_info_state.
  split_and!; congruence.
Qed.

Lemma gathered_returns (task : M unit) s : outcome (gathered task s) = Ret tt.
Proof.
  unfold gathered, try_except. by destruct (task s) as [[[]|e] s1 e1].
Qed.

Lemma tasks_keep_user_info_state w :
  stable same_user_info_state (gather_tasks w).
Proof. apply stable_gather_tasks; first [apply _ | done]. Qed.

(** What one iteration of the API loop does with the user-info state. *)
Lemma api_call_loop_iteration_run w s :
  let stamped :=
    if Qltb (_last_get_user_info_time s + _api_get_user_info_interval)
            (time_at_user_info_check w)
    then set_last_get_user_info_time (time_at_user_info_stamp w) s else s in
  outcome (api_call_loop_iteration w s) = Ret tt
  ∧ same_user_info_state stamped (final (api_call_loop_iteration w s))
  ∧ (_user_info_failed s = true →
     ∃ rest, effects (api_call_loop_iteration w s) = EvSleep 5 :: rest).
Proof.
  intros stamped.
  pose proof (tasks_keep_user_info_state w) as Htasks.
  unfold api_call_loop_iteration. run.
  destruct (_user_info_failed s) eqn:Hfailed; run;
    subst stamped; destruct (Qltb _ _); run.
  all: match goal with
       | |- context [gather_tasks ?w0 ?s1] =>
           specialize (Htasks s1);
           pose proof (proj1 (gather_tasks_run w0 s1)) as Hret;
           destruct (gather_tasks w0 s1) as [o s2 ?]
       end; cbn [outcome final] in Htasks, Hret; subst o; run.
  all: destruct (_user_info_failed s2) eqn:Hf2; run.
  all: split; [done|]; split; [done|].
  all: intros ?; try done; eauto.
Qed.

(** C8 (amended).  An iteration of the API loop issues no user-info
    request at all: when more than 5 seconds have passed since
    [_last_get_user_info_time] it only records the current time there, and
    it never changes [_user_info_failed], its reason or [user_info].  It
    sleeps 5 seconds first whenever [_user_info_failed] is set.
    [api_get_user_info] itself, when called, builds the request first: if
    that fails the method raises, having sent and changed nothing.
    Otherwise it sends the request and returns.  An answer clears the flag
    and the reason and stores the record; a [RequestErrorResponse] is
    logged and sets the flag; an exception sets the flag and the reason,
    which is [HTTP error] for a [ClientError] and [Unexpected error] for
    any other exception, followed by the name of the exception's type and
    its message. *)
Theorem user_info_is_not_refreshed_by_the_loop
    (w : ApiTickWorld) (u : UserInfoWorld) (s : Manager) :
  let tick := api_call_loop_iteration w s in
  let fetch := api_get_user_info u s in
  let request := EvSubmitRequest (FindUserRequest (api_key (bridge_data s))) in
  existsb is_find_user_request (effects tick) = false
  ∧ _last_get_user_info_time (final tick)
    = (if Qltb (_last_get_user_info_time s + 5) (time_at_user_info_check w)
       then time_at_user_info_stamp w else _last_get_user_info_time s)
  ∧ _user_info_failed (final tick) = _user_info_failed s
  ∧ _user_info_failed_reason (final tick) = _user_info_failed_reason s
  ∧ user_info (final tick) = user_info s
  ∧ (_user_info_failed s = true → ∃ rest, effects tick = EvSleep 5 :: rest)
  ∧ if find_user_request_built u then
      outcome fetch = Ret tt
      ∧ match find_user_response u with
        | ApiResponse record =>
            effects fetch = [request]
            ∧ _user_info_failed (final fetch) = false
            ∧ _user_info_failed_reason (final fetch) = None
            ∧ user_info (final fetch) = Some record
        | ApiRequestError =>
            effects fetch = [request; EvLog ERROR]
            ∧ _user_info_failed (final fetch) = true
            ∧ user_info (final fetch) = user_info s
        | ApiRaised e =>
            effects fetch = [request]
            ∧ _user_info_failed (final fetch) = true
            ∧ _user_info_failed_reason (final fetch)
              = Some (match e with
                      | ClientError => "HTTP error (("
                      | _ => "Unexpected error (("
                      end
                      +:+ exception_type_name u +:+ ") "
                      +:+ exception_message u +:+ ")")
            ∧ user_info (final fetch) = user_info s
        end
    else
      outcome fetch = Raise OtherException ∧ final fetch = s ∧ effects fetch = [].
Proof.
  intros tick fetch request.
  destruct (api_call_loop_iteration_run w s) as (_ & (Htime & Hfailed & Hreason & Hinfo)
                                                   & Hsleep).
  split; [apply api_call_loop_iteration_never_finds_user|].
  split. { subst tick. rewrite Htime. unfold _api_get_user_info_interval.
           by destruct (Qltb _ _). }
  split. { subst tick. rewrite Hfailed. by destruct (Qltb _ _). }
  split. { subst tick. rewrite Hreason. by destruct (Qltb _ _). }
  split. { subst tick. rewrite Hinfo. by destruct (Qltb _ _). }
  split; [done|].
  subst fetch request. unfold api_get_user_info. run.
  destruct (find_user_request_built u); run; [|done].
  destruct (find_user_response u) as [e| |record]; [destruct e|..]; run; done.
Qed.

(** C8 fails as worded: 100 seconds after the last fetch, a tick sends
    the pop request and nothing else; no user-info request is issued. *)
Lemma tick_after_the_interval_fetches_nothing :
  let w := {| time_at_user_info_check := 100; time_at_user_info_stamp := 100;
              pop_world := {| time_at_check := 100; time_at_stamp := 100;
                              request_built := true;
                              job_pop_response := ApiRequestError;
                              file_written := true |};
              submit_world := {| webp_bytes := None; put_status_code := None;
                                 seed_as_int := None;
                                 job_submit_response := ApiRequestError |};
              pop_answered_first := true |} in
  ¬ user_info_refresh_as_specified w Examples.fresh
  ∧ effects (api_call_loop_iteration w Examples.fresh)
    = [EvSubmitRequest (ImageGenerateJobPopRequest (job_pop_request Examples.fresh));
       EvLog ERROR; EvSleep (1 # 10)].
Proof.
  intros w. split; [|reflexivity].
  unfold user_info_refresh_as_specified. intros H.
  assert (Helapsed : (_last_get_user_info_time Examples.fresh + 5
                      <= time_at_user_info_check w)%Q)
    by (unfold Qle; simpl; lia).
  specialize (H Helapsed). vm_compute in H. discriminate H.
Qed.

Lemma user_info_is_not_refreshed_by_the_loop_witness :
  let w := {| time_at_user_info_check := 100; time_at_user_info_stamp := 100;
              pop_world := {| time_at_check := 100; time_at_stamp := 100;
                              request_built := true;
                              job_pop_response := ApiRequestError;
                              file_written := true |};
              submit_world := {| webp_bytes := None; put_status_code := None;
                                 seed_as_int := None;
                                 job_submit_response := ApiRequestError |};
              pop_answered_first := true |} in
  let u := {| find_user_request_built := true;
              find_user_response := ApiRaised ClientError;
              exception_type_name := "ClientConnectorError";
              exception_message := "Cannot connect to host" |} in
  let failed := final (api_get_user_info u Examples.fresh) in
  _user_info_failed failed = true
  ∧ _user_info_failed_reason failed
    = Some "HTTP error ((ClientConnectorError) Cannot connect to host)"
  ∧ ∃ rest, effects (api_call_loop_iteration w failed) = EvSleep 5 :: rest.
Proof.
  intros w u failed. split; [reflexivity|]. split; [reflexivity|].
  destruct (user_info_is_not_refreshed_by_the_loop w u failed)
    as (_ & _ & _ & _ & _ & Hsleep & _).
  exact (Hsleep eq_refl).
Defined.

(** ** Who writes the resident model and the load states *)

#[local] Instance same_residency_preorder : PreOrder same_residency.
Proof.
  split; [done|]. intros x y z [? ?] [? ?]. split; congruence.
Qed.

#[local] Instance same_residents_preorder : PreOrder same_residents.
Proof.
  split; [done|]. intros x y z Hxy Hyz pid. by rewrite Hyz, Hxy.
Qed.

Lemma pm_get_set pid pid' v m :
  pm_get pid' (pm_set pid v m) = if bool_decide (pid' = pid) then Some v else pm_get pid' m.
Proof.
  induction m as [|[k w] m IH]; simpl.
  - case_bool_decide as H1; case_bool_decide as H2; congruence.
  - destruct (bool_decide (k = pid)) eqn:Hk; simpl.
    + apply bool_decide_eq_true in Hk as ->.
      case_bool_decide as H1; case_bool_decide as H2; congruence.
    + apply bool_decide_eq_false in Hk. rewrite IH.
      destruct (bool_decide (k = pid')) eqn:Hk'; [|done].
      apply bool_decide_eq_true in Hk' as <-. by rewrite bool_decide_false.
Qed.

Lemma process_setattr_keeps_residents pid f :
  (∀ p, loaded_horde_model_name (f p) = loaded_horde_model_name p) →
  stable same_residents (process_setattr pid f).
Proof.
  intros Hf s pid'. unfold process_setattr. rewrite get_bind.
  destruct (pm_get pid (_process_map s)) as [p|] eqn:Hp; [|done].
  unfold resident_model. cbn. rewrite pm_get_set.
  case_bool_decide as Heq; [|done]. subst pid'. rewrite Hp. simpl. apply Hf.
Qed.

Lemma update_entry_keeps_residents pid a c d e :
  stable same_residents (process_map_update_entry pid a None c d e).
Proof.
  unfold process_map_update_entry, setattr_if_not_None. cbv beta iota.
  repeat stable_step; by apply process_setattr_keeps_residents.
Qed.

(** Setting the resident model of one process. *)
Lemma update_entry_sets_resident pid name s :
  let r := process_map_update_entry pid None (Some name) None None None s in
  (outcome r = Ret tt → resident_model (final r) pid = Some name)
  ∧ (∀ pid', pid' ≠ pid → resident_model (final r) pid' = resident_model s pid')
  ∧ _horde_model_map (final r) = _horde_model_map s
  ∧ effects r = [].
Proof.
  unfold process_map_update_entry, setattr_if_not_None, process_setattr. run.
  destruct (pm_get pid (_process_map s)) as [p|] eqn:Hp; run; [|done].
  unfold resident_model. cbn. split; [|split; [|done]].
  - intros _. rewrite pm_get_set. by rewrite bool_decide_true.
  - intros pid' Hne. rewrite pm_get_set. by rewrite bool_decide_false.
Qed.

(** Upserting a model with both a load state and an owner. *)
Lemma model_map_update_entry_run name st pid s :
  let r := model_map_update_entry name (Some st) (Some pid) s in
  outcome r = Ret tt
  ∧ effects r = []
  ∧ _process_map (final r) = _process_map s
  ∧ load_state_of (final r) name = Some st
  ∧ owner_of (final r) name = Some pid
  ∧ ∀ other, other ≠ name →
      _horde_model_map (final r) !! other = _horde_model_map s !! other.
Proof.
  unfold model_map_update_entry, load_state_of, owner_of. run.
  case_bool_decide as Hnew; run.
  - split; [done|]. split; [done|]. split; [done|].
    rewrite !lookup_alter_eq, lookup_insert_eq.
    split; [done|]. split; [done|].
    intros other Hne. by rewrite !lookup_alter_ne, lookup_insert_ne by done.
  - split; [done|]. split; [done|]. split; [done|].
    destruct (_horde_model_map s !! name) as [mi|] eqn:Hmi; [|done].
    rewrite !lookup_alter_eq, Hmi.
    split; [done|]. split; [done|].
    intros other Hne. by rewrite !lookup_alter_ne by done.
Qed.

Lemma quiet_operations_keep_residency o :
  leaves_residency_alone o = true → stable same_residency (perform o).
Proof.
  destruct o; try discriminate; intros _; simpl.
  - repeat stable_step. by split.
  - apply stable_end_inference_processes; apply _.
  - intros s. by destruct (start_inference_final s) as [->|(_ & job & _ & ->)].
  - apply stable_start_evaluate_safety; first [apply _ | by split].
  - apply stable_api_submit_job; first [apply _ | by split].
  - apply stable_api_job_pop; first [apply _ | by split].
  - apply stable_api_get_user_info; first [apply _ | by split].
  - apply stable_api_call_loop_iteration; first [apply _ | by split].
Qed.

Lemma preload_models_loop_run jobs :
  ∀ n s, preload_outcome jobs s (preload_models_loop jobs n s).
Proof.
  induction jobs as [|job rest IH]; intros n s; [by left|].
  cbn [preload_models_loop].
  destruct (model job) as [name|] eqn:Hmodel; [|by left].
  rewrite get_bind.
  destruct (is_model_loaded name (_horde_model_map s)
            || is_model_loading name (_horde_model_map s)).
  { destruct (IH (n + 1) s) as [?|(job' & name' & p & Hin & ?)]; [by left|].
    right. exists job', name', p. split; [apply elem_of_cons; by right | done]. }
  case_bool_decide; [by left|].
  destruct (get_first_available_inference_process (_process_map s)) as [p|] eqn:Hp;
    [|by left].
  right. exists job, name, p. split; [apply elem_of_cons; by left|].
  split; [done|]. split; [done|].
  destruct (model_map_update_entry_run name LOADING (process_id p) s)
    as (Ho1 & He1 & Hpm1 & Hst1 & Hown1 & Hother1).
  set (s1 := final (model_map_update_entry name (Some LOADING) (Some (process_id p)) s))
    in *.
  destruct (update_entry_sets_resident (process_id p) name s1)
    as (Hres2 & Hothers2 & Hmap2 & He2).
  rewrite effects_bind, final_bind, outcome_bind. cbn [emit outcome final effects].
  rewrite effects_bind, final_bind, outcome_bind. rewrite Ho1. fold s1.
  rewrite He1, He2.
  unfold load_state_of, owner_of in *. rewrite Hmap2.
  split; [done|]. split; [done|]. split; [done|]. split; [done|]. split; [done|].
  intros pid Hne. rewrite (Hothers2 pid Hne). unfold resident_model. by rewrite Hpm1.
Qed.

(** What [unload_from_ram] writes when it does not raise: the ON_DISK
    state of the resident model of the process. *)
Lemma unload_from_ram_run pid s :
  let r := unload_from_ram pid s in
  (final r = s ∧ effects r = [])
  ∨ ∃ name,
      resident_model s pid = Some name
      ∧ is_model_loaded name (_horde_model_map s) = true
      ∧ outcome r = Ret tt
      ∧ effects r = [EvSend pid (HordeControlModelMessage UNLOAD_MODELS_FROM_RAM name)]
      ∧ load_state_of (final r) name = Some ON_DISK
      ∧ ∀ other, other ≠ name →
          _horde_model_map (final r) !! other = _horde_model_map s !! other.
Proof.
  unfold unload_from_ram. rewrite get_bind.
  destruct (pm_get pid (_process_map s)) as [p|] eqn:Hp; [|by left].
  destruct (loaded_horde_model_name p) as [name|] eqn:Hname; [|by left].
  destruct (is_model_loaded name (_horde_model_map s)) eqn:Hloaded; [|by left].
  right. exists name. cbn [negb].
  split; [unfold resident_model; rewrite Hp; done|]. split; [done|].
  destruct (model_map_update_entry_run name ON_DISK pid s)
    as (Ho1 & He1 & Hpm1 & Hst1 & Hown1 & Hother1).
  set (s1 := final (model_map_update_entry name (Some ON_DISK) (Some pid) s)) in *.
  assert (Hnone : process_map_update_entry pid None None None None None s1
                  = {| outcome := Ret tt; final := s1; effects := [] |}) by done.
  rewrite effects_bind, final_bind, outcome_bind. cbn [emit outcome final effects].
  rewrite effects_bind, final_bind, outcome_bind. rewrite Ho1. fold s1.
  rewrite He1, Hnone. done.
Qed.

#[local] Instance only_evicted_preorder : PreOrder only_evicted.
Proof.
  split; [by left|].
  intros x y z Hxy Hyz name.
  destruct (Hyz name) as [->|?]; [apply Hxy | by right].
Qed.

Lemma unload_from_ram_only_evicts pid : stable only_evicted (unload_from_ram pid).
Proof.
  intros s name.
  destruct (unload_from_ram_run pid s)
    as [[-> _]|(name' & _ & _ & _ & _ & Hdisk & Hother)]; [by left|].
  destruct (decide (name = name')) as [->|Hne]; [by right|].
  left. unfold load_state_of. by rewrite Hother.
Qed.

Lemma unload_models_only_evicts : stable only_evicted unload_models.
Proof.
  unfold unload_models. apply (stable_bind _); [apply (stable_get _)|].
  intros s0. induction (pm_values (_process_map s0)) as [|p ps IH];
    cbn [unload_models_loop]; repeat stable_step;
    auto using unload_from_ram_only_evicts.
Qed.

(** In the dispatcher, the resident model of a process changes only with
    a ModelStateChange message of that process that reports the model
    loaded; it becomes the model of the message. *)
Lemma dispatcher_sets_resident_on_loaded message pid s :
  let r := handle_process_message message s in
  resident_model (final r) pid ≠ resident_model s pid →
  ∃ name st,
    message = HordeModelStateChangeMessage pid name st
    ∧ (st = LOADED_IN_RAM ∨ st = LOADED_IN_VRAM)
    ∧ resident_model (final r) pid = Some name.
Proof.
  intros r Hchanged. subst r.
  assert (Hkeep : ∀ (m : M unit), stable same_residents m →
            handle_process_message message s
            = (if negb (pm_contains (message_process_id message) (_process_map s))
               then raise ValueError else m) s → False).
  { intros m Hm Heq. apply Hchanged. rewrite Heq.
    destruct (negb _); [done | apply Hm]. }
  unfold handle_process_message in *. rewrite get_bind in *.
  destruct message as [p process_state info|p name st|p ram vram total
                      |p job images st|p job_id evaluations].
  - exfalso. eapply Hkeep; [|done]. apply update_entry_keeps_residents.
  - destruct (negb _); [done|].
    destruct (model_map_update_entry_run name st p s)
      as (Ho1 & He1 & Hpm1 & _).
    set (s1 := final (model_map_update_entry name (Some st) (Some p) s)) in *.
    assert (Hs1 : ∀ pid', resident_model s1 pid' = resident_model s pid')
      by (intros pid'; unfold resident_model; by rewrite Hpm1).
    rewrite final_bind, Ho1 in Hchanged |- *. fold s1 in Hchanged |- *.
    destruct st.
    + exfalso. apply Hchanged. by rewrite <- Hs1.
    + exfalso. apply Hchanged. by rewrite <- Hs1.
    + destruct (update_entry_sets_resident p name s1) as (Hres & Hothers & _).
      destruct (decide (pid = p)) as [->|Hne].
      * exists name, LOADED_IN_RAM. split; [done|]. split; [by left|].
        apply Hres.
        destruct (outcome (process_map_update_entry p None (Some name) None None None s1))
          as [[]|e] eqn:Ho; [done|].
        exfalso. apply Hchanged. rewrite <- Hs1.
        revert Ho. unfold process_map_update_entry, setattr_if_not_None, process_setattr.
        run. by destruct (pm_get p (_process_map s1)).
      * exfalso. apply Hchanged. rewrite <- Hs1. by apply Hothers.
    + destruct (update_entry_sets_resident p name s1) as (Hres & Hothers & _).
      destruct (decide (pid = p)) as [->|Hne].
      * exists name, LOADED_IN_VRAM. split; [done|]. split; [by right|].
        apply Hres.
        destruct (outcome (process_map_update_entry p None (Some name) None None None s1))
          as [[]|e] eqn:Ho; [done|].
        exfalso. apply Hchanged. rewrite <- Hs1.
        revert Ho. unfold process_map_update_entry, setattr_if_not_None, process_setattr.
        run. by destruct (pm_get p (_process_map s1)).
      * exfalso. apply Hchanged. rewrite <- Hs1. by apply Hothers.
  - exfalso. eapply Hkeep; [|done]. apply update_entry_keeps_residents.
  - exfalso. eapply Hkeep; [|done].
    apply stable_handle_inference_result; first [apply _ | done].
  - exfalso. eapply Hkeep; [|done].
    apply stable_handle_safety_result; first [apply _ | done].
Qed.

(** C2 (amended).  The dispatcher is not the only writer.
    [preload_models], when it dispatches a preload, records the model as
    LOADING, owned by the chosen process, and as the resident model of that
    process; [unload_from_ram] (and so [unload_models]) records the model it
    unloads as ON_DISK.  The other operations of the orchestrator that are
    neither the dispatcher nor a process start ([start_inference],
    [start_evaluate_safety], [end_inference_processes], [api_job_pop],
    [api_submit_job], [api_get_user_info], an API loop iteration, the
    arrival of a report) leave the process map and the model map as they
    are.  Inside the dispatcher, the resident model of a process is set to
    a model it did not hold only while a ModelStateChange message of that
    process that reports this model as LOADED_IN_RAM or LOADED_IN_VRAM is
    handled. *)
Theorem residency_writers
    (o : Operation) (message : HordeProcessMessage) (pid : Z) (s : Manager) :
  (leaves_residency_alone o = true →
     _process_map (final (perform o s)) = _process_map s
     ∧ _horde_model_map (final (perform o s)) = _horde_model_map s)
  ∧ preload_outcome (job_deque s) s (preload_models s)
  ∧ unload_outcome pid s (unload_from_ram pid s)
  ∧ only_evicted s (final (unload_models s))
  ∧ (∀ name,
       resident_model (final (handle_process_message message s)) pid = Some name →
       resident_model s pid ≠ Some name →
       ∃ st,
         message = HordeModelStateChangeMessage pid name st
         ∧ (st = LOADED_IN_RAM ∨ st = LOADED_IN_VRAM)).
Proof.
  split; [intros Ho; apply (quiet_operations_keep_residency o Ho s)|].
  split. { unfold preload_models. rewrite get_bind. apply preload_models_loop_run. }
  split; [apply unload_from_ram_run|].
  split; [apply unload_models_only_evicts|].
  intros name Hset Hnew.
  destruct (dispatcher_sets_resident_on_loaded message pid s)
    as (name' & st & -> & Hst & Hname); [congruence|].
  cbv zeta in Hname. exists st. split; [|done]. congruence.
Qed.

Lemma residency_writers_witness :
  let loaded_report := HordeModelStateChangeMessage 1 "A" LOADED_IN_VRAM in
  let after := final (handle_process_message loaded_report ResidencyExample.queued) in
  (leaves_residency_alone do_start_inference = true
   ∧ _process_map (final (perform do_start_inference ResidencyExample.loaded))
     = _process_map ResidencyExample.loaded)
  ∧ (resident_model after 1 = Some "A"
     ∧ resident_model ResidencyExample.queued 1 ≠ Some "A"
     ∧ ∃ st, loaded_report = HordeModelStateChangeMessage 1 "A" st
             ∧ (st = LOADED_IN_RAM ∨ st = LOADED_IN_VRAM)).
Proof.
  intros loaded_report after.
  destruct (residency_writers do_start_inference loaded_report 1
              ResidencyExample.loaded) as (Hquiet & _).
  destruct (residency_writers do_start_inference loaded_report 1
              ResidencyExample.queued) as (_ & _ & _ & _ & Hdispatch).
  assert (Hset : resident_model after 1 = Some "A") by reflexivity.
  assert (Hnew : resident_model ResidencyExample.queued 1 ≠ Some "A")
    by (vm_compute; discriminate).
  split; [split; [reflexivity | exact (proj1 (Hquiet eq_refl))]|].
  split; [exact Hset|]. split; [exact Hnew|].
  exact (Hdispatch "A" Hset Hnew).
Defined.

(** C2 fails as worded: [preload_models] makes "A" the resident model of
    process 1 and records it as LOADING, and [unload_from_ram] records a
    loaded model as ON_DISK. *)
Lemma preload_and_unload_write_residency :
  ¬ only_the_dispatcher_writes_residency do_preload_models ResidencyExample.queued
  ∧ ¬ only_the_dispatcher_writes_residency (do_unload_from_ram 1)
        ResidencyExample.loaded
  ∧ resident_model (final (preload_models ResidencyExample.queued)) 1 = Some "A"
  ∧ load_state_of (final (preload_models ResidencyExample.queued)) "A" = Some LOADING
  ∧ load_state_of (final (unload_from_ram 1 ResidencyExample.loaded)) "A"
    = Some ON_DISK.
Proof.
  split; [|split; [|split; [|split]]]; try reflexivity.
  - intros [Hresident _]. specialize (Hresident 1).
    vm_compute in Hresident. discriminate Hresident.
  - intros [_ Hstate]. specialize (Hstate "A").
    vm_compute in Hstate. discriminate Hstate.
Qed.

(** * Further properties of the orchestrator *)

(** ** Frames and invariants *)

#[local] Instance same_on_preorder {B} (π : Manager → B) : PreOrder (same_on π).
Proof.
  split; [by intros s|]. intros x y z Hxy Hyz. unfold same_on in *. congruence.
Qed.

#[local] Instance keeps_preorder (I : Manager → Prop) : PreOrder (keeps I).
Proof.
  split; [intros s H; exact H | intros x y z Hxy Hyz Hx; exact (Hyz (Hxy Hx))].
Qed.

Lemma stable_weaken (R1 R2 : relation Manager) {A} (m : M A) :
  (∀ s s', R1 s s' → R2 s s') → stable R1 m → stable R2 m.
Proof. intros Hsub Hm s. apply Hsub, Hm. Qed.

(** An invariant of the start that every operation keeps holds in every
    reachable state. *)
Lemma reachable_keeps (I : Manager → Prop) s0 s :
  (∀ o, stable (keeps I) (perform o)) → I s0 → reachable s0 s → I s.
Proof.
  intros Hstep H0 Hreach. induction Hreach as [|s1 o _ IH]; [done|].
  by apply (Hstep o s1).
Qed.

(** A preorder that every operation respects relates a state to all the
    states reachable from it. *)
Lemma reachable_stable (R : relation Manager) `{!PreOrder R} s0 s :
  (∀ o, stable R (perform o)) → reachable s0 s → R s0 s.
Proof.
  intros Hstep Hreach. induction Hreach as [|s1 o _ IH]; [done|].
  etrans; [exact IH | apply Hstep].
Qed.

(** *** From the methods that write to the operations

    A preorder respected by the methods that assign attributes is
    respected by every method built from them, and so by every
    operation. *)

Section stable_from_methods.
Context (R : relation Manager) `{!PreOrder R}.

Hypothesis R_process_message_queue : ∀ v s, R s (set_process_message_queue v s).
Hypothesis R_last_get_user_info_time : ∀ v s, R s (set_last_get_user_info_time v s).
Hypothesis R_process_map_update_entry :
  ∀ pid a b c d e, stable R (process_map_update_entry pid a b c d e).
Hypothesis R_model_map_update_entry :
  ∀ name st pid, stable R (model_map_update_entry name st pid).
Hypothesis R_handle_inference_result :
  ∀ job images st, stable R (handle_inference_result job images st).
Hypothesis R_handle_safety_result :
  ∀ job_id evaluations, stable R (handle_safety_result job_id evaluations).
Hypothesis R_start_safety_processes : stable R start_safety_processes.
Hypothesis R_start_inference_processes : stable R start_inference_processes.
Hypothesis R_start_inference : stable R start_inference.
Hypothesis R_start_evaluate_safety : stable R start_evaluate_safety.
Hypothesis R_api_submit_job : ∀ w, stable R (api_submit_job w).
Hypothesis R_api_job_pop : ∀ w, stable R (api_job_pop w).
Hypothesis R_api_get_user_info : ∀ w, stable R (api_get_user_info w).

Lemma methods_handle_process_message message :
  stable R (handle_process_message message).
Proof using PreOrder0 R_process_map_update_entry R_model_map_update_entry
  R_handle_inference_result R_handle_safety_result.
  unfold handle_process_message. repeat stable_step; eauto.
Qed.

Lemma methods_drain_messages queue : stable R (drain_messages queue).
Proof using PreOrder0 R_process_map_update_entry R_model_map_update_entry
  R_handle_inference_result R_handle_safety_result R_process_message_queue.
  induction queue as [|message rest IH]; simpl;
    repeat stable_step; eauto using methods_handle_process_message.
Qed.

Lemma methods_receive_and_handle_process_messages :
  stable R receive_and_handle_process_messages.
Proof using PreOrder0 R_process_map_update_entry R_model_map_update_entry
  R_handle_inference_result R_handle_safety_result R_process_message_queue.
  unfold receive_and_handle_process_messages.
  repeat stable_step; eauto using methods_drain_messages.
Qed.

Lemma methods_preload_models : stable R preload_models.
Proof using PreOrder0 R_process_map_update_entry R_model_map_update_entry.
  unfold preload_models. apply (stable_bind _); [apply (stable_get _)|].
  intros s0. generalize 0. induction (job_deque s0) as [|job rest IH]; intros n;
    cbn [preload_models_loop]; repeat stable_step; eauto.
Qed.

Lemma methods_unload_from_ram pid : stable R (unload_from_ram pid).
Proof using PreOrder0 R_process_map_update_entry R_model_map_update_entry.
  unfold unload_from_ram. repeat stable_step; eauto.
Qed.

Lemma methods_unload_models : stable R unload_models.
Proof using PreOrder0 R_process_map_update_entry R_model_map_update_entry.
  unfold unload_models. apply (stable_bind _); [apply (stable_get _)|].
  intros s0. induction (pm_values (_process_map s0)) as [|p ps IH];
    cbn [unload_models_loop]; repeat stable_step;
    eauto using methods_unload_from_ram.
Qed.

Lemma methods_gather_tasks w : stable R (gather_tasks w).
Proof using PreOrder0 R_api_submit_job R_api_job_pop.
  intros s. destruct (gather_tasks_run w s) as (_ & -> & _).
  etrans; [apply R_api_job_pop | apply R_api_submit_job].
Qed.

Lemma methods_api_call_loop_iteration w : stable R (api_call_loop_iteration w).
Proof using PreOrder0 R_api_submit_job R_api_job_pop R_last_get_user_info_time.
  unfold api_call_loop_iteration.
  repeat stable_step; eauto using methods_gather_tasks.
Qed.

Lemma methods_process_control_loop_iteration :
  stable R process_control_loop_iteration.
Proof using PreOrder0 R_process_map_update_entry R_model_map_update_entry
  R_handle_inference_result R_handle_safety_result R_process_message_queue
  R_start_inference R_start_evaluate_safety.
  unfold process_control_loop_iteration.
  repeat stable_step;
    eauto using methods_receive_and_handle_process_messages,
      methods_preload_models, methods_unload_models.
Qed.

Lemma methods_process_control_loop_iterations arrivals :
  stable R (process_control_loop_iterations arrivals).
Proof using PreOrder0 R_process_map_update_entry R_model_map_update_entry
  R_handle_inference_result R_handle_safety_result R_process_message_queue
  R_start_inference R_start_evaluate_safety.
  induction arrivals as [|arrived later IH]; simpl;
    repeat stable_step; eauto using methods_process_control_loop_iteration.
Qed.

Lemma methods_perform o : stable R (perform o).
Proof using All.
  destruct o; simpl;
    eauto using methods_receive_and_handle_process_messages,
      methods_preload_models, methods_unload_from_ram, methods_unload_models,
      methods_api_call_loop_iteration.
  - stable_tac.
  - apply stable_end_inference_processes; apply _.
  - repeat stable_step; eauto using methods_process_control_loop_iteration.
  - unfold _process_control_loop.
    repeat stable_step; eauto using methods_process_control_loop_iterations.
Qed.

(** The operations that do not run [api_job_pop] need nothing of it. *)
Lemma methods_perform_without_pop o :
  attempts_a_pop o = false → stable R (perform o).
Proof using PreOrder0 R_process_message_queue R_process_map_update_entry
  R_model_map_update_entry R_handle_inference_result R_handle_safety_result
  R_start_safety_processes R_start_inference_processes R_start_inference
  R_start_evaluate_safety R_api_submit_job R_api_get_user_info.
  destruct o; simpl; try discriminate; intros _;
    eauto using methods_receive_and_handle_process_messages,
      methods_preload_models, methods_unload_from_ram, methods_unload_models.
  - stable_tac.
  - apply stable_end_inference_processes; apply _.
  - repeat stable_step; eauto using methods_process_control_loop_iteration.
  - unfold _process_control_loop.
    repeat stable_step; eauto using methods_process_control_loop_iterations.
Qed.

End stable_from_methods.

(** Attributes that [π] does not read may be assigned freely. *)
Ltac frame_write := intros; unfold same_on; reflexivity.

Lemma start_inference_frame {B} (π : Manager → B) :
  (∀ v s, π (set_jobs_in_progress v s) = π s) →
  stable (same_on π) start_inference.
Proof.
  intros Hπ s. unfold same_on.
  by destruct (start_inference_final s) as [->|(_ & job & _ & ->)].
Qed.

(** The methods that do not assign what [π] reads. *)
Ltac framed_method :=
  first
    [ apply stable_process_map_update_entry
    | apply stable_model_map_update_entry
    | apply stable_handle_inference_result
    | apply stable_handle_safety_result
    | apply stable_start_safety_processes
    | apply stable_start_inference_processes
    | apply stable_start_evaluate_safety
    | apply stable_api_submit_job
    | apply stable_api_job_pop
    | apply stable_api_get_user_info ];
  first [apply _ | frame_write].

Ltac framed π Hsub :=
  first
    [ intros; apply (stable_weaken (same_on π) _ _ Hsub);
      first [ framed_method | apply start_inference_frame; frame_write ]
    | intros; apply Hsub; frame_write ].

(** ** The pacing of job pops *)

(** [_last_job_pop_time] is assigned by [api_job_pop] alone. *)
Lemma other_operations_keep_the_pop_stamp o :
  attempts_a_pop o = false → stable (same_on _last_job_pop_time) (perform o).
Proof.
  intros Ho.
  assert (Hsub : ∀ s s', same_on _last_job_pop_time s s'
                         → same_on _last_job_pop_time s s') by done.
  apply methods_perform_without_pop; try done; try apply _;
    try framed _last_job_pop_time Hsub.
Qed.

(** An append that is not preceded by the acquisition of the deque lock,
    or that follows its release, is not guarded. *)
Lemma deque_guarded_needs_the_lock job :
  deque_guarded false [EvDequeAppend job] = false
  ∧ deque_guarded false [EvAcquire job_deque_lock; EvRelease job_deque_lock;
                         EvDequeAppend job] = false
  ∧ deque_guarded false [EvAcquire completed_jobs_lock; EvDequeAppend job;
                         EvRelease completed_jobs_lock] = false
  ∧ deque_guarded false [EvAcquire job_deque_lock; EvDequeAppend job;
                         EvRelease job_deque_lock] = true.
Proof. done. Qed.

Lemma api_job_pop_guards_the_deque w s :
  deque_guarded false (effects (api_job_pop w s)) = true.
Proof.
  unfold api_job_pop. run.
  case_bool_decide; [done|]. case_bool_decide; [done|].
  destruct (Qltb _ _); [done|].
  destruct (request_built w); run; [|done].
  destruct (job_pop_response w) as [e| |j]; run; try done.
  destruct (id_ j); run; [|done].
  by destruct (file_written w).
Qed.

(** C6.  [api_job_pop] issues a pop request only when the deque holds
    fewer than [queue_size + 1] jobs and at least the current pop interval
    has passed since [_last_job_pop_time].  That attribute is the time of
    the last attempt: every call that passes the guards records its time
    there, whether the attempt fails or is answered, a call that does not
    pass them changes nothing, no operation that does not run
    [api_job_pop] assigns it, and a later call sooner than the interval
    after the attempt does nothing.  After a failed attempt the interval
    is 5 seconds, so that a later call less than 5 seconds after it does
    nothing.  After an answer that is not a failure the interval is 1
    second again, and when the answer carries a job id the job is appended
    to the deque between the acquisition and the release of the deque
    lock.  In every run the deque is written only while the deque lock is
    held. *)
Theorem job_pop_is_rate_limited (w w' : PopWorld) (s : Manager) :
  let r := api_job_pop w s in
  (Exists is_pop_request (effects r) →
     Z.of_nat (length (job_deque s)) < queue_size (bridge_data s) + 1
     ∧ (_job_pop_frequency s <= time_at_check w - _last_job_pop_time s)%Q)
  ∧ (pop_due w s →
       _last_job_pop_time (final r) = time_at_stamp w
       ∧ ((time_at_check w' - time_at_stamp w < _job_pop_frequency (final r))%Q →
          api_job_pop w' (final r) = no_op (final r)))
  ∧ (¬ pop_due w s → r = no_op s)
  ∧ (∀ o, attempts_a_pop o = false →
       _last_job_pop_time (final (perform o s)) = _last_job_pop_time s)
  ∧ (pop_due w s → pop_failed w →
       _job_pop_frequency (final r) = 5%Q
       ∧ ((time_at_check w' - time_at_stamp w < 5)%Q →
          api_job_pop w' (final r) = no_op (final r)))
  ∧ (pop_due w s → request_built w = true →
       ∀ j, job_pop_response w = ApiResponse j →
         _job_pop_frequency (final r) = 1%Q
         ∧ ∀ job_id, id_ j = Some job_id →
             job_deque (final r) = job_deque s ++ [j]
             ∧ ∃ after,
                 effects r
                 = [EvSubmitRequest (ImageGenerateJobPopRequest (job_pop_request s));
                    EvAcquire job_deque_lock; EvDequeAppend j;
                    EvRelease job_deque_lock] ++ after)
  ∧ deque_guarded false (effects r) = true.
Proof.
  intros r.
  assert (Hfailed : pop_due w s → pop_failed w →
            _job_pop_frequency (final r) = 5%Q
            ∧ _last_job_pop_time (final r) = time_at_stamp w).
  { intros Hdue Hfailed.
    destruct (api_job_pop_failed w s Hdue Hfailed) as [_ Hfinal].
    subst r. by rewrite Hfinal. }
  assert (Hanswered : pop_due w s → request_built w = true →
            ∀ j, job_pop_response w = ApiResponse j →
              _job_pop_frequency (final r) = 1%Q
              ∧ _last_job_pop_time (final r) = time_at_stamp w).
  { intros Hdue Hbuilt j Hj.
    pose proof (api_job_pop_answered w s j Hdue Hbuilt Hj) as Hrun. subst r.
    by destruct (id_ j); rewrite Hrun. }
  assert (Hstamp : pop_due w s → _last_job_pop_time (final r) = time_at_stamp w).
  { intros Hdue. destruct (request_built w) eqn:Hbuilt;
      [|by apply Hfailed; [|left]].
    destruct (job_pop_response w) as [e| |j] eqn:Hj.
    - apply Hfailed; [done|]. right. right. by exists e.
    - apply Hfailed; [done|]. right. by left.
    - by apply (Hanswered Hdue eq_refl j). }
  assert (Hsoon : ∀ interval,
            _last_job_pop_time (final r) = time_at_stamp w →
            _job_pop_frequency (final r) = interval →
            (time_at_check w' - time_at_stamp w < interval)%Q →
            api_job_pop w' (final r) = no_op (final r)).
  { intros interval Hlast Hfreq Hlt. apply api_job_pop_not_due.
    intros (_ & _ & Hle). rewrite Hlast, Hfreq in Hle.
    apply (Qlt_not_le _ _ Hlt Hle). }
  split.
  { intros Hex. apply api_job_pop_requests_only_when_due in Hex as (? & _ & ?).
    done. }
  split. { intros Hdue. split; [by apply Hstamp|]. apply Hsoon; auto. }
  split. { intros Hnot. by apply api_job_pop_not_due. }
  split. { intros o Ho. apply (other_operations_keep_the_pop_stamp o Ho s). }
  split.
  { intros Hdue Hf. destruct (Hfailed Hdue Hf) as [Hfreq Hlast].
    split; [done|]. by apply Hsoon. }
  split; [|apply api_job_pop_guards_the_deque].
  intros Hdue Hbuilt j Hj. split; [by apply (Hanswered Hdue Hbuilt j)|].
  intros job_id Hid.
  pose proof (api_job_pop_answered w s j Hdue Hbuilt Hj) as Hrun. subst r.
  rewrite Hid in Hrun. rewrite Hrun. split; [done|]. eauto.
Qed.

Lemma job_pop_is_rate_limited_witness :
  let failing := {| time_at_check := 10; time_at_stamp := 10; request_built := true;
                    job_pop_response := ApiRequestError; file_written := true |} in
  let too_soon := {| time_at_check := 12; time_at_stamp := 12; request_built := true;
                     job_pop_response := ApiResponse (Examples.job "j1" "A");
                     file_written := true |} in
  let answered := {| time_at_check := 10; time_at_stamp := 10; request_built := true;
                     job_pop_response := ApiResponse (Examples.job "j1" "A");
                     file_written := true |} in
  let at_once := {| time_at_check := 10; time_at_stamp := 10; request_built := true;
                    job_pop_response := ApiResponse (Examples.job "j2" "A");
                    file_written := true |} in
  (pop_due failing Examples.fresh ∧ pop_failed failing
   ∧ (time_at_check too_soon - time_at_stamp failing < 5)%Q
   ∧ api_job_pop too_soon (final (api_job_pop failing Examples.fresh))
     = no_op (final (api_job_pop failing Examples.fresh)))
  ∧ (pop_due answered Examples.fresh
     ∧ job_deque (final (api_job_pop answered Examples.fresh))
       = [Examples.job "j1" "A"]
     ∧ (time_at_check at_once - time_at_stamp answered
        < _job_pop_frequency (final (api_job_pop answered Examples.fresh)))%Q
     ∧ api_job_pop at_once (final (api_job_pop answered Examples.fresh))
       = no_op (final (api_job_pop answered Examples.fresh))).
Proof.
  intros failing too_soon answered at_once.
  assert (Hdue : ∀ r f, pop_due
            {| time_at_check := 10; time_at_stamp := 10; request_built := true;
               job_pop_response := r; file_written := f |} Examples.fresh).
  { intros r f. split; [reflexivity|]. split; [reflexivity|].
    unfold Qle. simpl. lia. }
  assert (Hfailed : pop_failed failing) by (right; left; reflexivity).
  assert (Hsoon : (time_at_check too_soon - time_at_stamp failing < 5)%Q)
    by (unfold Qlt; simpl; lia).
  assert (Honce : (time_at_check at_once - time_at_stamp answered
                   < _job_pop_frequency
                       (final (api_job_pop answered Examples.fresh)))%Q)
    by (unfold Qlt; simpl; lia).
  split.
  - split; [apply Hdue|]. split; [exact Hfailed|]. split; [exact Hsoon|].
    destruct (job_pop_is_rate_limited failing too_soon Examples.fresh)
      as (_ & _ & _ & _ & Hback & _).
    destruct (Hback (Hdue _ _) Hfailed) as (_ & Hnoop). exact (Hnoop Hsoon).
  - split; [apply Hdue|].
    destruct (job_pop_is_rate_limited answered at_once Examples.fresh)
      as (_ & Hstamp & _ & _ & _ & Hok & _).
    destruct (Hok (Hdue _ _) eq_refl (Examples.job "j1" "A") eq_refl) as (_ & Happ).
    destruct (Happ "j1" eq_refl) as [Hdeque _].
    split; [exact Hdeque|]. split; [exact Honce|].
    destruct (Hstamp (Hdue _ _)) as [_ Hnoop]. exact (Hnoop Honce).
Defined.

(** ** The process registry *)

Lemma pm_get_Some_elem pid p (m : ProcessMap) :
  pm_get pid m = Some p → (pid, p) ∈ m.
Proof.
  induction m as [|[k w] m IH]; simpl; [done|].
  case_bool_decide as Hk; intros H.
  - injection H as ->. subst k. apply elem_of_cons. by left.
  - apply elem_of_cons. right. by apply IH.
Qed.

Lemma pm_get_None pid (m : ProcessMap) : pm_get pid m = None ↔ pid ∉ m.*1.
Proof.
  induction m as [|[k w] m IH]; simpl.
  - split; [intros _; apply not_elem_of_nil | done].
  - rewrite not_elem_of_cons. case_bool_decide as Hk.
    + split; [done | intros [? _]; congruence].
    + rewrite IH. split; [intros ?; split; [congruence | done] | by intros [_ ?]].
Qed.

Lemma pm_set_absent pid v (m : ProcessMap) :
  pm_get pid m = None → pm_set pid v m = m ++ [(pid, v)].
Proof.
  induction m as [|[k w] m IH]; simpl; [done|].
  case_bool_decide as Hk; [done|]. intros H. by rewrite IH.
Qed.

Lemma pm_set_present pid p v (m : ProcessMap) :
  pm_get pid m = Some p →
  process_type v = process_type p →
  (pm_set pid v m).*1 = m.*1
  ∧ length (pm_set pid v m) = length m
  ∧ skeleton (pm_set pid v m) = skeleton m
  ∧ (process_id v = pid →
     Forall (λ kv, process_id kv.2 = kv.1) m →
     Forall (λ kv, process_id kv.2 = kv.1) (pm_set pid v m)).
Proof.
  intros Hget Hkind. induction m as [|[k w] m IH]; simpl in *; [done|].
  case_bool_decide as Hk.
  - injection Hget as ->. subst k. simpl. rewrite Hkind.
    split; [done|]. split; [done|]. split; [done|].
    intros Hid Hall. apply Forall_cons in Hall as [_ Hall]. by apply Forall_cons.
  - destruct (IH Hget) as (Hkeys & Hlen & Hskel & Hall). simpl.
    split; [exact (f_equal (cons k) Hkeys)|].
    split; [exact (f_equal S Hlen)|].
    split; [exact (f_equal (cons (k, process_type w)) Hskel)|].
    intros Hid Hm. apply Forall_cons in Hm as [Hw Hm]. apply Forall_cons.
    split; [done | by apply Hall].
Qed.

Lemma dense_next_key_free (m : ProcessMap) :
  dense m → pm_get (Z.of_nat (length m)) m = None.
Proof.
  intros [Hkeys _]. apply pm_get_None. rewrite Hkeys.
  intros Hin. apply list_elem_of_fmap in Hin as (i & Hi & Hseq).
  apply elem_of_seq in Hseq. lia.
Qed.

Lemma dense_app_spawned (m : ProcessMap) n k :
  dense m → dense (m ++ spawned (length m) n k).
Proof.
  intros [Hkeys Hall]. split.
  - rewrite fmap_app, Hkeys, length_app. unfold spawned.
    rewrite length_fmap, length_seq, seq_app, fmap_app. f_equal.
    rewrite <- !list_fmap_compose. done.
  - apply Forall_app. split; [done|]. unfold spawned.
    apply Forall_fmap, Forall_forall. done.
Qed.

Lemma dense_key_of_entry (m : ProcessMap) pid p :
  dense m → pm_get pid m = Some p → process_id p = pid.
Proof.
  intros [_ Hall] Hget. apply pm_get_Some_elem in Hget.
  by apply (proj1 (Forall_forall _ _) Hall (pid, p)).
Qed.

(** What [spawn_processes] does to a dense registry. *)
Lemma spawn_processes_run n k :
  ∀ s, dense (_process_map s) →
    spawn_processes n k s
    = {| outcome := Ret tt;
         final := set_process_map
                    (_process_map s ++ spawned (length (_process_map s)) n k) s;
         effects := (λ i, EvSpawn k (Z.of_nat i))
                      <$> seq (length (_process_map s)) n |}.
Proof.
  induction n as [|n IH]; intros s Hdense.
  { simpl. unfold spawned. simpl. rewrite app_nil_r. by destruct s. }
  cbn [spawn_processes]. rewrite get_bind.
  set (pid := Z.of_nat (length (_process_map s))).
  set (s1 := set_process_map
               (pm_set pid (new_HordeProcessInfo pid k PROCESS_STARTING)
                  (_process_map s)) s).
  assert (Hs1 : _process_map s1
                = _process_map s ++ spawned (length (_process_map s)) 1 k).
  { subst s1. cbn. by rewrite pm_set_absent by by apply dense_next_key_free. }
  assert (Hdense1 : dense (_process_map s1))
    by (rewrite Hs1; by apply dense_app_spawned).
  specialize (IH s1 Hdense1).
  unfold mbind, M_bind, bind, emit, modify. fold s1. rewrite IH. cbn [app].
  f_equal.
  - rewrite Hs1. rewrite length_app. unfold spawned. simpl.
    rewrite <- app_assoc. simpl.
    replace (length (_process_map s) + 1)%nat with (S (length (_process_map s)))
      by lia.
    by destruct s.
  - rewrite Hs1, length_app. unfold spawned. simpl.
    replace (length (_process_map s) + 1)%nat with (S (length (_process_map s)))
      by lia.
    done.
Qed.

#[local] Instance registry_kept_preorder : PreOrder registry_kept.
Proof.
  split.
  - intros s. split; [done|]. split; [done|]. by intros Hd.
  - intros x y z (Hi1 & Hs1 & H1) (Hi2 & Hs2 & H2).
    split; [congruence|]. split; [congruence|]. intros Hd.
    destruct (H1 Hd) as (Hd1 & Hk1 & Hr1). destruct (H2 Hd1) as (Hd2 & Hk2 & Hr2).
    split; [done|]. split; [congruence|]. intros pid Hp. by apply Hr2, Hr1.
Qed.

#[local] Instance registry_grows_preorder : PreOrder registry_grows.
Proof.
  split.
  - intros s Hd. by split.
  - intros x y z H1 H2 Hd.
    destruct (H1 Hd) as (Hd1 & Hk1 & Hr1). destruct (H2 Hd1) as (Hd2 & Hk2 & Hr2).
    split; [done|]. split; [by etrans|]. intros pid Hp. by apply Hr2, Hr1.
Qed.

Lemma registry_kept_grows s s' : registry_kept s s' → registry_grows s s'.
Proof.
  intros (_ & _ & H) Hd. destruct (H Hd) as (Hd' & Hk & Hr).
  split; [done|]. split; [by rewrite Hk | done].
Qed.

Lemma count_kind_skeleton k (m : ProcessMap) :
  length (filter (λ p, process_type p = k) (pm_values m))
  = length (filter (λ x, x.2 = k) (skeleton m)).
Proof.
  unfold pm_values, skeleton. induction m as [|[key p] m IH]; [done|].
  cbn [fmap list_fmap]. rewrite !filter_cons. simpl.
  destruct (decide (process_type p = k)); simpl; by rewrite IH.
Qed.

Lemma count_kind_spawned k k' (m : ProcessMap) start n :
  length (filter (λ p, process_type p = k') (pm_values (m ++ spawned start n k)))
  = (length (filter (λ p, process_type p = k') (pm_values m))
     + (if decide (k = k') then n else 0))%nat.
Proof.
  unfold pm_values. rewrite fmap_app, filter_app, length_app. f_equal.
  unfold spawned. generalize start. induction n as [|n IH]; intros a.
  { simpl. by destruct (decide (k = k')). }
  cbn [seq fmap list_fmap]. rewrite filter_cons. simpl.
  specialize (IH (S a)). cbn [fmap] in IH.
  destruct (decide (k = k')); simpl; by rewrite IH.
Qed.

Lemma registry_kept_limits s s' :
  registry_kept s s' → keeps within_process_limits s s'.
Proof.
  intros (Hi & Hs & H) (Hd & Hinf & Hsaf). destruct (H Hd) as (Hd' & Hk & _).
  split; [done|]. unfold num_inference_processes, num_safety_processes in *.
  rewrite !count_kind_skeleton in *. rewrite Hk, Hi, Hs. done.
Qed.

Lemma process_setattr_gentle pid f :
  gentle f → stable registry_kept (process_setattr pid f).
Proof.
  intros Hf s. unfold process_setattr. rewrite get_bind.
  destruct (pm_get pid (_process_map s)) as [p|] eqn:Hp; [|reflexivity].
  destruct (Hf p) as (Hid & Hkind & Hres).
  split; [done|]. split; [done|]. cbn. intros Hd.
  destruct (pm_set_present pid p (f p) (_process_map s) Hp Hkind)
    as (Hkeys & Hlen & Hskel & Hall).
  split; [|split; [done|]].
  - destruct Hd as [Hk Ha]. split; [by rewrite Hkeys, Hlen|].
    apply Hall; [|done]. rewrite Hid. by apply (dense_key_of_entry (_process_map s)).
  - intros pid'. unfold resident_model. cbn. rewrite pm_get_set.
    case_bool_decide as Heq; [|done]. subst pid'. rewrite Hp. simpl. apply Hres.
Qed.

Lemma update_entry_keeps_registry pid a b c d e :
  stable registry_kept (process_map_update_entry pid a b c d e).
Proof.
  unfold process_map_update_entry, setattr_if_not_None.
  destruct a, b, c, d, e; repeat stable_step;
    apply process_setattr_gentle; intros p; simpl; eauto.
Qed.

Lemma pm_get_app_Some pid p (m m' : ProcessMap) :
  pm_get pid m = Some p → pm_get pid (m ++ m') = Some p.
Proof.
  induction m as [|[k w] m IH]; simpl; [done|]. by case_bool_decide.
Qed.

(** What the two start methods do to a dense registry: with [missing]
    processes of the kind still to start, they spawn exactly those; with
    more running than configured they log and raise. *)
Lemma start_processes_cases (k : HordeProcessKind) (missing : Z) (s : Manager) :
  dense (_process_map s) →
  (if bool_decide (missing < 0) then log CRITICAL;; raise ValueError
   else spawn_processes (Z.to_nat missing) k) s
  = if bool_decide (missing < 0)
    then {| outcome := Raise ValueError; final := s; effects := [EvLog CRITICAL] |}
    else {| outcome := Ret tt;
            final := set_process_map
                       (_process_map s
                        ++ spawned (length (_process_map s)) (Z.to_nat missing) k) s;
            effects := (λ i, EvSpawn k (Z.of_nat i))
                         <$> seq (length (_process_map s)) (Z.to_nat missing) |}.
Proof.
  intros Hd. case_bool_decide; [done|]. by apply spawn_processes_run.
Qed.

Lemma spawned_grows (k : HordeProcessKind) n s :
  dense (_process_map s) →
  registry_grows s
    (set_process_map (_process_map s ++ spawned (length (_process_map s)) n k) s).
Proof.
  intros Hd _. cbn. split; [by apply dense_app_spawned|]. split.
  - unfold skeleton. rewrite fmap_app. by apply prefix_app_r.
  - intros pid. unfold resident_model. cbn.
    destruct (pm_get pid (_process_map s)) as [p|] eqn:Hp; [|by intros [? ?]].
    by rewrite (pm_get_app_Some _ _ _ _ Hp).
Qed.

Lemma start_safety_processes_grows : stable registry_grows start_safety_processes.
Proof.
  intros s Hd. unfold start_safety_processes. rewrite get_bind.
  rewrite (start_processes_cases SAFETY _ s Hd).
  case_bool_decide; [by apply (reflexivity (R := registry_grows)) |].
  by apply spawned_grows.
Qed.

Lemma start_inference_processes_grows :
  stable registry_grows start_inference_processes.
Proof.
  intros s Hd. unfold start_inference_processes. rewrite get_bind.
  rewrite (start_processes_cases INFERENCE _ s Hd).
  case_bool_decide; [by apply (reflexivity (R := registry_grows)) |].
  by apply spawned_grows.
Qed.

Lemma start_safety_processes_limits :
  stable (keeps within_process_limits) start_safety_processes.
Proof.
  intros s (Hd & Hinf & Hsaf). unfold start_safety_processes. rewrite get_bind.
  rewrite (start_processes_cases SAFETY _ s Hd).
  case_bool_decide as Hneg; [done|]. unfold within_process_limits. run.
  split; [by apply dense_app_spawned|].
  unfold num_inference_processes, num_safety_processes in *.
  rewrite !count_kind_spawned. simpl. split; lia.
Qed.

Lemma start_inference_processes_limits :
  stable (keeps within_process_limits) start_inference_processes.
Proof.
  intros s (Hd & Hinf & Hsaf). unfold start_inference_processes. rewrite get_bind.
  rewrite (start_processes_cases INFERENCE _ s Hd).
  case_bool_decide as Hneg; [done|]. unfold within_process_limits. run.
  split; [by apply dense_app_spawned|].
  unfold num_inference_processes, num_safety_processes in *.
  rewrite !count_kind_spawned. simpl. split; lia.
Qed.

Lemma same_registry_kept s s' :
  same_on (λ s, (_process_map s, max_inference_processes s, max_safety_processes s))
    s s' → registry_kept s s'.
Proof.
  unfold same_on. intros [= Hpm Hi Hs].
  split; [done|]. split; [done|]. intros Hd. rewrite Hpm.
  split; [done|]. split; [done|]. intros pid. unfold resident_model. by rewrite Hpm.
Qed.

Lemma every_operation_grows_the_registry o : stable registry_grows (perform o).
Proof.
  pose proof (λ s s' H, registry_kept_grows s s' (same_registry_kept s s' H)) as Hsub.
  apply methods_perform; try apply _;
    try framed (λ s, (_process_map s, max_inference_processes s,
                      max_safety_processes s)) Hsub.
  - intros. eapply stable_weaken; [apply registry_kept_grows|].
    apply update_entry_keeps_registry.
  - apply start_safety_processes_grows.
  - apply start_inference_processes_grows.
Qed.

Lemma every_operation_keeps_the_process_limits o :
  stable (keeps within_process_limits) (perform o).
Proof.
  pose proof (λ s s' H, registry_kept_limits s s' (same_registry_kept s s' H)) as Hsub.
  apply methods_perform; try apply _;
    try framed (λ s, (_process_map s, max_inference_processes s,
                      max_safety_processes s)) Hsub.
  - intros. eapply stable_weaken; [apply registry_kept_limits|].
    apply update_entry_keeps_registry.
  - apply start_safety_processes_limits.
  - apply start_inference_processes_limits.
Qed.

Lemma skeleton_prefix_get pid p (m : ProcessMap) :
  ∀ m' : ProcessMap,
    skeleton m `prefix_of` skeleton m' →
    pm_get pid m = Some p →
    ∃ p', pm_get pid m' = Some p' ∧ process_type p' = process_type p.
Proof.
  induction m as [|[k w] m IH]; intros m' [rest Hrest] Hget; [done|].
  destruct m' as [|[k' w'] m']; [done|].
  unfold skeleton in Hrest. cbn [fmap list_fmap app] in Hrest.
  injection Hrest as Hk Hw Hrest. simpl in *. subst k'.
  case_bool_decide as Hpid.
  - injection Hget as ->. by exists w'.
  - apply IH; [by exists rest | done].
Qed.

Lemma dense_contains (m : ProcessMap) pid :
  dense m → pm_contains pid m = true ↔ 0 ≤ pid < Z.of_nat (length m).
Proof.
  intros [Hkeys _]. unfold pm_contains. rewrite bool_decide_eq_true.
  rewrite <- not_eq_None_Some, pm_get_None, Hkeys.
  split.
  - intros Hin. apply dec_stable in Hin.
    apply list_elem_of_fmap in Hin as (i & -> & Hi). apply elem_of_seq in Hi. lia.
  - intros Hrange Hnot. apply Hnot. apply list_elem_of_fmap.
    exists (Z.to_nat pid). split; [lia|]. apply elem_of_seq. lia.
Qed.

(** X1.  Process ids are sequential.  In every state reachable from a
    constructed manager the keys of the process map are 0, 1, ..., n-1 in
    the order the processes were started, every entry carries its key as
    [process_id], and so a message is accepted as coming from a known
    process exactly when its process id is below the number of processes
    started so far. *)
Theorem process_ids_are_sequential
    (bd : reGenBridgeData) (system_ram : Z)
    (reference : gmap string StableDiffusion_ModelRecord)
    (overhead max_inference max_safety max_download max_concurrent : Z)
    (s0 s : Manager) :
  new_manager bd system_ram reference overhead max_inference max_safety
    max_download max_concurrent = Some s0 →
  reachable s0 s →
  (_process_map s).*1 = Z.of_nat <$> seq 0 (length (_process_map s))
  ∧ (∀ pid p, pm_get pid (_process_map s) = Some p → process_id p = pid)
  ∧ (∀ pid, pm_contains pid (_process_map s) = true
            ↔ 0 ≤ pid < Z.of_nat (length (_process_map s))).
Proof.
  intros Hnew Hreach.
  assert (Hd0 : dense (_process_map s0)).
  { unfold new_manager in Hnew. repeat case_bool_decide; try discriminate.
    injection Hnew as <-. by split. }
  destruct (reachable_stable registry_grows s0 s
              every_operation_grows_the_registry Hreach Hd0) as (Hd & _).
  split; [apply Hd|]. split.
  - intros pid p. by apply dense_key_of_entry.
  - intros pid. by apply dense_contains.
Qed.

Lemma process_ids_are_sequential_witness :
  let s := final (perform (do_process_control_loop []) Examples.fresh) in
  new_manager Examples.bd 17179869184 Examples.catalogue 2147483648 3 1 1 1
    = Some Examples.fresh
  ∧ reachable Examples.fresh s
  ∧ (_process_map s).*1 = [0; 1; 2; 3].
Proof.
  intros s. split; [reflexivity|]. split; [apply reachable_step, reachable_start|].
  exact (proj1 (process_ids_are_sequential Examples.bd 17179869184 Examples.catalogue
                  2147483648 3 1 1 1 Examples.fresh s eq_refl
                  (reachable_step _ _ _ (reachable_start _)))).
Defined.

(** X2.  Processes are never removed from the registry and never change
    kind.  From a state whose process ids are sequential, whatever the
    orchestrator does afterwards, a process that is registered stays
    registered under the same id and with the same kind. *)
Theorem registered_processes_stay (s s' : Manager) (pid : Z) (p : HordeProcessInfo) :
  dense (_process_map s) →
  reachable s s' →
  pm_get pid (_process_map s) = Some p →
  ∃ p', pm_get pid (_process_map s') = Some p'
        ∧ process_type p' = process_type p
        ∧ process_id p' = process_id p.
Proof.
  intros Hd Hreach Hget.
  destruct (reachable_stable registry_grows s s'
              every_operation_grows_the_registry Hreach Hd) as (Hd' & Hprefix & _).
  destruct (skeleton_prefix_get pid p _ _ Hprefix Hget) as (p' & Hget' & Hkind).
  exists p'. split; [done|]. split; [done|].
  rewrite (dense_key_of_entry _ _ _ Hd Hget).
  by rewrite (dense_key_of_entry _ _ _ Hd' Hget').
Qed.

Lemma registered_processes_stay_witness :
  let s := Examples.staffed in
  let s' := final (perform do_start_inference_processes s) in
  dense (_process_map s)
  ∧ reachable s s'
  ∧ pm_get 1 (_process_map s) = Some (new_HordeProcessInfo 1 INFERENCE WAITING_FOR_JOB)
  ∧ ∃ p', pm_get 1 (_process_map s') = Some p'
          ∧ process_type p' = INFERENCE ∧ process_id p' = 1.
Proof.
  intros s s'.
  assert (Hd : dense (_process_map s)) by (split; [reflexivity | repeat constructor]).
  assert (Hr : reachable s s') by apply reachable_step, reachable_start.
  split; [exact Hd|]. split; [exact Hr|]. split; [reflexivity|].
  exact (registered_processes_stay s s' 1 _ Hd Hr eq_refl).
Defined.

(** X3.  A resident model is never cleared.  No operation of the
    orchestrator assigns [None] to [loaded_horde_model_name]
    ([ProcessMap.update_entry] skips a [None] argument): once a process is
    recorded with a resident model, it is recorded with one in every later
    state, also after [unload_from_ram] and after an ON_DISK report. *)
Theorem resident_model_is_never_cleared (s s' : Manager) (pid : Z) :
  dense (_process_map s) →
  reachable s s' →
  is_Some (resident_model s pid) →
  is_Some (resident_model s' pid).
Proof.
  intros Hd Hreach Hres.
  destruct (reachable_stable registry_grows s s'
              every_operation_grows_the_registry Hreach Hd) as (_ & _ & Hkept).
  by apply Hkept.
Qed.

Lemma resident_model_is_never_cleared_witness :
  let s := ResidencyExample.loaded in
  let s' := final (perform (do_unload_from_ram 1) s) in
  dense (_process_map s)
  ∧ reachable s s'
  ∧ resident_model s 1 = Some "A"
  ∧ load_state_of s' "A" = Some ON_DISK
  ∧ is_Some (resident_model s' 1).
Proof.
  intros s s'.
  assert (Hd : dense (_process_map s)) by (split; [reflexivity | repeat constructor]).
  assert (Hr : reachable s s') by apply reachable_step, reachable_start.
  split; [exact Hd|]. split; [exact Hr|]. split; [reflexivity|].
  split; [by vm_compute|].
  exact (resident_model_is_never_cleared s s' 1 Hd Hr (ex_intro _ "A" eq_refl)).
Defined.

(** X4.  No more processes than configured.  In every state reachable
    from a constructed manager there are at most [max_inference_processes]
    inference processes and at most [max_safety_processes] safety
    processes (none when the limit is negative). *)
Theorem process_counts_within_limits
    (bd : reGenBridgeData) (system_ram : Z)
    (reference : gmap string StableDiffusion_ModelRecord)
    (overhead max_inference max_safety max_download max_concurrent : Z)
    (s0 s : Manager) :
  new_manager bd system_ram reference overhead max_inference max_safety
    max_download max_concurrent = Some s0 →
  reachable s0 s →
  num_inference_processes (_process_map s) ≤ Z.max 0 (max_inference_processes s)
  ∧ num_safety_processes (_process_map s) ≤ Z.max 0 (max_safety_processes s).
Proof.
  intros Hnew Hreach.
  assert (H0 : within_process_limits s0).
  { unfold new_manager in Hnew. repeat case_bool_decide; try discriminate.
    injection Hnew as <-. split; [by split|].
    change (0 ≤ Z.max 0 max_inference ∧ 0 ≤ Z.max 0 max_safety). lia. }
  by destruct (reachable_keeps within_process_limits s0 s
                 every_operation_keeps_the_process_limits H0 Hreach) as (_ & ? & ?).
Qed.

Lemma process_counts_within_limits_witness :
  let s := final (perform (do_process_control_loop []) Examples.fresh) in
  new_manager Examples.bd 17179869184 Examples.catalogue 2147483648 3 1 1 1
    = Some Examples.fresh
  ∧ reachable Examples.fresh s
  ∧ num_inference_processes (_process_map s) ≤ 3.
Proof.
  intros s. split; [reflexivity|]. split; [apply reachable_step, reachable_start|].
  exact (proj1 (process_counts_within_limits Examples.bd 17179869184
                  Examples.catalogue 2147483648 3 1 1 1 Examples.fresh s eq_refl
                  (reachable_step _ _ _ (reachable_start _)))).
Defined.

(** ** Starting and ending processes *)

Lemma set_process_map_same s : set_process_map (_process_map s ++ []) s = s.
Proof. rewrite app_nil_r. by destruct s. Qed.

Lemma start_outcome_intro (k : HordeProcessKind) (lim : Manager → Z)
    (count : ProcessMap → Z) (start : M unit) (s : Manager) :
  (∀ v s, lim (set_process_map v s) = lim s) →
  (∀ m a n, count (m ++ spawned a n k) = count m + Z.of_nat n) →
  (∀ s, dense (_process_map s) →
        start s
        = if bool_decide (lim s - count (_process_map s) < 0)
          then {| outcome := Raise ValueError; final := s;
                  effects := [EvLog CRITICAL] |}
          else {| outcome := Ret tt;
                  final := set_process_map
                             (_process_map s
                              ++ spawned (length (_process_map s))
                                   (Z.to_nat (lim s - count (_process_map s))) k) s;
                  effects := (λ i, EvSpawn k (Z.of_nat i))
                               <$> seq (length (_process_map s))
                                     (Z.to_nat (lim s - count (_process_map s))) |}) →
  dense (_process_map s) →
  start_outcome k (lim s - count (_process_map s)) count start s.
Proof.
  intros Hlim Hcount Hstart Hd. split; intros Hmissing.
  - rewrite (Hstart s Hd). rewrite bool_decide_false by lia.
    cbn [outcome final effects].
    split; [done|]. split; [done|]. split; [done|].
    assert (Hc : count (_process_map
                          (set_process_map
                             (_process_map s
                              ++ spawned (length (_process_map s))
                                   (Z.to_nat (lim s - count (_process_map s))) k) s))
                 = count (_process_map s) + (lim s - count (_process_map s))).
    { change (_process_map (set_process_map ?v _)) with v.
      rewrite Hcount. lia. }
    split; [exact Hc|].
    rewrite Hstart by (by apply dense_app_spawned).
    rewrite Hc, Hlim. rewrite bool_decide_false by lia.
    replace (lim s - (count (_process_map s) + (lim s - count (_process_map s))))
      with 0 by lia.
    unfold no_op. simpl. f_equal. apply set_process_map_same.
  - rewrite (Hstart s Hd). by rewrite bool_decide_true by lia.
Qed.

(** X5.  The start methods fill the registry up to the configured count.
    On a registry with sequential ids, [start_inference_processes] spawns
    exactly the [max_inference_processes - num_inference_processes]
    missing inference processes, with the next free ids, in state
    PROCESS_STARTING, after which a second call does nothing; when more
    are running than configured it logs, raises [ValueError] and changes
    nothing.  [start_safety_processes] does the same for safety
    processes. *)
Theorem start_methods_fill_up_to_the_limit (s : Manager) :
  dense (_process_map s) →
  start_outcome INFERENCE
    (max_inference_processes s - num_inference_processes (_process_map s))
    num_inference_processes start_inference_processes s
  ∧ start_outcome SAFETY
      (max_safety_processes s - num_safety_processes (_process_map s))
      num_safety_processes start_safety_processes s.
Proof.
  intros Hd. split.
  - apply (start_outcome_intro INFERENCE max_inference_processes); try done.
    + intros m a n. unfold num_inference_processes.
      rewrite count_kind_spawned. simpl. lia.
    + intros s1 Hd1. unfold start_inference_processes. rewrite get_bind.
      by apply start_processes_cases.
  - apply (start_outcome_intro SAFETY max_safety_processes); try done.
    + intros m a n. unfold num_safety_processes.
      rewrite count_kind_spawned. simpl. lia.
    + intros s1 Hd1. unfold start_safety_processes. rewrite get_bind.
      by apply start_processes_cases.
Qed.

Lemma start_methods_fill_up_to_the_limit_witness :
  let s := Examples.staffed in
  dense (_process_map s)
  ∧ start_outcome INFERENCE 2 num_inference_processes start_inference_processes s
  ∧ start_outcome SAFETY 0 num_safety_processes start_safety_processes s.
Proof.
  intros s.
  assert (Hd : dense (_process_map s)) by (split; [reflexivity | repeat constructor]).
  split; [exact Hd|].
  exact (start_methods_fill_up_to_the_limit s Hd).
Defined.

Lemma update_entry_nothing pid s :
  process_map_update_entry pid None None None None None s = no_op s.
Proof. reflexivity. Qed.

Lemma end_processes_run n s :
  end_processes n s
  = match n, get_first_available_inference_process (_process_map s) with
    | O, _ => no_op s
    | S _, None =>
        {| outcome := Raise ValueError; final := s; effects := [EvLog CRITICAL] |}
    | S _, Some p =>
        {| outcome := Ret tt; final := s;
           effects := replicate n (EvSend (process_id p)
                                     (HordeControlMessage END_PROCESS)) |}
    end.
Proof.
  induction n as [|n IH]; [reflexivity|].
  cbn [end_processes]. rewrite get_bind.
  destruct (get_first_available_inference_process (_process_map s)) as [p|] eqn:Hp;
    [|reflexivity].
  unfold mbind, M_bind, bind, emit. rewrite update_entry_nothing. unfold no_op.
  rewrite IH. by destruct n.
Qed.

(** X6.  [end_inference_processes] never changes the manager, and every
    END_PROCESS message of one call goes to the same process.  The
    registry is not updated between two rounds of the loop
    ([update_entry] is called with the process id alone), so each round
    picks the first available inference process again: to end [n]
    processes the method sends [n] END_PROCESS messages to that one
    process.  With a negative count, or with processes to end and none
    available, it logs and raises [ValueError]. *)
Theorem end_inference_processes_ends_one_process (s : Manager) :
  let r := end_inference_processes s in
  let n := num_processes_to_end s in
  final r = s
  ∧ (n < 0 → outcome r = Raise ValueError ∧ effects r = [EvLog CRITICAL])
  ∧ (0 < n → get_first_available_inference_process (_process_map s) = None →
     outcome r = Raise ValueError ∧ effects r = [EvLog CRITICAL])
  ∧ (n = 0 → r = no_op s)
  ∧ (∀ p, 0 ≤ n →
          get_first_available_inference_process (_process_map s) = Some p →
          outcome r = Ret tt
          ∧ effects r = replicate (Z.to_nat n)
                          (EvSend (process_id p) (HordeControlMessage END_PROCESS))).
Proof.
  intros r n. subst r.
  unfold end_inference_processes. rewrite get_bind.
  fold (num_processes_to_end s). fold n.
  case_bool_decide as Hn.
  { split; [done|]. split; [done|]. split; [intros; lia|].
    split; intros; lia. }
  rewrite end_processes_run.
  destruct (Z.to_nat n) as [|k] eqn:Hk.
  { assert (n = 0) by lia.
    split; [done|]. split; [intros; lia|]. split; [intros; lia|].
    split; [done|]. intros p _ _. done. }
  destruct (get_first_available_inference_process (_process_map s)) as [p|].
  - split; [done|]. split; [intros; lia|]. split; [done|].
    split; [intros; lia|]. intros p' _ [= <-]. done.
  - split; [done|]. split; [intros; lia|]. split; [done|].
    split; [intros; lia|]. done.
Qed.

Lemma end_inference_processes_ends_one_process_witness :
  let s := EndExample.overstaffed in
  let r := end_inference_processes s in
  num_processes_to_end s = 2
  ∧ get_first_available_inference_process (_process_map s)
    = Some (new_HordeProcessInfo 0 INFERENCE WAITING_FOR_JOB)
  ∧ outcome r = Ret tt
  ∧ effects r = [EvSend 0 (HordeControlMessage END_PROCESS);
                 EvSend 0 (HordeControlMessage END_PROCESS)].
Proof.
  intros s r. split; [reflexivity|]. split; [reflexivity|].
  exact (proj2 (proj2 (proj2 (proj2 (end_inference_processes_ends_one_process s))))
           (new_HordeProcessInfo 0 INFERENCE WAITING_FOR_JOB)
           ltac:(by vm_compute) eq_refl).
Defined.

(** ** Shutdown and availability *)

Lemma any_process_alive_false ps alive :
  any_process_alive ps alive = Some false
  ↔ alive = false ∧ Forall idle_and_ended ps.
Proof.
  revert alive. induction ps as [|p ps IH]; intros alive; simpl.
  { split; [intros [= ->]; by split | by intros [-> _]]. }
  destruct (is_process_busy p) eqn:Hbusy.
  { split; [done|]. intros [_ H]. apply Forall_cons in H as [[H _] _]. congruence. }
  case_bool_decide as Hst.
  - rewrite IH. split; [intros [? _]; done|].
    intros [_ H]. apply Forall_cons in H as [[_ H] _]. done.
  - rewrite IH. split.
    + intros [-> H]. split; [done|]. apply Forall_cons. by repeat split.
    + intros [-> H]. apply Forall_cons in H as [_ H]. by split.
Qed.

Lemma is_time_for_shutdown_iff (s : Manager) :
  is_time_for_shutdown s = true
  ↔ jobs_in_progress s = [] ∧ job_deque s = []
    ∧ Forall idle_and_ended (pm_values (_process_map s)).
Proof.
  unfold is_time_for_shutdown.
  destruct (jobs_in_progress s) as [|j js];
    [|rewrite bool_decide_true by (simpl; lia); split; [done | by intros [? _]]].
  rewrite bool_decide_false by (simpl; lia).
  destruct (job_deque s) as [|d ds];
    [|rewrite bool_decide_true by (simpl; lia); split; [done | by intros (_ & ? & _)]].
  rewrite bool_decide_false by (simpl; lia).
  destruct (any_process_alive _ false) as [alive|] eqn:Halive.
  - destruct alive; simpl.
    + split; [done|]. intros (_ & _ & H).
      assert (any_process_alive (pm_values (_process_map s)) false = Some false)
        by (by apply any_process_alive_false).
      congruence.
    + split; [|done]. intros _. split; [done|]. split; [done|].
      by apply any_process_alive_false in Halive as [_ ?].
  - split; [done|]. intros (_ & _ & H).
    assert (any_process_alive (pm_values (_process_map s)) false = Some false)
      by (by apply any_process_alive_false).
    congruence.
Qed.

(** X7.  When it is time for shutdown.  [is_time_for_shutdown] answers
    true exactly when no job is in progress, the deque is empty and every
    registered process is both idle ([is_process_busy] false) and in state
    PROCESS_ENDED; one busy process, or one idle process in another state,
    makes it false. *)
Theorem is_time_for_shutdown_characterised (s : Manager) :
  is_time_for_shutdown s = true
  ↔ jobs_in_progress s = [] ∧ job_deque s = []
    ∧ ∀ p, p ∈ pm_values (_process_map s) →
           is_process_busy p = false ∧ last_process_state p = PROCESS_ENDED.
Proof.
  rewrite is_time_for_shutdown_iff, Forall_forall. reflexivity.
Qed.

Lemma is_time_for_shutdown_empty_registry (s : Manager) :
  is_time_for_shutdown s = true → _process_map s = [].
Proof.
  intros H. apply is_time_for_shutdown_iff in H as (_ & _ & H).
  destruct (_process_map s) as [|[k p] m]; [done|].
  apply Forall_cons in H as [[Hbusy Hended] _]. simpl in *.
  unfold is_process_busy in Hbusy. by rewrite Hended in Hbusy.
Qed.

Lemma registry_grows_staffed s s' :
  registry_grows s s' → staffed_registry s → staffed_registry s'.
Proof.
  intros Hgrows [Hd Hne]. destruct (Hgrows Hd) as (Hd' & [rest Hprefix] & _).
  split; [done|]. intros Hnil. rewrite Hnil in Hprefix.
  destruct (_process_map s); [done|]. done.
Qed.

Lemma staffed_not_time_for_shutdown s :
  staffed_registry s → is_time_for_shutdown s = false.
Proof.
  intros [_ Hne]. destruct (is_time_for_shutdown s) eqn:H; [|done].
  by apply is_time_for_shutdown_empty_registry in H.
Qed.

(** X8.  Once a process is registered, shutdown is never signalled.
    With [can_accept_job] as the specification gives it (false in
    PROCESS_ENDED), [is_time_for_shutdown] requires every registered
    process to be idle and ended at once, which no process is; processes
    are never removed from the registry.  So from a state with sequential
    ids and at least one process, in every later state
    [is_time_for_shutdown] is false, [end_inference_processes] counts
    [num_inference_processes - max_inference_processes] processes to end,
    and an iteration of the control loop never takes its [break]. *)
Theorem shutdown_is_never_signalled (s s' : Manager) :
  dense (_process_map s) →
  _process_map s ≠ [] →
  reachable s s' →
  is_time_for_shutdown s' = false
  ∧ num_processes_to_end s'
    = num_inference_processes (_process_map s') - max_inference_processes s'
  ∧ outcome (process_control_loop_iteration s') ≠ Ret LoopBreak.
Proof.
  intros Hd Hne Hreach.
  assert (Hs' : staffed_registry s').
  { apply (registry_grows_staffed s); [|done].
    by apply (reachable_stable registry_grows s s'
                every_operation_grows_the_registry). }
  pose proof (staffed_not_time_for_shutdown s' Hs') as Hno.
  split; [done|]. split; [unfold num_processes_to_end; by rewrite Hno|].
  unfold process_control_loop_iteration. rewrite get_bind.
  destruct (stable_diffusion_reference s'); [|done].
  rewrite outcome_bind.
  set (A := with_lock _ _).
  assert (HA : staffed_registry (final (A s'))).
  { apply (registry_grows_staffed s'); [|done]. unfold A.
    rewrite !final_with_lock.
    apply (every_operation_grows_the_registry
             do_receive_and_handle_process_messages). }
  destruct (outcome (A s')) as [[]|e]; [|done].
  rewrite get_bind, outcome_bind.
  set (B := if bool_decide _ then _ else _).
  assert (HB : staffed_registry (final (B (final (A s'))))).
  { unfold B. case_bool_decide; [|done].
    apply (registry_grows_staffed (final (A s'))); [|done].
    rewrite final_with_lock.
    apply (every_operation_grows_the_registry do_start_evaluate_safety). }
  destruct (outcome (B (final (A s')))) as [[]|e]; [|done].
  rewrite get_bind, (staffed_not_time_for_shutdown _ HB).
  rewrite get_bind, outcome_bind.
  destruct (outcome _) as [[]|e]; [|done].
  rewrite outcome_bind. simpl. done.
Qed.

Lemma shutdown_is_never_signalled_witness :
  let s := Examples.staffed in
  let s' := final (perform do_start_inference_processes s) in
  dense (_process_map s)
  ∧ reachable s s'
  ∧ is_time_for_shutdown s' = false
  ∧ num_processes_to_end s' = 0.
Proof.
  intros s s'.
  assert (Hd : dense (_process_map s)) by (split; [reflexivity | repeat constructor]).
  assert (Hr : reachable s s') by apply reachable_step, reachable_start.
  split; [exact Hd|]. split; [exact Hr|].
  destruct (shutdown_is_never_signalled s s' Hd ltac:(done) Hr) as (H1 & H2 & _).
  split; [exact H1|]. rewrite H2. reflexivity.
Defined.

(** X9.  The two notions of an available inference process agree.  The
    control loop asks [is_free_inference_process_available] (a count of
    the inference processes that are not busy), the scheduler takes
    [get_first_available_inference_process] (the first that can accept a
    job): one is true exactly when the other finds a process, and the
    process found is a registered inference process that can accept a
    job.  The number of available inference processes is at most the
    number of inference processes. *)
Theorem available_inference_process_agrees (s : Manager) :
  (is_free_inference_process_available s = true
   ↔ is_Some (get_first_available_inference_process (_process_map s)))
  ∧ (∀ p, get_first_available_inference_process (_process_map s) = Some p →
          p ∈ pm_values (_process_map s)
          ∧ process_type p = INFERENCE ∧ is_process_busy p = false)
  ∧ 0 ≤ num_available_inference_processes (_process_map s)
      ≤ num_inference_processes (_process_map s).
Proof.
  unfold is_free_inference_process_available, num_available_inference_processes,
    num_inference_processes, get_first_available_inference_process.
  generalize (pm_values (_process_map s)) as ps. intros ps.
  assert (Hsame : filter (λ p, process_type p = INFERENCE ∧ is_process_busy p = false) ps
                  = filter (λ p, process_type p = INFERENCE ∧ can_accept_job p = true) ps).
  { apply list_filter_iff. intros p. unfold is_process_busy, can_accept_job.
    destruct (state_can_accept_job _); simpl; intuition congruence. }
  rewrite Hsame. clear Hsame. split; [|split].
  - destruct (filter _ ps) as [|p l]; cbn [length head].
    + rewrite bool_decide_false by lia. split; [done | by intros [? ?]].
    + rewrite bool_decide_true by lia. split; [by eexists | done].
  - intros p Hp. apply head_Some_elem_of in Hp.
    apply list_elem_of_filter in Hp as [[Hk Hc] Hin].
    split; [done|]. split; [done|].
    unfold is_process_busy, can_accept_job in *. by rewrite Hc.
  - split; [lia|]. apply inj_le.
    induction ps as [|p ps IH]; [done|].
    rewrite !filter_cons.
    destruct (decide (process_type p = INFERENCE ∧ can_accept_job p = true))
      as [[Hk _]|Hn].
    + rewrite decide_True by done. simpl. lia.
    + destruct (decide (process_type p = INFERENCE)); simpl; lia.
Qed.

(** ** The accounts of the result pipeline *)

#[local] Instance pipeline_advances_preorder : PreOrder pipeline_advances.
Proof.
  split.
  - intros s. split; reflexivity.
  - intros s1 s2 s3 [H1 H2] [H3 H4]. split; etrans; eauto.
Qed.

Lemma same_pipeline_advances s s' : same_on pipeline s s' → pipeline_advances s s'.
Proof.
  unfold same_on, pipeline, pipeline_advances, jobs_gone, jobs_in_the_pipeline.
  intros [= -> -> -> ->]. lia.
Qed.

Lemma pop_by_job_id_length job_id l :
  length l = (length (pop_by_job_id job_id l).2
              + match (pop_by_job_id job_id l).1 with Some _ => 1 | None => 0 end)%nat.
Proof.
  induction l as [|c l IH]; simpl; [done|].
  case_bool_decide; simpl; [lia|].
  rewrite IH at 1. lia.
Qed.

Lemma list_remove_first_length `{EqDecision A} (x : A) (l l' : list A) :
  list_remove_first x l = Some l' → length l = S (length l').
Proof.
  revert l'. induction l as [|y l IH]; intros l'; simpl; [done|].
  case_bool_decide; [by intros [= ->]|].
  destruct (list_remove_first x l) as [r|]; [|done].
  intros [= <-]. simpl. by rewrite (IH r).
Qed.

Lemma handle_inference_result_advances job images st :
  stable pipeline_advances (handle_inference_result job images st).
Proof.
  intros s. unfold handle_inference_result, job_deque_popleft.
  destruct images as [images|]; [|split; reflexivity].
  run. case_bool_decide; run; destruct (job_deque s); run;
    unfold pipeline_advances, jobs_gone, jobs_in_the_pipeline; cbn;
    rewrite ?length_app; simpl; lia.
Qed.

Lemma handle_safety_result_advances job_id evaluations :
  stable pipeline_advances (handle_safety_result job_id evaluations).
Proof.
  intros s. unfold handle_safety_result. run.
  pose proof (pop_by_job_id_length job_id (jobs_being_safety_checked s)) as Hlen.
  destruct (pop_by_job_id job_id (jobs_being_safety_checked s)) as [[c|] rest];
    simpl in *;
    [|unfold pipeline_advances, jobs_gone, jobs_in_the_pipeline; cbn; lia].
  destruct (job_result_images_base64 c) as [images|];
    [|unfold pipeline_advances, jobs_gone, jobs_in_the_pipeline; cbn; lia].
  destruct (apply_safety_evaluations _ _ _) as [[[images' n] k]|e]; run;
    unfold pipeline_advances, jobs_gone, jobs_in_the_pipeline; cbn;
    rewrite ?length_app; simpl; lia.
Qed.

Lemma start_evaluate_safety_advances : stable pipeline_advances start_evaluate_safety.
Proof.
  intros s. unfold start_evaluate_safety. rewrite get_bind.
  destruct (jobs_pending_safety_check s) as [|c rest] eqn:Hpending; [reflexivity|].
  rewrite list_remove_first_head.
  repeat case_match; try reflexivity; run;
    unfold pipeline_advances, jobs_gone, jobs_in_the_pipeline; cbn;
    rewrite Hpending, ?length_app; simpl; lia.
Qed.

(** [api_submit_job] either leaves the manager as it was or removes the
    head of [completed_jobs]. *)
Lemma api_submit_job_final w s :
  final (api_submit_job w s) = s
  ∨ ∃ c rest, completed_jobs s = c :: rest
              ∧ is_Some (censored c)
              ∧ outcome (api_submit_job w s) = Ret tt
              ∧ final (api_submit_job w s) = set_completed_jobs rest s.
Proof.
  unfold api_submit_job. rewrite get_bind.
  destruct (completed_jobs s) as [|c rest] eqn:Hcompleted; [by left|].
  destruct (job_result_images_base64 c) as [images|]; [|by left].
  case_bool_decide; [by left|].
  destruct (id_ (job_info c)), (seed (payload (job_info c))),
    (r2_upload (job_info c)), (censored c) eqn:Hcensored; try (by left).
  run.
  destruct (images !! 0%nat); run; [|by left].
  destruct (webp_bytes w); run; [|by left].
  destruct (put_status_code w) as [status|]; run; [|by left].
  case_bool_decide; run; [by left|].
  destruct (seed_as_int w); run; [|by left].
  destruct (job_submit_response w) as [e| |response]; run; try (by left).
  rewrite Hcompleted, list_remove_first_head. run.
  right. exists c, rest. by rewrite Hcensored.
Qed.

Lemma api_submit_job_advances w : stable pipeline_advances (api_submit_job w).
Proof.
  intros s.
  destruct (api_submit_job_final w s) as [->|(c & rest & Hc & _ & _ & ->)];
    [reflexivity|].
  unfold pipeline_advances, jobs_gone, jobs_in_the_pipeline. cbn.
  rewrite Hc. simpl. lia.
Qed.

Lemma every_operation_advances_the_pipeline o : stable pipeline_advances (perform o).
Proof.
  apply methods_perform; try apply _;
    try framed pipeline same_pipeline_advances.
  - apply handle_inference_result_advances.
  - apply handle_safety_result_advances.
  - apply start_evaluate_safety_advances.
  - apply api_submit_job_advances.
Qed.

(** X10.  The accounts of the result pipeline.  [total_num_completed_jobs]
    never decreases, and neither does the number of completed jobs that
    have left the pipeline (the total minus the records pending the safety
    check, being checked, and waiting for submission).  In every state
    reachable from a constructed manager the three lists together hold at
    most [total_num_completed_jobs] records. *)
Theorem pipeline_accounts_balance
    (bd : reGenBridgeData) (system_ram : Z)
    (reference : gmap string StableDiffusion_ModelRecord)
    (overhead max_inference max_safety max_download max_concurrent : Z)
    (s0 s s' : Manager) :
  new_manager bd system_ram reference overhead max_inference max_safety
    max_download max_concurrent = Some s0 →
  reachable s0 s →
  reachable s s' →
  0 ≤ jobs_in_the_pipeline s ≤ total_num_completed_jobs s
  ∧ total_num_completed_jobs s ≤ total_num_completed_jobs s'
  ∧ jobs_gone s ≤ jobs_gone s'.
Proof.
  intros Hnew Hs Hs'.
  pose proof (reachable_stable pipeline_advances s0 s
                every_operation_advances_the_pipeline Hs) as [_ Hgone].
  pose proof (reachable_stable pipeline_advances s s'
                every_operation_advances_the_pipeline Hs') as [Htotal Hgone'].
  split; [|done].
  assert (jobs_gone s0 = 0) as H0.
  { unfold new_manager in Hnew. repeat case_bool_decide; try done.
    by injection Hnew as <-. }
  unfold jobs_gone in *. unfold jobs_in_the_pipeline in *. lia.
Qed.

Lemma pipeline_accounts_balance_witness :
  let popped := {| time_at_check := 10; time_at_stamp := 10; request_built := true;
                   job_pop_response := ApiResponse (Examples.job "j1" "A");
                   file_written := true |} in
  let s1 := final (perform do_start_inference_processes Examples.fresh) in
  let s2 := final (perform (do_api_job_pop popped) s1) in
  let s3 := final (perform (message_arrives
                              (HordeInferenceResultMessage 0 (Examples.job "j1" "A")
                                 (Some ["image"]) gs_ok)) s2) in
  let s := final (perform do_receive_and_handle_process_messages s3) in
  new_manager Examples.bd 17179869184 Examples.catalogue 2147483648 3 1 1 1
    = Some Examples.fresh
  ∧ reachable Examples.fresh s
  ∧ length (jobs_pending_safety_check s) = 1%nat
  ∧ 0 ≤ jobs_in_the_pipeline s ≤ total_num_completed_jobs s.
Proof.
  intros popped s1 s2 s3 s.
  assert (Hr : reachable Examples.fresh s) by (repeat apply reachable_step; apply reachable_start).
  split; [reflexivity|]. split; [exact Hr|]. split; [by vm_compute|].
  exact (proj1 (pipeline_accounts_balance Examples.bd 17179869184 Examples.catalogue
                  2147483648 3 1 1 1 Examples.fresh s s eq_refl Hr
                  (reachable_start _))).
Defined.

(** ** The records of the pipeline *)

Lemma same_records_keeps s s' :
  same_on records s s' → keeps records_well_formed s s'.
Proof.
  unfold same_on, records, keeps, records_well_formed. by intros [= -> -> ->].
Qed.

Lemma pop_by_job_id_Forall (P : CompletedJobInfo → Prop) job_id l :
  Forall P l →
  Forall P (pop_by_job_id job_id l).2
  ∧ ∀ c, (pop_by_job_id job_id l).1 = Some c → P c.
Proof.
  induction 1 as [|c l Hc Hl IH]; simpl; [by split|].
  case_bool_decide; simpl.
  - split; [done|]. by intros ? [= <-].
  - destruct IH as [IH1 IH2]. split; [by apply Forall_cons|done].
Qed.

Lemma handle_inference_result_keeps_records job images st :
  stable (keeps records_well_formed) (handle_inference_result job images st).
Proof.
  intros s (Hp & Hb & Hc). unfold handle_inference_result, job_deque_popleft.
  destruct images as [images|]; [|by split].
  run. case_bool_decide; run; destruct (job_deque s); run;
    (split; [|by split]); try done;
    (apply Forall_app; split; [done|]);
    apply Forall_singleton; by split.
Qed.

Lemma handle_safety_result_keeps_records job_id evaluations :
  stable (keeps records_well_formed) (handle_safety_result job_id evaluations).
Proof.
  intros s (Hp & Hb & Hc). unfold handle_safety_result. run.
  destruct (pop_by_job_id_Forall awaits_check job_id _ Hb) as [Hrest Hfound].
  destruct (pop_by_job_id job_id (jobs_being_safety_checked s)) as [[c|] rest];
    simpl in *; [|by split].
  destruct (job_result_images_base64 c) as [images|]; [|by split].
  destruct (apply_safety_evaluations _ _ _) as [[[images' n] k]|e]; run;
    [|by split].
  split; [done|]. split; [done|]. apply Forall_app. split; [done|].
  apply Forall_singleton. case_bool_decide; by split.
Qed.

Lemma start_evaluate_safety_keeps_records :
  stable (keeps records_well_formed) start_evaluate_safety.
Proof.
  intros s (Hp & Hb & Hc). unfold start_evaluate_safety. rewrite get_bind.
  destruct (jobs_pending_safety_check s) as [|c rest] eqn:Hpending;
    [split_and!; simpl; rewrite ?Hpending; done|].
  rewrite list_remove_first_head. apply Forall_cons in Hp as [Hhead Hrest].
  assert (Hmoved : Forall awaits_check (jobs_being_safety_checked s ++ [c]))
    by (apply Forall_app; split; [done | by apply Forall_singleton]).
  assert (Hp : Forall awaits_check (c :: rest)) by (by apply Forall_cons).
  repeat case_match; run; unfold records_well_formed; simpl;
    rewrite ?Hpending; by split_and?.
Qed.

Lemma api_submit_job_keeps_records w :
  stable (keeps records_well_formed) (api_submit_job w).
Proof.
  intros s (Hp & Hb & Hc).
  destruct (api_submit_job_final w s) as [->|(c & rest & Hcompleted & _ & _ & ->)];
    [by split|].
  rewrite Hcompleted in Hc. apply Forall_cons in Hc as [_ Hc]. by split.
Qed.

Lemma every_operation_keeps_the_records o :
  stable (keeps records_well_formed) (perform o).
Proof.
  apply methods_perform; try apply _;
    try framed records same_records_keeps.
  - apply handle_inference_result_keeps_records.
  - apply handle_safety_result_keeps_records.
  - apply start_evaluate_safety_keeps_records.
  - apply api_submit_job_keeps_records.
Qed.

(** X11.  The records of the pipeline are well formed.  In every state
    reachable from a constructed manager, every record pending the safety
    check or being checked holds an image list and has [censored] unset,
    and every record in [completed_jobs] holds an image list and has
    [censored] set: [is_job_checked_for_safety] is true exactly on the
    records of [completed_jobs].  So [api_submit_job] and
    [start_evaluate_safety] never meet a record without images, and
    [api_submit_job] never one without a verdict. *)
Theorem pipeline_records_are_well_formed
    (bd : reGenBridgeData) (system_ram : Z)
    (reference : gmap string StableDiffusion_ModelRecord)
    (overhead max_inference max_safety max_download max_concurrent : Z)
    (s0 s : Manager) :
  new_manager bd system_ram reference overhead max_inference max_safety
    max_download max_concurrent = Some s0 →
  reachable s0 s →
  (∀ c, c ∈ jobs_pending_safety_check s ++ jobs_being_safety_checked s →
        is_Some (job_result_images_base64 c)
        ∧ is_job_checked_for_safety c = false)
  ∧ (∀ c, c ∈ completed_jobs s →
          is_Some (job_result_images_base64 c)
          ∧ is_job_checked_for_safety c = true).
Proof.
  intros Hnew Hreach.
  assert (records_well_formed s0) as H0.
  { unfold new_manager in Hnew. repeat case_bool_decide; try done.
    injection Hnew as <-. by split. }
  destruct (reachable_keeps records_well_formed s0 s
              every_operation_keeps_the_records H0 Hreach) as (Hp & Hb & Hc).
  unfold is_job_checked_for_safety. split.
  - intros c [Hin|Hin]%elem_of_app.
    + destruct (proj1 (Forall_forall _ _) Hp c Hin) as [? Hnone].
      split; [done|]. rewrite Hnone. by rewrite bool_decide_false by (by intros ?).
    + destruct (proj1 (Forall_forall _ _) Hb c Hin) as [? Hnone].
      split; [done|]. rewrite Hnone. by rewrite bool_decide_false by (by intros ?).
  - intros c Hin.
    destruct (proj1 (Forall_forall _ _) Hc c Hin) as [? [v Hv]].
    split; [done|]. rewrite Hv. by rewrite bool_decide_true.
Qed.

Lemma reachable_after ops s0 : reachable s0 (after ops s0).
Proof.
  unfold after. induction ops as [|o ops IH] using rev_ind; [apply reachable_start|].
  rewrite foldl_app. simpl. by apply reachable_step.
Qed.

Lemma pipeline_records_are_well_formed_witness :
  let s := after PipelineExample.screened Examples.fresh in
  new_manager Examples.bd 17179869184 Examples.catalogue 2147483648 3 1 1 1
    = Some Examples.fresh
  ∧ reachable Examples.fresh s
  ∧ completed_jobs s = [Examples.record "j1" (Some ["image"]) (Some false)]
  ∧ ∀ c, c ∈ completed_jobs s →
         is_Some (job_result_images_base64 c)
         ∧ is_job_checked_for_safety c = true.
Proof.
  intros s.
  assert (Hr : reachable Examples.fresh s) by apply reachable_after.
  split; [reflexivity|]. split; [exact Hr|]. split; [by vm_compute|].
  exact (proj2 (pipeline_records_are_well_formed Examples.bd 17179869184
                  Examples.catalogue 2147483648 3 1 1 1 Examples.fresh s eq_refl Hr)).
Defined.
(** ** The job deque *)

#[local] Instance deque_kept_preorder : PreOrder deque_kept.
Proof.
  split.
  - intros s. by split.
  - intros s1 s2 s3 [H1 H2] [H3 H4]. split; [congruence | auto].
Qed.

Lemma same_deque_kept s s' :
  same_on (λ s, (bridge_data s, job_deque s)) s s' → deque_kept s s'.
Proof.
  unfold same_on, deque_kept, deque_within_bound. intros [= -> ->]. by split.
Qed.

Lemma handle_inference_result_keeps_deque job images st :
  stable deque_kept (handle_inference_result job images st).
Proof.
  intros s. unfold handle_inference_result, job_deque_popleft.
  destruct images as [images|]; [|by split].
  unfold deque_kept, deque_within_bound.
  run. case_bool_decide; run; destruct (job_deque s) as [|j rest] eqn:Hdq; run;
    (split; [done|]); intros [Hlen Hids]; rewrite ?Hdq;
    (split; [cbn [length] in *; lia|]); try done;
    by apply Forall_cons in Hids as [_ Hids].
Qed.

Lemma api_job_pop_keeps_deque w : stable deque_kept (api_job_pop w).
Proof.
  intros s.
  assert (Hbd : bridge_data (final (api_job_pop w s)) = bridge_data s).
  { apply (stable_api_job_pop (same_on bridge_data)); try apply _; frame_write. }
  split; [done|]. unfold deque_within_bound. rewrite Hbd. intros [Hlen Hids].
  destruct (decide (Z.of_nat (length (job_deque s))
                    < queue_size (bridge_data s) + 1)) as [Hq|Hq];
    [|rewrite api_job_pop_not_due; [done | by intros (? & _)]].
  destruct (decide (_testing_jobs_added s < _testing_max_jobs)) as [Hc|Hc];
    [|rewrite api_job_pop_not_due; [done | by intros (_ & ? & _)]].
  destruct (Qlt_le_dec (time_at_check w - _last_job_pop_time s)
              (_job_pop_frequency s)) as [Hf|Hf].
  { rewrite api_job_pop_not_due; [done|].
    intros (_ & _ & H). apply (Qlt_not_le _ _ Hf H). }
  assert (Hdue : pop_due w s) by done.
  destruct (request_built w) eqn:Hbuilt.
  - destruct (job_pop_response w) as [e| |j] eqn:Hr.
    + destruct (api_job_pop_failed w s Hdue) as [_ ->]; [|done].
      right; right; eauto.
    + destruct (api_job_pop_failed w s Hdue) as [_ ->]; [|done].
      right; left; eauto.
    + pose proof (api_job_pop_answered w s j Hdue Hbuilt Hr) as Hrun.
      destruct (id_ j) eqn:Hid; rewrite Hrun; [|done]. simpl.
      rewrite length_app. simpl. split; [lia|].
      apply Forall_app. split; [done|]. apply Forall_singleton. by rewrite Hid.
  - destruct (api_job_pop_failed w s Hdue) as [_ ->]; [|done]. by left.
Qed.

Lemma every_operation_keeps_the_deque o : stable deque_kept (perform o).
Proof.
  apply methods_perform; try apply _;
    try framed (λ s, (bridge_data s, job_deque s)) same_deque_kept.
  - apply handle_inference_result_keeps_deque.
  - apply api_job_pop_keeps_deque.
Qed.

(** X12.  The job deque is bounded.  In every state reachable from a
    constructed manager the deque holds at most [queue_size + 1] jobs
    (none when that is negative), and every job in it has an id:
    [api_job_pop] is the only method that appends, it appends one job and
    only below the bound, and it drops a popped job without id. *)
Theorem job_deque_is_bounded
    (bd : reGenBridgeData) (system_ram : Z)
    (reference : gmap string StableDiffusion_ModelRecord)
    (overhead max_inference max_safety max_download max_concurrent : Z)
    (s0 s : Manager) :
  new_manager bd system_ram reference overhead max_inference max_safety
    max_download max_concurrent = Some s0 →
  reachable s0 s →
  bridge_data s = bd
  ∧ Z.of_nat (length (job_deque s)) ≤ Z.max 0 (queue_size bd + 1)
  ∧ ∀ j, j ∈ job_deque s → is_Some (id_ j).
Proof.
  intros Hnew Hreach.
  assert (bridge_data s0 = bd ∧ deque_within_bound s0) as [Hbd H0].
  { unfold new_manager in Hnew. repeat case_bool_decide; try done.
    injection Hnew as <-. split; [done|]. split; [simpl; lia | done]. }
  destruct (reachable_stable deque_kept s0 s every_operation_keeps_the_deque Hreach)
    as [Hsame Hkept].
  destruct (Hkept H0) as [Hlen Hids]. rewrite Hsame, Hbd in Hlen.
  split; [congruence|]. split; [done|]. by apply Forall_forall.
Qed.

Lemma job_deque_is_bounded_witness :
  let s := after PipelineExample.generated Examples.fresh in
  new_manager Examples.bd 17179869184 Examples.catalogue 2147483648 3 1 1 1
    = Some Examples.fresh
  ∧ reachable Examples.fresh s
  ∧ bridge_data s = Examples.bd
  ∧ Z.of_nat (length (job_deque s)) ≤ Z.max 0 (queue_size Examples.bd + 1)
  ∧ ∀ j, j ∈ job_deque s → is_Some (id_ j).
Proof.
  intros s.
  assert (Hr : reachable Examples.fresh s) by apply reachable_after.
  split; [reflexivity|]. split; [exact Hr|].
  exact (job_deque_is_bounded Examples.bd 17179869184 Examples.catalogue
           2147483648 3 1 1 1 Examples.fresh s eq_refl Hr).
Defined.

(** ** The model map *)

Lemma model_map_update_entry_keeps_keys name st pid :
  stable (keeps model_map_keyed) (model_map_update_entry name st pid).
Proof.
  assert (Halter : ∀ f (m : gmap string ModelInfo.t),
            (∀ mi, ModelInfo.horde_model_name (f mi) = ModelInfo.horde_model_name mi) →
            (∀ n mi, m !! n = Some mi → ModelInfo.horde_model_name mi = n) →
            ∀ n mi, alter f name m !! n = Some mi → ModelInfo.horde_model_name mi = n).
  { intros f m Hf Hm n mi. destruct (decide (n = name)) as [->|Hne].
    - rewrite lookup_alter_eq. destruct (m !! name) as [mi0|] eqn:H0; [|done].
      intros [= <-]. rewrite Hf. by apply Hm.
    - rewrite lookup_alter_ne by done. apply Hm. }
  apply (stable_bind _); [apply (stable_get _)|]. intros s0.
  apply (stable_bind _); [|intros []; apply (stable_bind _); [|intros []]].
  - case_bool_decide; [|apply (stable_ret _)].
    destruct pid as [pid|]; [|apply (stable_raise _)].
    destruct st as [st|]; [|apply (stable_raise _)].
    intros s Hs n mi. simpl. destruct (decide (n = name)) as [->|Hne].
    + rewrite lookup_insert_eq. by intros [= <-].
    + rewrite lookup_insert_ne by done. apply Hs.
  - destruct st as [st|]; [|apply (stable_ret _)].
    intros s Hs. unfold model_map_keyed. simpl. by apply Halter.
  - destruct pid as [pid|]; [|apply (stable_ret _)].
    intros s Hs. unfold model_map_keyed. simpl. by apply Halter.
Qed.

Lemma every_operation_keeps_the_model_keys o :
  stable (keeps model_map_keyed) (perform o).
Proof.
  assert (Hsub : ∀ s s', same_on _horde_model_map s s' → keeps model_map_keyed s s').
  { unfold same_on, keeps, model_map_keyed. intros s s' ->. done. }
  apply methods_perform; try apply _; try framed _horde_model_map Hsub.
  apply model_map_update_entry_keeps_keys.
Qed.

Lemma set_horde_model_map_same s : set_horde_model_map (_horde_model_map s) s = s.
Proof. by destruct s. Qed.

(** X13.  [HordeModelMap.update_entry].  The method has no effect outside
    the model map and leaves the entries of the other models alone.  For a
    model already in the map it returns, having assigned the load state
    and the process id that were given (a [None] keeps the recorded
    value).  For a model not yet in the map it needs both: with both it
    files a new entry under the model's name, with one missing it raises
    [ValueError] and changes nothing. *)
Theorem model_map_update_entry_characterised
    (name : string) (st : option ModelLoadState) (pid : option Z) (s : Manager) :
  let r := model_map_update_entry name st pid s in
  effects r = []
  ∧ final r = set_horde_model_map (_horde_model_map (final r)) s
  ∧ (∀ other, other ≠ name →
       _horde_model_map (final r) !! other = _horde_model_map s !! other)
  ∧ match _horde_model_map s !! name, st, pid with
    | Some mi, _, _ =>
        outcome r = Ret tt
        ∧ _horde_model_map (final r) !! name = Some (updated_model_info mi st pid)
    | None, Some st', Some pid' =>
        outcome r = Ret tt
        ∧ _horde_model_map (final r) !! name
          = Some {| ModelInfo.horde_model_name := name;
                    ModelInfo.horde_model_load_state := st';
                    ModelInfo.process_id := pid' |}
    | None, _, _ => r = raises_at_once ValueError s
    end.
Proof.
  unfold model_map_update_entry. rewrite get_bind.
  destruct (_horde_model_map s !! name) as [mi|] eqn:Hname.
  - rewrite bool_decide_false by done.
    destruct st as [st|], pid as [pid|]; run;
      rewrite ?set_horde_model_map_same;
      (split; [done|]); (split; [done|]);
      (split; [intros other Hother; by rewrite ?lookup_alter_ne by done|]);
      (split; [done|]);
      rewrite ?lookup_alter_eq, ?Hname; by destruct mi.
  - rewrite bool_decide_true by done.
    destruct st as [st|], pid as [pid|]; run;
      rewrite ?set_horde_model_map_same;
      (split; [done|]); (split; [done|]);
      (split; [intros other Hother;
               by rewrite ?lookup_alter_ne, ?lookup_insert_ne by done|]);
      try done.
    split; [done|]. by rewrite !lookup_alter_eq, lookup_insert_eq.
Qed.

(** X14.  The model map is keyed by model name.  In every state
    reachable from a constructed manager, the entry filed under a name
    carries that name as its [horde_model_name]. *)
Theorem model_map_is_keyed_by_name
    (bd : reGenBridgeData) (system_ram : Z)
    (reference : gmap string StableDiffusion_ModelRecord)
    (overhead max_inference max_safety max_download max_concurrent : Z)
    (s0 s : Manager) (name : string) (mi : ModelInfo.t) :
  new_manager bd system_ram reference overhead max_inference max_safety
    max_download max_concurrent = Some s0 →
  reachable s0 s →
  _horde_model_map s !! name = Some mi →
  ModelInfo.horde_model_name mi = name.
Proof.
  intros Hnew Hreach.
  apply (reachable_keeps model_map_keyed s0 s
           every_operation_keeps_the_model_keys); [|done].
  unfold new_manager in Hnew. repeat case_bool_decide; try done.
  injection Hnew as <-. by intros n m.
Qed.

Lemma model_map_is_keyed_by_name_witness :
  let s := after [do_start_inference_processes;
                  message_arrives (HordeModelStateChangeMessage 0 "A" LOADED_IN_RAM);
                  do_receive_and_handle_process_messages] Examples.fresh in
  let mi := {| ModelInfo.horde_model_name := "A";
               ModelInfo.horde_model_load_state := LOADED_IN_RAM;
               ModelInfo.process_id := 0 |} in
  new_manager Examples.bd 17179869184 Examples.catalogue 2147483648 3 1 1 1
    = Some Examples.fresh
  ∧ reachable Examples.fresh s
  ∧ _horde_model_map s !! "A" = Some mi
  ∧ ModelInfo.horde_model_name mi = "A".
Proof.
  intros s mi.
  assert (Hr : reachable Examples.fresh s) by apply reachable_after.
  assert (Hmi : _horde_model_map s !! "A" = Some mi) by (by vm_compute).
  split; [reflexivity|]. split; [exact Hr|]. split; [exact Hmi|].
  exact (model_map_is_keyed_by_name Examples.bd 17179869184 Examples.catalogue
           2147483648 3 1 1 1 Examples.fresh s "A" mi eq_refl Hr Hmi).
Defined.

(** ** Reports the dispatcher cannot handle *)

Lemma pm_contains_false pid (m : ProcessMap) :
  pm_contains pid m = false ↔ pm_get pid m = None.
Proof.
  unfold pm_contains. destruct (pm_get pid m) as [p|].
  - rewrite bool_decide_true by (by eexists). done.
  - rewrite bool_decide_false by (by intros [? ?]). done.
Qed.

Lemma pm_contains_true pid (m : ProcessMap) :
  pm_contains pid m = true ↔ is_Some (pm_get pid m).
Proof. unfold pm_contains. by rewrite bool_decide_eq_true. Qed.

Lemma handle_process_message_known message s :
  pm_contains (message_process_id message) (_process_map s) = true →
  handle_process_message message s
  = match message with
    | HordeProcessStateChangeMessage pid process_state _ =>
        process_map_update_entry pid (Some process_state) None None None None
    | HordeModelStateChangeMessage pid name horde_model_state =>
        model_map_update_entry name (Some horde_model_state) (Some pid);;
        match horde_model_state with
        | LOADED_IN_VRAM | LOADED_IN_RAM =>
            process_map_update_entry pid None (Some name) None None None
        | ON_DISK =>
            process_map_update_entry pid None None None None None
        | LOADING => mret tt
        end
    | HordeProcessMemoryMessage pid ram vram vram_total =>
        process_map_update_entry pid None None (Some ram) (Some vram) (Some vram_total)
    | HordeInferenceResultMessage _ job images st =>
        handle_inference_result job images st
    | HordeSafetyResultMessage _ job_id safety_evaluations =>
        handle_safety_result job_id safety_evaluations
    end s.
Proof.
  intros Hknown. unfold handle_process_message. rewrite get_bind. by rewrite Hknown.
Qed.

(** X15.  A report from a process that is not registered is fatal.
    Whatever its kind, a message whose [process_id] is not in the process
    map makes the dispatcher raise [ValueError] before anything is
    written or sent; [receive_and_handle_process_messages] ends with that
    exception, the message taken off the channel and the ones behind it
    left there. *)
Theorem report_of_an_unknown_process_is_fatal
    (message : HordeProcessMessage) (rest : list HordeProcessMessage) (s : Manager) :
  pm_contains (message_process_id message) (_process_map s) = false →
  _process_message_queue s = message :: rest →
  handle_process_message message s = raises_at_once ValueError s
  ∧ receive_and_handle_process_messages s
    = raises_at_once ValueError (set_process_message_queue rest s).
Proof.
  intros Hunknown Hqueue.
  assert (Hraise : ∀ s, pm_contains (message_process_id message) (_process_map s) = false →
            handle_process_message message s = raises_at_once ValueError s).
  { intros s1 H1. unfold handle_process_message. rewrite get_bind. by rewrite H1. }
  split; [by apply Hraise|].
  unfold receive_and_handle_process_messages. rewrite get_bind, Hqueue.
  cbn [drain_messages]. unfold mbind, M_bind, bind, modify.
  by rewrite Hraise.
Qed.

Lemma report_of_an_unknown_process_is_fatal_witness :
  let m := HordeProcessStateChangeMessage 7 WAITING_FOR_JOB "ready" in
  let s := set_process_message_queue [m; m] Examples.staffed in
  pm_contains 7 (_process_map s) = false
  ∧ outcome (receive_and_handle_process_messages s) = Raise ValueError
  ∧ _process_message_queue (final (receive_and_handle_process_messages s)) = [m].
Proof.
  intros m s. split; [reflexivity|].
  destruct (report_of_an_unknown_process_is_fatal m [m] s eq_refl eq_refl) as [_ ->].
  by split.
Defined.

(** X16.  An inference result that meets an empty deque is lost.  For a
    message with images from a registered process, handled while
    [job_deque] is empty, [popleft] raises [IndexError] after the job has
    been removed from [jobs_in_progress]: no record is created, the total
    is not incremented, and the exception leaves the dispatcher. *)
Theorem inference_result_on_an_empty_deque_is_lost
    (pid : Z) (job : ImageGenerateJobPopResponse) (images : list string)
    (st : GENERATION_STATE) (s : Manager) :
  pm_contains pid (_process_map s) = true →
  job_deque s = [] →
  let r := handle_process_message
             (HordeInferenceResultMessage pid job (Some images) st) s in
  outcome r = Raise IndexError
  ∧ final r = set_jobs_in_progress
                (filter (λ j, id_ j ≠ id_ job) (jobs_in_progress s)) s
  ∧ jobs_pending_safety_check (final r) = jobs_pending_safety_check s
  ∧ total_num_completed_jobs (final r) = total_num_completed_jobs s
  ∧ ∀ pid' m, EvSend pid' m ∉ effects r.
Proof.
  intros Hknown Hdeque r. subst r.
  rewrite handle_process_message_known by done.
  unfold handle_inference_result, job_deque_popleft. run.
  case_bool_decide; run; rewrite Hdeque; run;
    (split; [done|]); (split; [done|]); (split; [done|]); (split; [done|]);
    intros pid' m Hin;
    repeat (apply elem_of_cons in Hin as [Hin|Hin]; [done|]);
    by apply elem_of_nil in Hin.
Qed.

Lemma inference_result_on_an_empty_deque_is_lost_witness :
  let s := set_jobs_in_progress [Examples.job "j1" "A"] Examples.staffed in
  let r := handle_process_message
             (HordeInferenceResultMessage 1 (Examples.job "j1" "A")
                (Some ["image"]) gs_ok) s in
  job_deque s = []
  ∧ outcome r = Raise IndexError
  ∧ jobs_in_progress (final r) = []
  ∧ jobs_pending_safety_check (final r) = [].
Proof.
  intros s r. split; [reflexivity|].
  destruct (inference_result_on_an_empty_deque_is_lost 1 (Examples.job "j1" "A")
              ["image"] gs_ok s eq_refl eq_refl) as (Ho & Hf & Hp & _).
  split; [exact Ho|]. split; [|exact Hp].
  unfold r. rewrite Hf. reflexivity.
Defined.

Lemma apply_safety_evaluations_short indices evaluations :
  ∀ acc,
    Exists (λ i, evaluations !! i = None) indices →
    apply_safety_evaluations indices evaluations acc = Raise IndexError.
Proof.
  induction indices as [|i indices IH]; intros acc Hshort;
    [by apply Exists_nil in Hshort|].
  simpl. destruct (evaluations !! i) as [evaluation|] eqn:Hi; [|done].
  apply Exists_cons in Hshort as [Hshort|Hshort]; [congruence|].
  destruct (replacement_image_base64 evaluation); [|by apply IH].
  destruct acc as [[images n] k]. by apply IH.
Qed.

Lemma pop_by_job_id_not_found job_id l :
  (pop_by_job_id job_id l).1 = None → (pop_by_job_id job_id l).2 = l.
Proof.
  induction l as [|c l IH]; simpl; [done|].
  case_bool_decide; simpl; [done|]. intros Hnone. by rewrite IH.
Qed.

(** X17.  A safety result that cannot be applied.  For a message from a
    registered process: when no record being checked has the job id, the
    dispatcher raises [ValueError] and the manager is unchanged; when the
    record is found but the message brings fewer evaluations than the
    record has images, it raises [IndexError] after the record has been
    taken out of [jobs_being_safety_checked], so the record is in none of
    the lists any more and is never submitted. *)
Theorem safety_result_that_cannot_be_applied
    (pid : Z) (job_id : string) (evaluations : list HordeSafetyEvaluation)
    (s : Manager) :
  pm_contains pid (_process_map s) = true →
  let r := handle_process_message
             (HordeSafetyResultMessage pid job_id evaluations) s in
  let found := pop_by_job_id job_id (jobs_being_safety_checked s) in
  (found.1 = None → r = raises_at_once ValueError s)
  ∧ (∀ c images,
       found.1 = Some c →
       job_result_images_base64 c = Some images →
       (length evaluations < length images)%nat →
       r = raises_at_once IndexError (set_jobs_being_safety_checked found.2 s)
       ∧ length (jobs_being_safety_checked s) = S (length found.2)).
Proof.
  intros Hknown r found. subst r.
  rewrite handle_process_message_known by done.
  unfold handle_safety_result. rewrite get_bind. fold found.
  pose proof (pop_by_job_id_length job_id (jobs_being_safety_checked s)) as Hlen.
  fold found in Hlen. split.
  - intros Hnone.
    pose proof (pop_by_job_id_not_found job_id _ Hnone) as Hsame.
    fold found in Hsame. rewrite Hnone, Hsame. run.
    unfold raises_at_once. f_equal. by destruct s.
  - intros c images Hc Himages Hshort. rewrite Hc in *. run.
    rewrite Himages. split; [|lia].
    rewrite apply_safety_evaluations_short; [done|].
    apply Exists_exists. exists (length evaluations). split.
    + apply elem_of_seq. lia.
    + by apply lookup_ge_None_2.
Qed.

Lemma safety_result_that_cannot_be_applied_witness :
  let s := set_jobs_being_safety_checked
             [Examples.record "j1" (Some ["image"]) None] Examples.staffed in
  let r := handle_process_message (HordeSafetyResultMessage 0 "j1" []) s in
  pm_contains 0 (_process_map s) = true
  ∧ outcome r = Raise IndexError
  ∧ jobs_being_safety_checked (final r) = []
  ∧ completed_jobs (final r) = [].
Proof.
  intros s r. split; [reflexivity|].
  destruct (proj2 (safety_result_that_cannot_be_applied 0 "j1" [] s eq_refl)
              (Examples.record "j1" (Some ["image"]) None) ["image"]
              eq_refl eq_refl ltac:(simpl; lia)) as [Hr _].
  unfold r. rewrite Hr. by split.
Defined.

(** ** State and memory reports *)

Lemma pm_set_set pid v w (m : ProcessMap) :
  pm_set pid w (pm_set pid v m) = pm_set pid w m.
Proof.
  induction m as [|[k p] m IH]; simpl.
  - by rewrite bool_decide_true.
  - case_bool_decide as Hk; simpl.
    + by rewrite bool_decide_true.
    + rewrite bool_decide_false by done. by rewrite IH.
Qed.

Lemma process_setattr_run pid f p s :
  pm_get pid (_process_map s) = Some p →
  process_setattr pid f s
  = {| outcome := Ret tt;
       final := set_process_map (pm_set pid (f p) (_process_map s)) s;
       effects := [] |}.
Proof. intros Hp. unfold process_setattr. rewrite get_bind. by rewrite Hp. Qed.

(** X18.  State and memory reports.  A [HordeProcessStateChangeMessage]
    from a registered process assigns the reported state to that
    process's [last_process_state], a [HordeProcessMemoryMessage] assigns
    the three usage figures; either returns, sends nothing and writes
    nothing else: the entries of the other processes, and the kind, id and
    resident model of the reporting one, are as before. *)
Theorem state_and_memory_reports (pid : Z) (p : HordeProcessInfo) (s : Manager) :
  pm_get pid (_process_map s) = Some p →
  (∀ st info,
     handle_process_message (HordeProcessStateChangeMessage pid st info) s
     = {| outcome := Ret tt;
          final := set_process_map
                     (pm_set pid (with_last_process_state st p) (_process_map s)) s;
          effects := [] |})
  ∧ (∀ ram vram vram_total,
       handle_process_message (HordeProcessMemoryMessage pid ram vram vram_total) s
       = {| outcome := Ret tt;
            final := set_process_map
                       (pm_set pid (with_memory ram vram vram_total p)
                          (_process_map s)) s;
            effects := [] |})
  ∧ (∀ v pid', pid' ≠ pid →
       pm_get pid' (pm_set pid v (_process_map s)) = pm_get pid' (_process_map s)).
Proof.
  intros Hp.
  assert (Hknown : pm_contains pid (_process_map s) = true)
    by (apply pm_contains_true; by eexists).
  split; [|split].
  - intros st info. rewrite handle_process_message_known by done.
    unfold process_map_update_entry, setattr_if_not_None.
    unfold mbind, M_bind, bind. rewrite (process_setattr_run pid _ p) by done.
    reflexivity.
  - intros ram vram vram_total. rewrite handle_process_message_known by done.
    unfold process_map_update_entry, setattr_if_not_None.
    unfold mbind, M_bind, bind, mret, M_ret, ret.
    rewrite (process_setattr_run pid _ p) by done.
    rewrite (process_setattr_run pid _ (with_ram_usage_bytes ram p))
      by (cbn; rewrite pm_get_set; by rewrite bool_decide_true).
    rewrite (process_setattr_run pid _
               (with_vram_usage_bytes vram (with_ram_usage_bytes ram p)))
      by (cbn; rewrite pm_get_set; by rewrite bool_decide_true).
    cbn. by rewrite !pm_set_set.
  - intros v pid' Hne. rewrite pm_get_set. by rewrite bool_decide_false.
Qed.

Lemma state_and_memory_reports_witness :
  let s := Examples.staffed in
  let r := handle_process_message (HordeProcessMemoryMessage 1 100 20 80) s in
  pm_get 1 (_process_map s) = Some (new_HordeProcessInfo 1 INFERENCE WAITING_FOR_JOB)
  ∧ outcome r = Ret tt
  ∧ (ram_usage_bytes <$> pm_get 1 (_process_map (final r))) = Some 100
  ∧ pm_get 0 (_process_map (final r)) = pm_get 0 (_process_map s).
Proof.
  intros s r. split; [reflexivity|].
  destruct (state_and_memory_reports 1 _ s eq_refl) as (_ & Hmemory & _).
  unfold r. rewrite Hmemory. by split.
Defined.

(** ** The scheduler's methods, case by case *)

(** X19.  [start_evaluate_safety] moves the head of the pending records.
    With no pending record, or no safety process that can accept a job, it
    does nothing.  Otherwise, for a head record with at most one image, an
    id, a model and a prompt, it moves that record to the end of
    [jobs_being_safety_checked] and sends one EVALUATE_SAFETY request with
    the record's images, prompt and censor flag to the first available
    safety process; when the model is not in the reference it raises
    [KeyError] after the move, and nothing is sent. *)
Theorem start_evaluate_safety_moves_the_head (s : Manager) :
  (jobs_pending_safety_check s = []
   ∨ get_first_available_safety_process (_process_map s) = None →
   start_evaluate_safety s = no_op s)
  ∧ ∀ c rest p images job_id model_name the_prompt reference,
      jobs_pending_safety_check s = c :: rest →
      get_first_available_safety_process (_process_map s) = Some p →
      job_result_images_base64 c = Some images →
      (length images ≤ 1)%nat →
      id_ (job_info c) = Some job_id →
      model (job_info c) = Some model_name →
      prompt (payload (job_info c)) = Some the_prompt →
      stable_diffusion_reference s = Some reference →
      screening_started s c rest p images job_id model_name the_prompt reference
        (start_evaluate_safety s).
Proof.
  split.
  - intros Hnothing. unfold start_evaluate_safety. rewrite get_bind.
    destruct (jobs_pending_safety_check s) as [|c rest]; [done|].
    by destruct Hnothing as [?| ->].
  - intros c rest p images job_id model_name the_prompt reference
      Hpending Hp Himages Hone Hid Hmodel Hprompt Href.
    unfold screening_started, start_evaluate_safety. rewrite get_bind.
    rewrite Hpending, Hp, Himages, Hid, Hmodel, Hprompt, Href.
    rewrite bool_decide_false by lia.
    rewrite list_remove_first_head. run.
    by destruct (reference !! model_name).
Qed.

Lemma start_evaluate_safety_moves_the_head_witness :
  let c := Examples.record "j1" (Some ["image"]) None in
  let s := set_jobs_pending_safety_check [c] Examples.staffed in
  let r := start_evaluate_safety s in
  outcome r = Ret tt
  ∧ jobs_pending_safety_check (final r) = []
  ∧ jobs_being_safety_checked (final r) = [c]
  ∧ effects r
    = [EvSend 0 (HordeSafetyControlMessage EVALUATE_SAFETY "j1" ["image"] "a cat"
                   false false {| baseline := "stable_diffusion_1" |})].
Proof.
  intros c s r.
  destruct (proj2 (start_evaluate_safety_moves_the_head s) c []
              (new_HordeProcessInfo 0 SAFETY WAITING_FOR_JOB) ["image"]
              "j1" "A" "a cat" Examples.catalogue
              eq_refl eq_refl eq_refl ltac:(simpl; lia) eq_refl eq_refl eq_refl eq_refl)
    as [Hfinal Hsent].
  change (Examples.catalogue !! "A") with (Some {| baseline := "stable_diffusion_1" |})
    in Hsent.
  destruct Hsent as [Ho He].
  split; [exact Ho|]. unfold r. rewrite Hfinal. split; [reflexivity|].
  split; [reflexivity|]. exact He.
Defined.

Lemma unload_vram_of_others_effects ps chosen s pid m :
  EvSend pid m ∈ effects (unload_vram_of_others ps chosen s) →
  pid ≠ chosen
  ∧ ∃ q name,
      q ∈ ps ∧ process_id q = pid ∧ is_process_busy q = false
      ∧ loaded_horde_model_name q = Some name
      ∧ m = HordeControlModelMessage UNLOAD_MODELS_FROM_VRAM name.
Proof.
  induction ps as [|p ps IH]; [by intros ?%elem_of_nil|].
  cbn [unload_vram_of_others]. rewrite effects_bind.
  assert (Htail : EvSend pid m ∈ effects (unload_vram_of_others ps chosen s) →
            pid ≠ chosen
            ∧ ∃ q name,
                q ∈ p :: ps ∧ process_id q = pid ∧ is_process_busy q = false
                ∧ loaded_horde_model_name q = Some name
                ∧ m = HordeControlModelMessage UNLOAD_MODELS_FROM_VRAM name).
  { intros Hin. destruct (IH Hin) as (Hne & q & name & Hq & Hrest).
    split; [done|]. exists q, name. split; [|done]. apply elem_of_cons. by right. }
  case_bool_decide as Hchosen; [exact Htail|].
  destruct (is_process_busy p) eqn:Hbusy; [exact Htail|].
  destruct (loaded_horde_model_name p) as [name|] eqn:Hname; [|exact Htail].
  cbn. intros [Hhere|Hin]%elem_of_cons.
  - injection Hhere as -> ->. split; [done|]. exists p, name.
    split; [apply elem_of_cons; by left|]. done.
  - apply elem_of_cons in Hin as [?|Hin]; [done|]. by apply Htail.
Qed.

Lemma head_filter_Some {A} (P : A → Prop) `{∀ x, Decision (P x)} (l : list A) x :
  head (filter P l) = Some x → x ∈ l ∧ P x.
Proof.
  intros Hx. apply head_Some_elem_of in Hx.
  apply list_elem_of_filter in Hx as [? ?]. done.
Qed.

(** X20.  [start_inference], case by case.  Either it leaves the manager
    as it was and sends nothing to any process, or it starts exactly one
    job: fewer jobs than [max_concurrent_inference_processes] are in
    progress, the job is the first of the deque that is not in progress,
    its model is loaded, and the first process recorded with that model
    can accept a job.  Then the job is appended to [jobs_in_progress] and
    the last effect is the START_INFERENCE request to that process; the
    only requests before it ask other idle processes that hold a model to
    unload it from VRAM. *)
Theorem start_inference_characterised (s : Manager) :
  let r := start_inference s in
  (final r = s ∧ ∀ pid m, EvSend pid m ∉ effects r)
  ∨ ∃ next_job name p, inference_started s next_job name p r.
Proof.
  unfold start_inference. rewrite get_bind.
  assert (Hnone : ∀ pid m, EvSend pid m ∉ ([] : list Event))
    by (intros pid m; apply not_elem_of_nil).
  case_bool_decide as Hcap; [by left|].
  destruct (next_job_to_start s) as [next_job|] eqn:Hnext; [|by left].
  destruct (model next_job) as [name|] eqn:Hmodel; [|by left].
  destruct (is_model_loaded name (_horde_model_map s)) eqn:Hloaded; [|by left].
  destruct (get_process_by_horde_model_name name (_process_map s)) as [p|] eqn:Hp.
  2:{ left. split; [done|]. intros pid m [?|?%elem_of_nil]%elem_of_cons; done. }
  destruct (can_accept_job p) eqn:Haccept; [|by left].
  right. exists next_job, name, p.
  destruct (head_filter_Some _ _ _ Hnext) as [Hdeque Hfree].
  pose proof (unload_vram_of_others_effects (pm_values (_process_map s))
                (process_id p) s) as Hunloads.
  destruct (unload_vram_of_others_run (pm_values (_process_map s)) (process_id p) s)
    as [Ho Hf].
  cbn [negb]. run.
  destruct (unload_vram_of_others (pm_values (_process_map s)) (process_id p) s)
    as [o s1 unloads].
  simpl in Ho, Hf, Hunloads. subst o s1. run.
  unfold inference_started. split_and!; try done; [lia|].
  exists unloads. split; [done|]. intros pid m Hin. by apply Hunloads.
Qed.

Lemma start_inference_characterised_witness :
  let s := set_job_deque [Examples.job "j1" "A"] ResidencyExample.loaded in
  ∃ next_job name p, inference_started s next_job name p (start_inference s).
Proof.
  intros s. destruct (start_inference_characterised s) as [[Hsame _]|Hstarted];
    [|exact Hstarted].
  apply (f_equal jobs_in_progress) in Hsame. vm_compute in Hsame. done.
Defined.

(** X21.  [unload_from_ram] cannot be repeated.  A successful call sets
    the model ON_DISK but leaves the process recorded with the model
    ([update_entry] is given [loaded_horde_model_name=None], which assigns
    nothing).  So a second call for the same process, with no report
    handled in between, finds a process that holds a model which is not
    loaded: it raises [ValueError], sends nothing and changes nothing. *)
Theorem unload_from_ram_cannot_be_repeated (pid : Z) (s : Manager) :
  outcome (unload_from_ram pid s) = Ret tt →
  let s' := final (unload_from_ram pid s) in
  resident_model s' pid = resident_model s pid
  ∧ is_Some (resident_model s' pid)
  ∧ unload_from_ram pid s' = raises_at_once ValueError s'.
Proof.
  intros Hreturned.
  assert (∃ p name,
            pm_get pid (_process_map s) = Some p
            ∧ loaded_horde_model_name p = Some name
            ∧ final (unload_from_ram pid s)
              = final (model_map_update_entry name (Some ON_DISK) (Some pid) s))
    as (p & name & Hp & Hname & ->).
  { revert Hreturned. unfold unload_from_ram. rewrite get_bind.
    destruct (pm_get pid (_process_map s)) as [p|] eqn:Hp; [|done].
    destruct (loaded_horde_model_name p) as [name|] eqn:Hname; [|done].
    destruct (is_model_loaded name (_horde_model_map s)); [|done].
    intros _. exists p, name. split; [done|]. split; [done|].
    destruct (model_map_update_entry_run name ON_DISK pid s) as (Ho & _).
    cbn [negb]. rewrite final_bind. cbn. by rewrite final_bind, Ho. }
  destruct (model_map_update_entry_run name ON_DISK pid s)
    as (_ & _ & Hpm & Hstate & _).
  set (s1 := final (model_map_update_entry _ _ _ s)) in *. cbv zeta.
  unfold resident_model. rewrite Hpm, Hp. cbn. rewrite Hname.
  split; [done|]. split; [by eexists|].
  unfold unload_from_ram. rewrite get_bind, Hpm, Hp, Hname.
  assert (is_model_loaded name (_horde_model_map s1) = false) as ->; [|done].
  unfold is_model_loaded. unfold load_state_of in Hstate.
  destruct (_horde_model_map s1 !! name) as [mi|]; [|done].
  by injection Hstate as ->.
Qed.

Lemma unload_from_ram_cannot_be_repeated_witness :
  let s := ResidencyExample.loaded in
  let s' := final (unload_from_ram 1 s) in
  outcome (unload_from_ram 1 s) = Ret tt
  ∧ resident_model s' 1 = Some "A"
  ∧ outcome (unload_from_ram 1 s') = Raise ValueError.
Proof.
  intros s s'. split; [reflexivity|].
  destruct (unload_from_ram_cannot_be_repeated 1 s eq_refl) as (Hres & _ & Hagain).
  split; [exact Hres|]. fold s' in Hagain. by rewrite Hagain.
Defined.

Lemma unload_models_loop_within_budget ps s :
  get_process_total_ram_usage s ≤ target_ram_bytes_used s →
  final (unload_models_loop ps s) = s ∧ effects (unload_models_loop ps s) = [].
Proof.
  intros Hbudget. induction ps as [|p ps [IHf IHe]]; [done|].
  cbn [unload_models_loop]. rewrite get_bind.
  set (step := if is_process_busy p then _ else _).
  assert (Hstep : final (step s) = s ∧ effects (step s) = []).
  { unfold step. destruct (is_process_busy p); [done|].
    destruct (loaded_horde_model_name p) as [name|]; [|done].
    destruct (is_model_loading name (_horde_model_map s)); [done|].
    run. destruct (next_n_models_loop _ _ _) as [next|e]; [|done].
    case_bool_decide; [done|]. by rewrite bool_decide_false by lia. }
  destruct Hstep as [Hf He].
  rewrite final_bind, effects_bind, Hf, He.
  destruct (outcome (step s)); [|done]. by rewrite IHf, IHe.
Qed.

(** X22.  Within the RAM budget [unload_models] unloads nothing.  When
    the RAM the processes report in total does not exceed
    [total_ram_bytes - target_ram_overhead_bytes], the method sends
    nothing and leaves the manager as it was, whatever the processes hold
    and whatever the deque asks for. *)
Theorem unload_models_within_budget (s : Manager) :
  get_process_total_ram_usage s ≤ target_ram_bytes_used s →
  final (unload_models s) = s ∧ effects (unload_models s) = [].
Proof.
  intros Hbudget. unfold unload_models. rewrite get_bind.
  by apply unload_models_loop_within_budget.
Qed.

Lemma unload_models_within_budget_witness :
  let s := ResidencyExample.loaded in
  get_process_total_ram_usage s ≤ target_ram_bytes_used s
  ∧ final (unload_models s) = s ∧ effects (unload_models s) = [].
Proof.
  intros s.
  assert (Hbudget : get_process_total_ram_usage s ≤ target_ram_bytes_used s)
    by (by vm_compute).
  split; [exact Hbudget|]. exact (unload_models_within_budget s Hbudget).
Defined.

(** ** The API operations, case by case *)

Ltac malformed_head :=
  split; [|done]; unfold submittable;
  intros ((? & ? & ?) & [? ?] & [? ?] & [? ?] & [? ?]);
  first [congruence | simplify_eq; lia].

Ltac no_submit_request :=
  let req := fresh "req" in
  let Hin := fresh "Hin" in
  intros req Hin; cbn in Hin;
  repeat (apply elem_of_cons in Hin as [Hin|Hin]; [discriminate Hin|]);
  by apply elem_of_nil in Hin.

(** X23.  [api_submit_job] raises only on a malformed head record.  With
    a non-empty [completed_jobs], the method raises exactly when the head
    record fails one of the checks made before the [try] block (no image
    list, more than one image, no id, seed, upload URL or verdict), and
    then it has sent nothing and changed nothing; every failure after
    those checks is logged and the method returns.  A submit request is
    sent only after the upload was answered with status 200; it directly
    follows the PUT to the record's upload URL and carries the record's
    id, state and verdict, the parsed seed and the generation "R2". *)
Theorem api_submit_job_raises_only_on_a_malformed_head
    (w : SubmitWorld) (s : Manager)
    (c : CompletedJobInfo) (rest : list CompletedJobInfo) :
  completed_jobs s = c :: rest →
  let r := api_submit_job w s in
  (submittable c ↔ outcome r = Ret tt)
  ∧ (¬ submittable c → final r = s ∧ effects r = [])
  ∧ ∀ req,
      EvSubmitRequest req ∈ effects r →
      put_status_code w = Some 200
      ∧ ∃ job_id url body the_seed is_censored later,
          id_ (job_info c) = Some job_id
          ∧ r2_upload (job_info c) = Some url
          ∧ webp_bytes w = Some body
          ∧ seed_as_int w = Some the_seed
          ∧ censored c = Some is_censored
          ∧ req = submit_request_of s c job_id the_seed is_censored
          ∧ effects r = EvHttpPut url body :: EvSubmitRequest req :: later.
Proof.
  intros Hc r. subst r.
  unfold api_submit_job. rewrite get_bind. rewrite Hc.
  destruct (job_result_images_base64 c) as [images|] eqn:Himages.
  2:{ split; [malformed_head | split; [done | no_submit_request]]. }
  case_bool_decide as Hmany.
  1:{ split; [malformed_head | split; [done | no_submit_request]]. }
  destruct (id_ (job_info c)) as [job_id|] eqn:Hid.
  2:{ split; [malformed_head | split; [done | no_submit_request]]. }
  destruct (seed (payload (job_info c))) as [sd|] eqn:Hseed.
  2:{ split; [malformed_head | split; [done | no_submit_request]]. }
  destruct (r2_upload (job_info c)) as [url|] eqn:Hurl.
  2:{ split; [malformed_head | split; [done | no_submit_request]]. }
  destruct (censored c) as [is_censored|] eqn:Hcensored.
  2:{ split; [malformed_head | split; [done | no_submit_request]]. }
  assert (Hsub : submittable c).
  { split; [exists images; split; [done|lia]|]. rewrite Hid, Hseed, Hurl. eauto. }
  run.
  destruct (images !! 0%nat); run;
    [|split; [done | split; [done | no_submit_request]]].
  destruct (webp_bytes w) as [body|]; run;
    [|split; [done | split; [done | no_submit_request]]].
  destruct (put_status_code w) as [status|]; run;
    [|split; [done | split; [done | no_submit_request]]].
  case_bool_decide as Hstatus; run;
    [split; [done | split; [done | no_submit_request]]|].
  assert (status = 200) as -> by (destruct (decide (status = 200)); done).
  destruct (seed_as_int w) as [the_seed|]; run;
    [|split; [done | split; [done | no_submit_request]]].
  assert (Hsent : ∀ later req,
            EvSubmitRequest req
              ∈ EvHttpPut url body
                :: EvSubmitRequest (submit_request_of s c job_id the_seed is_censored)
                :: later →
            (∀ e, e ∈ later → ∀ q, e ≠ EvSubmitRequest q) →
            Some 200 = Some 200
            ∧ ∃ job_id0 url0 body0 the_seed0 is_censored0 later0,
                Some job_id = Some job_id0 ∧ Some url = Some url0
                ∧ Some body = Some body0 ∧ Some the_seed = Some the_seed0
                ∧ Some is_censored = Some is_censored0
                ∧ req = submit_request_of s c job_id0 the_seed0 is_censored0
                ∧ EvHttpPut url body
                  :: EvSubmitRequest (submit_request_of s c job_id the_seed is_censored)
                  :: later
                  = EvHttpPut url0 body0 :: EvSubmitRequest req :: later0).
  { intros later req Hin Hlater. split; [done|].
    exists job_id, url, body, the_seed, is_censored, later.
    apply elem_of_cons in Hin as [Hin|Hin]; [done|].
    apply elem_of_cons in Hin as [Hin|Hin];
      [|by destruct (Hlater _ Hin req)].
    injection Hin as ->. done. }
  assert (Hlog : ∀ l e, e ∈ (EvLog l :: []) → ∀ q, e ≠ EvSubmitRequest q).
  { intros l e [->|?%elem_of_nil]%elem_of_cons q; done. }
  destruct (job_submit_response w) as [e| |response]; run.
  - split; [done|]. split; [done|]. intros req Hin.
    apply (Hsent _ _ Hin). apply Hlog.
  - split; [done|]. split; [done|]. intros req Hin.
    apply (Hsent _ _ Hin). apply Hlog.
  - rewrite Hc, list_remove_first_head. run.
    split; [done|]. split; [done|]. intros req Hin.
    apply (Hsent _ _ Hin).
    intros e0 Hin0 q.
    repeat (apply elem_of_cons in Hin0 as [->|Hin0]; [done|]).
    by apply elem_of_nil in Hin0.
Qed.

Lemma api_submit_job_raises_only_on_a_malformed_head_witness :
  let accepted := {| webp_bytes := Some "RIFF-WEBP"; put_status_code := Some 200;
                     seed_as_int := Some 42;
                     job_submit_response := ApiResponse {| reward := 10 |} |} in
  let c := Examples.record "j1" (Some ["image"]) (Some false) in
  completed_jobs Examples.submitting = [c]
  ∧ submittable c
  ∧ outcome (api_submit_job accepted Examples.submitting) = Ret tt.
Proof.
  intros accepted c.
  assert (Hsub : submittable c).
  { split; [exists ["image"]; split; [done | simpl; lia]|]. simpl. eauto. }
  split; [reflexivity|]. split; [exact Hsub|].
  exact (proj1 (proj1 (api_submit_job_raises_only_on_a_malformed_head
                         accepted Examples.submitting c [] eq_refl)) Hsub).
Defined.

Lemma api_job_pop_frame w v s :
  api_job_pop w (set_completed_jobs v s)
  = {| outcome := outcome (api_job_pop w s);
       final := set_completed_jobs v (final (api_job_pop w s));
       effects := effects (api_job_pop w s) |}.
Proof.
  unfold api_job_pop. run.
  case_bool_decide; [done|]. case_bool_decide; [done|].
  destruct (Qltb _ _); [done|].
  destruct (request_built w); run; [|done].
  destruct (job_pop_response w) as [e| |j]; run; try done.
  destruct (id_ j); run; [|done].
  by destruct (file_written w).
Qed.

(** [api_submit_job] reads [completed_jobs] and the API key only. *)
Lemma api_submit_job_frame w s s' :
  completed_jobs s' = completed_jobs s →
  bridge_data s' = bridge_data s →
  outcome (api_submit_job w s') = outcome (api_submit_job w s)
  ∧ effects (api_submit_job w s') = effects (api_submit_job w s)
  ∧ ((final (api_submit_job w s) = s ∧ final (api_submit_job w s') = s')
     ∨ ∃ rest, final (api_submit_job w s) = set_completed_jobs rest s
               ∧ final (api_submit_job w s') = set_completed_jobs rest s').
Proof.
  intros Hcompleted Hbd. unfold api_submit_job. rewrite !get_bind.
  rewrite Hcompleted, Hbd.
  destruct (completed_jobs s) as [|c rest] eqn:Hc; [by auto|].
  destruct (job_result_images_base64 c) as [images|]; [|by auto].
  case_bool_decide; [by auto|].
  destruct (id_ (job_info c)), (seed (payload (job_info c))),
    (r2_upload (job_info c)), (censored c); try (by auto).
  run.
  destruct (images !! 0%nat); run; [|by auto].
  destruct (webp_bytes w); run; [|by auto].
  destruct (put_status_code w) as [status|]; run; [|by auto].
  case_bool_decide; run; [by auto|].
  destruct (seed_as_int w); run; [|by auto].
  destruct (job_submit_response w) as [e| |response]; run; try (by auto).
  rewrite Hcompleted, Hc, list_remove_first_head. run.
  split; [done|]. split; [done|]. right. by exists rest.
Qed.

(** X24.  An API tick never raises, and its two tasks are independent.
    One iteration of [_api_call_loop] always returns.  [api_job_pop] and
    [api_submit_job] write different attributes and neither reads what
    the other writes: the manager at the end of the tick is the one that
    the two methods leave when run one after the other, in either order,
    on the manager the tick starts the tasks with.  Each task has the
    effects it has when run alone, in two parts: up to its request, and
    from the answer on.  The effects of the tick are the 5 s sleep when
    [_user_info_failed] is set, the pop up to its request, the submit up
    to its request (the upload and the request), what the two tasks do
    with their answers, in the order in which the answers arrive, an error
    log when [_user_info_failed] is set, and the 0.1 s sleep. *)
Theorem api_tick_runs_two_independent_tasks (w : ApiTickWorld) (s : Manager) :
  let pop := api_job_pop (pop_world w) (stamped w s) in
  let submit := api_submit_job (submit_world w) (stamped w s) in
  let pop_until_await := effects (api_job_pop_until_await (pop_world w) (stamped w s)) in
  let submit_until_await :=
    effects (api_submit_job_until_await (submit_world w) (stamped w s)) in
  let pop_after_await := pop_effects_after_await (pop_world w) (stamped w s) in
  let submit_after_await := submit_effects_after_await (submit_world w) (stamped w s) in
  let r := api_call_loop_iteration w s in
  outcome r = Ret tt
  ∧ final r = final (api_submit_job (submit_world w) (final pop))
  ∧ final r = final (api_job_pop (pop_world w) (final submit))
  ∧ effects pop = pop_until_await ++ pop_after_await
  ∧ effects submit = submit_until_await ++ submit_after_await
  ∧ effects r
    = (if _user_info_failed s then [EvSleep 5] else [])
      ++ pop_until_await ++ submit_until_await
      ++ (if pop_answered_first w then pop_after_await ++ submit_after_await
          else submit_after_await ++ pop_after_await)
      ++ (if _user_info_failed s then [EvLog ERROR] else [])
      ++ [EvSleep _api_call_loop_interval].
Proof.
  intros pop submit pop_until_await submit_until_await pop_after_await
    submit_after_await r.
  destruct (gather_tasks_run w (stamped w s)) as (Hg_o & Hg_f & Hg_e).
  fold pop in Hg_f.
  fold pop_until_await submit_until_await pop_after_await submit_after_await
    in Hg_e.
  assert (Hrun :
    outcome r = Ret tt
    ∧ final r = final (gather_tasks w (stamped w s))
    ∧ effects r
      = (if _user_info_failed s then [EvSleep 5] else [])
        ++ effects (gather_tasks w (stamped w s))
        ++ (if _user_info_failed (final (gather_tasks w (stamped w s)))
            then [EvLog ERROR] else [])
        ++ [EvSleep _api_call_loop_interval]).
  { clear Hg_f Hg_e. subst r. unfold api_call_loop_iteration, stamped in *. run.
    destruct (_user_info_failed s); run;
      destruct (Qltb _ _); run;
      destruct (gather_tasks w _) as [o s1 e1]; cbn [outcome] in Hg_o; subst o;
      run; destruct (_user_info_failed s1); run;
      rewrite ?app_nil_r, <- ?app_assoc; done. }
  destruct Hrun as (Ho & Hf & He). rewrite Hg_f in Hf.
  assert (Hpop : same_on (λ s, (completed_jobs s, bridge_data s, _user_info_failed s))
                   (stamped w s) (final pop)).
  { apply (stable_api_job_pop (same_on _)); try apply _; frame_write. }
  injection Hpop as Hcompleted Hbd Hfailed.
  destruct (api_submit_job_frame (submit_world w) (stamped w s) (final pop)
              Hcompleted Hbd) as (_ & _ & Hfinal).
  assert (Hflag : _user_info_failed (stamped w s) = _user_info_failed s).
  { unfold stamped. by destruct (Qltb _ _). }
  assert (Hsubmit : _user_info_failed
                      (final (api_submit_job (submit_world w) (final pop)))
                    = _user_info_failed s).
  { rewrite <- Hflag, <- Hfailed.
    apply (stable_api_submit_job (same_on _user_info_failed)); try apply _;
      frame_write. }
  split; [done|]. split; [done|]. split.
  { rewrite Hf. fold submit in Hfinal.
    destruct Hfinal as [[Hs Hs']|(rest & Hs & Hs')]; rewrite Hs, Hs'; [done|].
    by rewrite api_job_pop_frame. }
  split; [apply api_job_pop_effects_phases|].
  split; [apply api_submit_job_effects_phases|].
  rewrite He, Hg_e, Hg_f, Hsubmit. by rewrite <- !app_assoc.
Qed.

(** A tick in which a job is popped while a finished one is submitted, the
    answer to the submit request arriving first: the pop request, the
    upload and the submit request come before the record is removed and
    the job is appended. *)
Lemma api_tick_interleaves_the_two_tasks :
  let w := {| time_at_user_info_check := 1; time_at_user_info_stamp := 1;
              pop_world := {| time_at_check := 10; time_at_stamp := 10;
                              request_built := true;
                              job_pop_response := ApiResponse (Examples.job "j2" "A");
                              file_written := true |};
              submit_world := {| webp_bytes := Some "RIFF-WEBP";
                                 put_status_code := Some 200;
                                 seed_as_int := Some 42;
                                 job_submit_response := ApiResponse {| reward := 10 |} |};
              pop_answered_first := false |} in
  let r := api_call_loop_iteration w Examples.submitting in
  effects r
  = [EvSubmitRequest
       (ImageGenerateJobPopRequest (job_pop_request Examples.submitting));
     EvHttpPut "https://r2.example/upload" "RIFF-WEBP";
     EvSubmitRequest
       (submit_request_of Examples.submitting
          (Examples.record "j1" (Some ["image"]) (Some false)) "j1" 42 false);
     EvAcquire completed_jobs_lock; EvRelease completed_jobs_lock;
     EvAcquire job_deque_lock; EvDequeAppend (Examples.job "j2" "A");
     EvRelease job_deque_lock; EvFileWrite "testing/j2";
     EvSleep _api_call_loop_interval]
  ∧ completed_jobs (final r) = []
  ∧ job_deque (final r) = job_deque Examples.submitting ++ [Examples.job "j2" "A"].
Proof. vm_compute. done. Qed.

(** ** Draining and preloading *)

Lemma drain_messages_returns queue :
  ∀ s, _process_message_queue s = queue →
       outcome (drain_messages queue s) = Ret tt →
       _process_message_queue (final (drain_messages queue s)) = [].
Proof.
  induction queue as [|message rest IH]; intros s Hqueue; [done|].
  cbn [drain_messages]. rewrite outcome_bind, final_bind. cbn.
  rewrite outcome_bind, final_bind.
  pose proof (handle_process_message_keeps_queue message
                (set_process_message_queue rest s)) as Hkept.
  destruct (outcome (handle_process_message message _)) as [[]|e]; [|done].
  by apply IH.
Qed.

(** X25.  A drain that returns has emptied the channel.  When
    [receive_and_handle_process_messages] returns normally, every message
    that was in the channel has been taken off and handled:
    [_process_message_queue] is empty afterwards. *)
Theorem drained_channel_is_empty (s : Manager) :
  outcome (receive_and_handle_process_messages s) = Ret tt →
  _process_message_queue (final (receive_and_handle_process_messages s)) = [].
Proof.
  unfold receive_and_handle_process_messages. rewrite get_bind.
  by apply drain_messages_returns.
Qed.

Lemma drained_channel_is_empty_witness :
  let s := after [do_start_inference_processes;
                  message_arrives (HordeProcessStateChangeMessage 0 WAITING_FOR_JOB "A");
                  message_arrives (HordeProcessMemoryMessage 1 100 20 80)]
             Examples.fresh in
  length (_process_message_queue s) = 2%nat
  ∧ outcome (receive_and_handle_process_messages s) = Ret tt
  ∧ _process_message_queue (final (receive_and_handle_process_messages s)) = [].
Proof.
  intros s. split; [reflexivity|].
  assert (Hreturned : outcome (receive_and_handle_process_messages s) = Ret tt)
    by (by vm_compute).
  split; [exact Hreturned|]. exact (drained_channel_is_empty s Hreturned).
Defined.

Lemma preload_models_loop_requests jobs :
  ∀ n s pid m,
    EvSend pid m ∈ effects (preload_models_loop jobs n s) →
    ∃ job name p,
      job ∈ jobs
      ∧ model job = Some name
      ∧ is_model_loaded name (_horde_model_map s) = false
      ∧ is_model_loading name (_horde_model_map s) = false
      ∧ get_first_available_inference_process (_process_map s) = Some p
      ∧ effects (preload_models_loop jobs n s)
        = [EvSend (process_id p)
             (HordePreloadInferenceModelMessage PRELOAD_MODEL name
                (will_load_loras job) (seamless_tiling_enabled job))]
      ∧ is_model_loading name
          (_horde_model_map (final (preload_models_loop jobs n s))) = true.
Proof.
  induction jobs as [|job rest IH]; intros n s pid m; [by intros ?%elem_of_nil|].
  cbn [preload_models_loop].
  destruct (model job) as [name|] eqn:Hmodel; [|by intros ?%elem_of_nil].
  rewrite get_bind.
  destruct (is_model_loaded name (_horde_model_map s)) eqn:Hloaded.
  { intros Hin. destruct (IH (n + 1) s pid m Hin) as (job' & name' & p & Hin' & ?).
    exists job', name', p. split; [apply elem_of_cons; by right | done]. }
  destruct (is_model_loading name (_horde_model_map s)) eqn:Hloading.
  { intros Hin. destruct (IH (n + 1) s pid m Hin) as (job' & name' & p & Hin' & ?).
    exists job', name', p. split; [apply elem_of_cons; by right | done]. }
  cbn [orb]. case_bool_decide; [by intros ?%elem_of_nil|].
  destruct (get_first_available_inference_process (_process_map s)) as [p|] eqn:Hp;
    [|by intros ?%elem_of_nil].
  intros _. exists job, name, p. split; [apply elem_of_cons; by left|].
  split; [done|]. split; [done|]. split; [done|]. split; [done|].
  destruct (model_map_update_entry_run name LOADING (process_id p) s)
    as (Ho1 & He1 & Hpm1 & Hst1 & Hown1 & Hother1).
  set (s1 := final (model_map_update_entry name (Some LOADING) (Some (process_id p)) s))
    in *.
  destruct (update_entry_sets_resident (process_id p) name s1)
    as (Hres2 & Hothers2 & Hmap2 & He2).
  rewrite effects_bind, final_bind. cbn [emit outcome final effects].
  rewrite effects_bind, final_bind. rewrite Ho1. fold s1.
  rewrite He1, He2. split; [done|].
  unfold is_model_loading. rewrite Hmap2. unfold load_state_of in Hst1.
  destruct (_horde_model_map s1 !! name) as [mi|]; [|done].
  injection Hst1 as ->. by rewrite bool_decide_true.
Qed.

(** X26.  [preload_models] asks for at most one model, and only for one
    that is neither loaded nor loading.  Whenever the method sends
    anything, it is a single PRELOAD_MODEL request to the first available
    inference process, for the model of a queued job that the model map
    records neither as loaded nor as loading; afterwards the model is
    recorded as loading, so that the next call does not ask for it
    again. *)
Theorem preload_models_requests_one_missing_model (s : Manager) :
  let r := preload_models s in
  (∀ pid m, EvSend pid m ∈ effects r →
            ∃ job name p, preload_requested s job name p r)
  ∧ (∀ job name p,
       preload_requested s job name p r →
       ∀ pid flag loras tiling,
         EvSend pid (HordePreloadInferenceModelMessage flag name loras tiling)
           ∉ effects (preload_models (final r))).
Proof.
  intros r. subst r. split.
  - intros pid m Hin. unfold preload_models in *. rewrite get_bind in *.
    by apply (preload_models_loop_requests _ _ _ pid m).
  - intros job name p (_ & _ & _ & _ & _ & _ & Hloading) pid flag loras tiling Hin.
    set (s' := final (preload_models s)) in *.
    unfold preload_models in Hin. rewrite get_bind in Hin.
    destruct (preload_models_loop_requests _ _ _ _ _ Hin)
      as (job' & name' & p' & _ & _ & _ & Hnot & _ & Hsent & _).
    rewrite Hsent in Hin. apply list_elem_of_singleton in Hin.
    injection Hin as _ _ -> _ _. congruence.
Qed.

Lemma preload_models_requests_one_missing_model_witness :
  let s := ResidencyExample.queued in
  let r := preload_models s in
  effects r = [EvSend 1 (HordePreloadInferenceModelMessage PRELOAD_MODEL "A" false false)]
  ∧ ∃ job name p, preload_requested s job name p r.
Proof.
  intros s r.
  assert (Hsent : effects r
                  = [EvSend 1 (HordePreloadInferenceModelMessage
                                 PRELOAD_MODEL "A" false false)])
    by (by vm_compute).
  split; [exact Hsent|].
  apply (proj1 (preload_models_requests_one_missing_model s) 1
           (HordePreloadInferenceModelMessage PRELOAD_MODEL "A" false false)).
  fold r. rewrite Hsent. apply list_elem_of_singleton. reflexivity.
Defined.

(** ** Lock discipline *)

Lemma lock_trace_app held es1 es2 :
  lock_trace held (es1 ++ es2) = lock_trace held es1 ≫= λ held', lock_trace held' es2.
Proof.
  revert held. induction es1 as [|e es1 IH]; intros held; simpl; [done|].
  destruct (lock_step held e) as [held'|]; simpl; [apply IH | done].
Qed.

Section disciplined_rules.
Context (L : list LockName).

Lemma disciplined_silent {A} (m : M A) :
  (∀ s, effects (m s) = []) → disciplined L m.
Proof. intros Hm s held _. by rewrite Hm. Qed.

Lemma disciplined_ret {A} (a : A) : disciplined L (mret a : M A).
Proof. by apply disciplined_silent. Qed.

Lemma disciplined_raise {A} (e : PyExn) : disciplined L (raise e : M A).
Proof. by apply disciplined_silent. Qed.

Lemma disciplined_get : disciplined L get.
Proof. by apply disciplined_silent. Qed.

Lemma disciplined_modify f : disciplined L (modify f).
Proof. by apply disciplined_silent. Qed.

Lemma disciplined_lift {A} (o : Outcome A) : disciplined L (lift o).
Proof. by apply disciplined_silent. Qed.

Lemma disciplined_await_response {A} (o : ApiOutcome A) :
  disciplined L (await_response o).
Proof. apply disciplined_silent. by destruct o. Qed.

Lemma disciplined_or_raise {A} (e : PyExn) (o : option A) :
  disciplined L (or_raise e o).
Proof. apply disciplined_silent. by destruct o. Qed.

Lemma disciplined_emit (e : Event) :
  (∀ held, lock_step held e = Some held) → disciplined L (emit e).
Proof. intros He s held _. simpl. by rewrite He. Qed.

Lemma disciplined_log (l : LogLevel) : disciplined L (log l).
Proof. by apply disciplined_emit. Qed.

Lemma disciplined_bind {A B} (m : M A) (k : A → M B) :
  disciplined L m → (∀ a, disciplined L (k a)) → disciplined L (m ≫= k).
Proof.
  intros Hm Hk s held Hheld. rewrite effects_bind.
  destruct (outcome (m s)) as [a|e]; [|by apply Hm].
  rewrite lock_trace_app, Hm by done. simpl. by apply Hk.
Qed.

Lemma disciplined_try_except {A} (body : M A) (handler : PyExn → M A) :
  disciplined L body → (∀ e, disciplined L (handler e)) →
  disciplined L (try_except body handler).
Proof.
  intros Hb Hh s held Hheld. unfold try_except.
  pose proof (Hb s held Hheld) as Hbody.
  destruct (body s) as [[a|e] s1 e1]; simpl in *; [done|].
  pose proof (Hh e s1 held Hheld) as Hhandler.
  destruct (handler e s1) as [o s2 e2]. simpl in *.
  rewrite lock_trace_app, Hbody. done.
Qed.

Lemma disciplined_with_lock {A} (L' : list LockName) (l : LockName) (body : M A) :
  l ∈ L → l ∉ L' → (∀ x, x ∈ L' → x ∈ L) →
  disciplined L' body → disciplined L (with_lock l body).
Proof.
  intros Hl Hfresh Hsub Hbody s held Hheld. unfold with_lock.
  assert (Hinner : ∀ x, x ∈ L' → x ∉ l :: held).
  { intros x Hx. apply not_elem_of_cons. split; [by intros -> | by apply Hheld, Hsub]. }
  pose proof (Hbody s (l :: held) Hinner) as Htrace.
  destruct (body s) as [o s1 e1]. simpl in *.
  rewrite bool_decide_false by (by apply Hheld). simpl.
  rewrite lock_trace_app, Htrace. simpl. by rewrite bool_decide_true.
Qed.

End disciplined_rules.

Lemma disciplined_weaken (L L' : list LockName) {A} (m : M A) :
  (∀ x, x ∈ L → x ∈ L') → disciplined L m → disciplined L' m.
Proof. intros Hsub Hm s held Hheld. apply Hm. intros l Hl. by apply Hheld, Hsub. Qed.

Ltac in_list :=
  solve [repeat (apply elem_of_cons; first [left; reflexivity | right])].

Ltac disciplined_step :=
  lazymatch goal with
  | |- disciplined _ (mbind _ _) => apply disciplined_bind; [| intros ?]
  | |- disciplined _ (mret _) => apply disciplined_ret
  | |- disciplined _ (raise _) => apply disciplined_raise
  | |- disciplined _ get => apply disciplined_get
  | |- disciplined _ (modify _) => apply disciplined_modify
  | |- disciplined _ (lift _) => apply disciplined_lift
  | |- disciplined _ (await_response _) => apply disciplined_await_response
  | |- disciplined _ (or_raise _ _) => apply disciplined_or_raise
  | |- disciplined _ (emit _) => apply disciplined_emit; reflexivity
  | |- disciplined _ (log _) => apply disciplined_log
  | |- disciplined _ (try_except _ _) => apply disciplined_try_except; [| intros ?]
  | |- disciplined _ (gathered _) => apply disciplined_try_except; [| intros ?]
  | |- disciplined _ (with_lock _ _) =>
      apply (disciplined_with_lock _ []);
      [ in_list
      | apply not_elem_of_nil
      | intros ? ?%elem_of_nil; done
      | ]
  | |- disciplined _ (match ?x with _ => _ end) => destruct x
  end.

(** The methods of the scheduler and of the dispatcher take no lock. *)
Lemma handle_process_message_takes_no_lock message :
  disciplined [] (handle_process_message message).
Proof.
  unfold handle_process_message, process_map_update_entry, setattr_if_not_None,
    process_setattr, model_map_update_entry, handle_inference_result,
    handle_safety_result, job_deque_popleft.
  repeat disciplined_step.
Qed.

Lemma receive_and_handle_process_messages_takes_no_lock :
  disciplined [] receive_and_handle_process_messages.
Proof.
  unfold receive_and_handle_process_messages.
  apply disciplined_bind; [apply disciplined_get|]. intros s0.
  induction (_process_message_queue s0) as [|message rest IH];
    cbn [drain_messages]; repeat disciplined_step;
    eauto using handle_process_message_takes_no_lock.
Qed.

Lemma start_evaluate_safety_takes_no_lock : disciplined [] start_evaluate_safety.
Proof. unfold start_evaluate_safety. repeat disciplined_step. Qed.

Lemma preload_models_takes_no_lock : disciplined [] preload_models.
Proof.
  unfold preload_models. apply disciplined_bind; [apply disciplined_get|].
  intros s0. generalize 0.
  induction (job_deque s0) as [|job rest IH]; intros n;
    cbn [preload_models_loop];
    unfold process_map_update_entry, setattr_if_not_None, process_setattr,
      model_map_update_entry;
    repeat disciplined_step; eauto.
Qed.

Lemma start_inference_takes_no_lock : disciplined [] start_inference.
Proof.
  unfold start_inference. repeat disciplined_step.
  induction (pm_values _) as [|q ps IH]; cbn [unload_vram_of_others];
    repeat disciplined_step; eauto.
Qed.

Lemma unload_models_takes_no_lock : disciplined [] unload_models.
Proof.
  unfold unload_models. apply disciplined_bind; [apply disciplined_get|].
  intros s0. induction (pm_values (_process_map s0)) as [|q ps IH];
    cbn [unload_models_loop];
    unfold unload_from_ram, process_map_update_entry, setattr_if_not_None,
      process_setattr, model_map_update_entry;
    repeat disciplined_step; eauto.
Qed.

Lemma start_processes_take_no_lock :
  disciplined [] start_safety_processes ∧ disciplined [] start_inference_processes.
Proof.
  assert (Hspawn : ∀ n k, disciplined [] (spawn_processes n k)).
  { induction n as [|n IH]; intros k; cbn [spawn_processes];
      repeat disciplined_step; eauto. }
  split; [unfold start_safety_processes | unfold start_inference_processes];
    repeat disciplined_step; eauto.
Qed.

Lemma end_inference_processes_takes_no_lock : disciplined [] end_inference_processes.
Proof.
  assert (Hend : ∀ n, disciplined [] (end_processes n)).
  { induction n as [|n IH]; cbn [end_processes];
      unfold process_map_update_entry, setattr_if_not_None;
      repeat disciplined_step; eauto. }
  unfold end_inference_processes. repeat disciplined_step; eauto.
Qed.

Lemma process_control_loop_iteration_disciplined :
  disciplined all_locks process_control_loop_iteration.
Proof.
  assert (Hin : ∀ l : LockName, l ∈ all_locks)
    by (intros []; in_list).
  assert (Hfree : ∀ {A} (m : M A), disciplined [] m → disciplined all_locks m).
  { intros A m. apply disciplined_weaken. by intros ? ?%elem_of_nil. }
  unfold process_control_loop_iteration.
  apply disciplined_bind; [apply disciplined_get|]. intros s0.
  destruct (stable_diffusion_reference s0); [|apply disciplined_ret].
  apply disciplined_bind.
  { apply (disciplined_with_lock _ [jobs_safety_check_lock; completed_jobs_lock]);
      [apply Hin | by intros [[=]|[[=]|?%elem_of_nil]%elem_of_cons]%elem_of_cons
      | intros; apply Hin |].
    apply (disciplined_with_lock _ [completed_jobs_lock]);
      [apply elem_of_cons; by left
      | by intros [[=]|?%elem_of_nil]%elem_of_cons
      | intros x Hx; apply elem_of_cons; by right |].
    apply (disciplined_with_lock _ []);
      [apply elem_of_cons; by left | apply not_elem_of_nil
      | by intros ? ?%elem_of_nil |].
    apply receive_and_handle_process_messages_takes_no_lock. }
  intros _. repeat disciplined_step;
    eauto using start_evaluate_safety_takes_no_lock, preload_models_takes_no_lock,
      start_inference_takes_no_lock, unload_models_takes_no_lock.
Qed.

Lemma every_operation_is_disciplined o : disciplined all_locks (perform o).
Proof.
  assert (Hfree : ∀ {A} (m : M A), disciplined [] m → disciplined all_locks m).
  { intros A m. apply disciplined_weaken. by intros ? ?%elem_of_nil. }
  destruct o; simpl.
  - apply disciplined_modify.
  - apply Hfree, start_processes_take_no_lock.
  - apply Hfree, start_processes_take_no_lock.
  - apply Hfree, end_inference_processes_takes_no_lock.
  - apply Hfree, receive_and_handle_process_messages_takes_no_lock.
  - apply Hfree, preload_models_takes_no_lock.
  - apply Hfree, start_inference_takes_no_lock.
  - apply Hfree. unfold unload_from_ram, process_map_update_entry,
      setattr_if_not_None, process_setattr, model_map_update_entry.
    repeat disciplined_step.
  - apply Hfree, unload_models_takes_no_lock.
  - apply Hfree, start_evaluate_safety_takes_no_lock.
  - unfold api_submit_job. repeat disciplined_step.
  - unfold api_job_pop, job_deque_append. repeat disciplined_step.
  - unfold api_get_user_info. apply Hfree. repeat disciplined_step.
  - unfold api_call_loop_iteration, gather_tasks, api_job_pop_until_await,
      api_job_pop_after_await, api_submit_job_until_await,
      api_submit_job_after_await, job_deque_append.
    cbv zeta. repeat disciplined_step.
  - apply disciplined_bind; [apply process_control_loop_iteration_disciplined|].
    intros c. apply disciplined_ret.
  - unfold _process_control_loop.
    apply disciplined_bind; [apply Hfree, start_processes_take_no_lock|]. intros _.
    apply disciplined_bind; [apply Hfree, start_processes_take_no_lock|]. intros _.
    induction arrivals as [|arrived later IH]; cbn [process_control_loop_iterations];
      [apply disciplined_ret|].
    apply disciplined_bind; [apply disciplined_modify|]. intros _.
    apply disciplined_bind; [apply process_control_loop_iteration_disciplined|].
    intros []; [exact IH | apply disciplined_ret | apply disciplined_ret].
Qed.

(** X27.  Locks are taken and released in a nested fashion.  Every
    operation of the orchestrator, whether it returns or raises, releases
    each lock it took, the innermost first, and never takes a lock that it
    already holds: at its end no lock is held.  The same holds when it is
    run while other code holds none of the three locks. *)
Theorem locks_are_released (o : Operation) (s : Manager) :
  lock_trace [] (effects (perform o s)) = Some []
  ∧ disciplined all_locks (perform o).
Proof.
  split; [|apply every_operation_is_disciplined].
  apply every_operation_is_disciplined. intros l _. apply not_elem_of_nil.
Qed.

(** ** The pop interval and the start of the control loop *)

Lemma api_job_pop_sets_a_known_interval w s :
  _job_pop_frequency (final (api_job_pop w s)) = _job_pop_frequency s
  ∨ pop_interval_known (final (api_job_pop w s)).
Proof.
  unfold api_job_pop, pop_interval_known. run.
  case_bool_decide; [by left|]. case_bool_decide; [by left|].
  destruct (Qltb _ _); [by left|].
  destruct (request_built w); run; [|right; by right].
  destruct (job_pop_response w) as [e| |j]; run; try (right; by right).
  destruct (id_ j); run; [|right; by left].
  destruct (file_written w); right; by left.
Qed.

Lemma every_operation_keeps_the_pop_interval o :
  stable (keeps pop_interval_known) (perform o).
Proof.
  assert (Hsub : ∀ s s', same_on _job_pop_frequency s s' →
                         keeps pop_interval_known s s').
  { unfold same_on, keeps, pop_interval_known. by intros s s' ->. }
  apply methods_perform; try apply _; try framed _job_pop_frequency Hsub.
  intros w s Hs.
  destruct (api_job_pop_sets_a_known_interval w s) as [Hsame|Hknown]; [|done].
  unfold pop_interval_known. by rewrite Hsame.
Qed.

(** X28.  The pop interval is 1 s or 5 s.  In every state reachable from
    a constructed manager [_job_pop_frequency] is the default interval
    (1 s) or the error interval (5 s); a pop that is due and fails leaves
    it at 5 s, one that is answered at 1 s. *)
Theorem pop_interval_is_default_or_error
    (bd : reGenBridgeData) (system_ram : Z)
    (reference : gmap string StableDiffusion_ModelRecord)
    (overhead max_inference max_safety max_download max_concurrent : Z)
    (s0 s : Manager) :
  new_manager bd system_ram reference overhead max_inference max_safety
    max_download max_concurrent = Some s0 →
  reachable s0 s →
  (_job_pop_frequency s = 1%Q ∨ _job_pop_frequency s = 5%Q)
  ∧ ∀ w, pop_due w s →
         (pop_failed w → _job_pop_frequency (final (api_job_pop w s)) = 5%Q)
         ∧ (∀ j, request_built w = true → job_pop_response w = ApiResponse j →
                 _job_pop_frequency (final (api_job_pop w s)) = 1%Q).
Proof.
  intros Hnew Hreach. split.
  - apply (reachable_keeps pop_interval_known s0 s
             every_operation_keeps_the_pop_interval); [|done].
    unfold new_manager in Hnew. repeat case_bool_decide; try done.
    injection Hnew as <-. by left.
  - intros w Hdue. split.
    + intros Hfailed. by destruct (api_job_pop_failed w s Hdue Hfailed) as [_ ->].
    + intros j Hbuilt Hresponse.
      pose proof (api_job_pop_answered w s j Hdue Hbuilt Hresponse) as Hrun.
      destruct (id_ j); by rewrite Hrun.
Qed.

Lemma pop_interval_is_default_or_error_witness :
  let refused := {| time_at_check := 10; time_at_stamp := 10; request_built := true;
                    job_pop_response := ApiRequestError; file_written := true |} in
  let s := after [do_api_job_pop refused] Examples.fresh in
  new_manager Examples.bd 17179869184 Examples.catalogue 2147483648 3 1 1 1
    = Some Examples.fresh
  ∧ reachable Examples.fresh s
  ∧ _job_pop_frequency s = 5%Q
  ∧ (_job_pop_frequency s = 1%Q ∨ _job_pop_frequency s = 5%Q).
Proof.
  intros refused s.
  assert (Hr : reachable Examples.fresh s) by apply reachable_after.
  split; [reflexivity|]. split; [exact Hr|]. split; [reflexivity|].
  exact (proj1 (pop_interval_is_default_or_error Examples.bd 17179869184
                  Examples.catalogue 2147483648 3 1 1 1 Examples.fresh s eq_refl Hr)).
Defined.

(** X29.  The control loop starts the safety processes first.  On a
    newly constructed manager [_process_control_loop] starts
    [max_safety_processes] safety processes with the ids 0, 1, ... and
    then [max_inference_processes] inference processes with the ids that
    follow, all in state PROCESS_STARTING.  A negative
    [max_safety_processes] makes it raise [ValueError] at once, a negative
    [max_inference_processes] after the safety processes have been
    started; no iteration of the loop is run then. *)
Theorem control_loop_starts_the_processes
    (bd : reGenBridgeData) (system_ram : Z)
    (reference : gmap string StableDiffusion_ModelRecord)
    (overhead max_inference max_safety max_download max_concurrent : Z)
    (s0 : Manager) (arrivals : list (list HordeProcessMessage)) :
  new_manager bd system_ram reference overhead max_inference max_safety
    max_download max_concurrent = Some s0 →
  let safety := spawned 0 (Z.to_nat max_safety) SAFETY in
  let r := _process_control_loop arrivals s0 in
  (max_safety < 0 → r = {| outcome := Raise ValueError; final := s0;
                           effects := [EvLog CRITICAL] |})
  ∧ (0 ≤ max_safety → max_inference < 0 →
     r = {| outcome := Raise ValueError; final := set_process_map safety s0;
            effects := ((λ i, EvSpawn SAFETY (Z.of_nat i))
                          <$> seq 0 (Z.to_nat max_safety))
                       ++ [EvLog CRITICAL] |})
  ∧ (0 ≤ max_safety → 0 ≤ max_inference →
     _process_control_loop [] s0
     = {| outcome := Ret tt;
          final := set_process_map
                     (safety ++ spawned (Z.to_nat max_safety)
                                  (Z.to_nat max_inference) INFERENCE) s0;
          effects := ((λ i, EvSpawn SAFETY (Z.of_nat i))
                        <$> seq 0 (Z.to_nat max_safety))
                     ++ ((λ i, EvSpawn INFERENCE (Z.of_nat i))
                           <$> seq (Z.to_nat max_safety) (Z.to_nat max_inference)) |}).
Proof.
  intros Hnew safety r. subst r safety.
  assert (Hfresh : _process_map s0 = []
                   ∧ max_safety_processes s0 = max_safety
                   ∧ max_inference_processes s0 = max_inference).
  { unfold new_manager in Hnew. repeat case_bool_decide; try done.
    by injection Hnew as <-. }
  destruct Hfresh as (Hpm & Hms & Hmi).
  assert (Hd0 : dense (_process_map s0)) by (rewrite Hpm; by split).
  assert (Hsafety : start_safety_processes s0
                    = if bool_decide (max_safety < 0)
                      then {| outcome := Raise ValueError; final := s0;
                              effects := [EvLog CRITICAL] |}
                      else {| outcome := Ret tt;
                              final := set_process_map
                                         (spawned 0 (Z.to_nat max_safety) SAFETY) s0;
                              effects := (λ i, EvSpawn SAFETY (Z.of_nat i))
                                           <$> seq 0 (Z.to_nat max_safety) |}).
  { unfold start_safety_processes. rewrite get_bind.
    rewrite (start_processes_cases SAFETY _ s0 Hd0).
    rewrite Hpm, Hms. replace (max_safety - num_safety_processes []) with max_safety
      by (unfold num_safety_processes; simpl; lia).
    done. }
  set (s1 := set_process_map (spawned 0 (Z.to_nat max_safety) SAFETY) s0) in *.
  assert (Hd1 : dense (_process_map s1)).
  { pose proof (dense_app_spawned (_process_map s0) (Z.to_nat max_safety) SAFETY Hd0)
      as H. by rewrite Hpm in H. }
  assert (Hlen : length (_process_map s1) = Z.to_nat max_safety).
  { unfold s1, spawned. simpl. by rewrite length_fmap, length_seq. }
  assert (Hinference : start_inference_processes s1
                       = if bool_decide (max_inference < 0)
                         then {| outcome := Raise ValueError; final := s1;
                                 effects := [EvLog CRITICAL] |}
                         else {| outcome := Ret tt;
                                 final := set_process_map
                                            (spawned 0 (Z.to_nat max_safety) SAFETY
                                             ++ spawned (Z.to_nat max_safety)
                                                  (Z.to_nat max_inference) INFERENCE) s0;
                                 effects := (λ i, EvSpawn INFERENCE (Z.of_nat i))
                                              <$> seq (Z.to_nat max_safety)
                                                    (Z.to_nat max_inference) |}).
  { unfold start_inference_processes. rewrite get_bind.
    rewrite (start_processes_cases INFERENCE _ s1 Hd1). rewrite Hlen.
    replace (max_inference_processes s1
             - num_inference_processes (_process_map s1)) with max_inference; [done|].
    change (max_inference_processes s1) with (max_inference_processes s0).
    rewrite Hmi. unfold num_inference_processes, s1. simpl.
    pose proof (count_kind_spawned SAFETY INFERENCE [] 0 (Z.to_nat max_safety)) as Hc.
    simpl in Hc. rewrite Hc. simpl. lia. }
  unfold _process_control_loop, mbind, M_bind, bind.
  rewrite Hsafety. split; [|split].
  - intros Hneg. by rewrite bool_decide_true by lia.
  - intros Hok Hneg. rewrite bool_decide_false by lia.
    rewrite Hinference. by rewrite bool_decide_true by lia.
  - intros Hok Hok'. rewrite bool_decide_false by lia.
    rewrite Hinference. rewrite bool_decide_false by lia.
    simpl. by rewrite app_nil_r.
Qed.

Lemma control_loop_starts_the_processes_witness :
  new_manager Examples.bd 17179869184 Examples.catalogue 2147483648 3 1 1 1
    = Some Examples.fresh
  ∧ (_process_map (final (_process_control_loop [] Examples.fresh))).*1 = [0; 1; 2; 3]
  ∧ (process_type <$> pm_values
       (_process_map (final (_process_control_loop [] Examples.fresh))))
    = [SAFETY; INFERENCE; INFERENCE; INFERENCE].
Proof.
  split; [reflexivity|].
  destruct (control_loop_starts_the_processes Examples.bd 17179869184
              Examples.catalogue 2147483648 3 1 1 1 Examples.fresh [] eq_refl)
    as (_ & _ & Hstart).
  rewrite (Hstart ltac:(lia) ltac:(lia)). by split.
Defined.
